(** * nbox operators and their airflow bridge

    A shallow embedding of [nbox/jobs/operator.py] (class [Operator]) and
    [nbox/framework/__airflow.py] (the export to and the import from the
    scheduler's task records).

    Python objects live in a heap indexed by locations, so that two
    attributes holding the same operator instance alias the same location;
    sets of operators (the traversal memo) are sets of locations, because
    [Operator] defines neither [__eq__] nor [__hash__].  Code that mutates
    objects is written in a state-and-exception monad over the heap; the
    generator [named_operators] is rendered as the list of the pairs it
    yields, the memo it leaves behind and the exception, if any, that ends
    the iteration. *)

From stdpp Require Import gmap strings list fin_maps pretty.

#[local] Set Warnings "-clear-no-such-hyp".

Open Scope string_scope.
Open Scope nat_scope.

(** ** Exceptions and results *)

(** The exceptions the source raises, or makes the interpreter raise.  The
    messages of the [raise] statements of the source are kept; those of the
    interpreter are abbreviated. *)
Inductive exn : Type :=
| AttributeError (msg : string)
| KeyError (msg : string)
| TypeError (msg : string)
| ValueError (msg : string)
| IndexError (msg : string)
| AssertionError (msg : string)
| NotImplementedError (msg : string)
| Exception (msg : string)
| RecursionError.

Inductive result (A : Type) : Type :=
| Ok (a : A)
| Raise (e : exn).
Arguments Ok {A} a.
Arguments Raise {A} e.

#[global] Instance result_ret : MRet result := @Ok.
#[global] Instance result_bind : MBind result := λ A B f r,
  match r with
  | Ok a => f a
  | Raise e => Raise e
  end.

(** ** Values, classes, objects *)

Abbreviation loc := nat (only parsing).

(** What an attribute of an operator can hold.  [VOp l] is a reference to the
    operator at [l] (the values for which [isinstance(value, Operator)]
    holds); [VODict d] is an [OrderedDict] from names to operators or [None],
    the shape of [_operators]; [VFun f] is the function named [f];
    [VPartial f l] is [partial(f, ops = <l>.operators())]. *)
Inductive value : Type :=
| VNone
| VBool (b : bool)
| VInt (z : Z)
| VFun (f : string)
| VPartial (f : string) (ops : loc)
| VOp (l : loc)
| VODict (d : list (string * option loc)).

(** Python's truth value of a value. *)
Definition truthy (v : value) : bool :=
  match v with
  | VNone => false
  | VBool b => b
  | VInt z => negb (Z.eqb z 0)
  | VODict d => negb (Nat.eqb (length d) 0)
  | VFun _ | VPartial _ _ | VOp _ => true
  end.

(** A function as [inspect.getfullargspec] and a call with keyword arguments
    see it: the names of its parameters and its result on a mapping of
    keyword arguments. *)
Record pyfun : Type := PyFun {
  fn_args : list string;
  fn_body : list (string * value) → result value
}.

(** Values of the keyword arguments of a scheduler task. *)
Inductive kwvalue : Type :=
| KNone
| KBool (b : bool)
| KStr (s : string)
| KTimedelta (seconds : Z)
| KFun (f : string).

(** The class of an operator, as far as the source inspects it:
    [__class__.__name__], [__doc__], [inspect.getdoc(__init__)], whether its
    [__init__] runs [Operator.__init__], its [forward] method when it defines
    one, and the result of [comms()] when the method exists and returns. *)
Record pyclass : Type := PyClass {
  cls_name : string;
  cls_doc : option string;
  cls_init_doc : option string;
  cls_base_init : bool;
  cls_forward : option pyfun;
  cls_comms : option (gmap string kwvalue)
}.

Record object : Type := Object {
  ob_class : pyclass;
  ob_dict : gmap string value
}.

Abbreviation heap := (gmap nat object) (only parsing).

(** ** Ordered dictionaries

    [OrderedDict] and [dict] as association lists with unique keys, in
    insertion order: assigning to a key already present keeps its place. *)
Section odict.
Context {V : Type}.

Fixpoint odict_get (k : string) (d : list (string * V)) : option V :=
  match d with
  | [] => None
  | (k', v) :: d => if decide (k = k') then Some v else odict_get k d
  end.

Definition odict_mem (k : string) (d : list (string * V)) : bool :=
  bool_decide (is_Some (odict_get k d)).

Fixpoint odict_set (k : string) (v : V) (d : list (string * V)) : list (string * V) :=
  match d with
  | [] => [(k, v)]
  | (k', v') :: d =>
      if decide (k = k') then (k, v) :: d else (k', v') :: odict_set k v d
  end.

Fixpoint odict_del (k : string) (d : list (string * V)) : list (string * V) :=
  match d with
  | [] => []
  | (k', v') :: d =>
      if decide (k = k') then d else (k', v') :: odict_del k d
  end.
End odict.

(** ** The heap monad *)

Definition M (A : Type) : Type := gmap nat object → result A * gmap nat object.

#[global] Instance M_ret : MRet M := λ A a h, (Ok a, h).
#[global] Instance M_bind : MBind M := λ A B f m h,
  match m h with
  | (Ok a, h') => f a h'
  | (Raise e, h') => (Raise e, h')
  end.

Definition throw {A : Type} (e : exn) : M A := λ h, (Raise e, h).

(** [try: m except: pass] *)
Definition try_pass (m : M unit) : M unit := λ h,
  match m h with
  | (_, h') => (Ok (), h')
  end.

(** [self.__dict__]; a location that holds no object has no attributes. *)
Definition __dict__ (h : heap) (self : loc) : gmap string value :=
  match h !! self with
  | Some o => ob_dict o
  | None => ∅
  end.

Definition set_dict (d : gmap string value) (o : object) : object :=
  {| ob_class := ob_class o; ob_dict := d |}.

(** [Operator.__init__]: [self._operators = OrderedDict()].  The assigned
    value is no operator, so [__setattr__] stores it in [__dict__]. *)
Definition Operator__init__ : gmap string value := {[ "_operators" := VODict [] ]}.

(** [operator_cls()]: a fresh instance; its [__dict__] holds the empty
    registry when the class's [__init__] runs [Operator.__init__]. *)
Definition new (operator_cls : pyclass) : M loc := λ h,
  let l := fresh (dom h) in
  (Ok l,
   <[l := {| ob_class := operator_cls;
             ob_dict := if cls_base_init operator_cls then Operator__init__ else ∅ |}]> h).

(** ** [Operator.__setattr__] *)

Definition __setattr__ (self : loc) (key : string) (v : value) : M unit := λ h,
  let d := __dict__ h self in
  match v with
  | VOp l =>
      match d !! "_operators" with
      | None =>
          (Raise (AttributeError "cannot assign operator before Operator.__init__() call"), h)
      | Some (VODict ops) =>
          if bool_decide (key ∈ dom d) && negb (odict_mem key ops) then
            (Raise (KeyError ("attribute '" ++ key ++ "' already exists")), h)
          else
            (Ok (),
             alter (set_dict (<[key := v]> (<["_operators" := VODict (odict_set key (Some l) ops)]> d)))
                   self h)
      | Some _ =>
          (* [key not in self._operators] or [self._operators[key] = value]
             on a value that is no container *)
          (Raise (TypeError "_operators is not a mapping"), h)
      end
  | _ => (Ok (), alter (set_dict (<[key := v]> d)) self h)
  end.

(** ** [Operator.named_operators] *)

(** The run of the generator: the pairs it yields, the memo when it stops,
    and the exception that stopped it, if one did. *)
Record walk : Type := Walk {
  yielded : list (string * loc);
  memo_of : gset nat;
  raised : option exn
}.

(** [self._operators.items()] *)
Definition _operators (h : heap) (self : loc) : result (list (string * option loc)) :=
  match __dict__ h self !! "_operators" with
  | Some (VODict d) => Ok d
  | Some _ => Raise (AttributeError "items")
  | None => Raise (AttributeError "_operators")
  end.

(** [prefix + ('.' if prefix else '') + name] *)
Definition submodule_prefix (prefix name : string) : string :=
  prefix ++ (if decide (prefix = "") then "" else ".") ++ name.

(** The [for name, module in self._operators.items()] loop, over the
    recursive call [rec]. *)
Fixpoint walk_items (rec : loc → gset nat → string → option walk)
    (prefix : string) (items : list (string * option loc)) (memo : gset nat) : option walk :=
  match items with
  | [] => Some (Walk [] memo None)
  | (name, None) :: items => walk_items rec prefix items memo
  | (name, Some module) :: items =>
      w1 ← rec module memo (submodule_prefix prefix name);
      match raised w1 with
      | Some e => Some w1
      | None =>
          w2 ← walk_items rec prefix items (memo_of w1);
          Some (Walk (yielded w1 ++ yielded w2) (memo_of w2) (raised w2))
      end
  end.

(** [fuel] bounds the depth of the recursion; [None] is a run that needs
    more. *)
Fixpoint named_operators (fuel : nat) (h : heap) (self : loc) (memo : gset nat)
    (prefix : string) (remove_duplicate : bool) : option walk :=
  match fuel with
  | O => None
  | S fuel =>
      if decide (self ∈ memo) then Some (Walk [] memo None)
      else
        let memo := if remove_duplicate then {[self]} ∪ memo else memo in
        match _operators h self with
        | Raise e => Some (Walk [(prefix, self)] memo (Some e))
        | Ok items =>
            w ← walk_items (λ module memo prefix,
                   named_operators fuel h module memo prefix remove_duplicate)
                 prefix items memo;
            Some (Walk ((prefix, self) :: yielded w) (memo_of w) (raised w))
        end
  end.

(** ** [Operator.operators] *)

(** [Operator.operators]: the module of every pair that [named_operators()]
    yields, and the exception that stops the iteration, if one does. *)
Definition operators (fuel : nat) (h : gmap nat object) (self : nat) :
    option (list nat * option exn) :=
  w ← named_operators fuel h self ∅ "" true;
  Some ((yielded w).*2, raised w).

(** What a run is, names apart: the instances, the memo and the
    exception. *)
Definition unnamed (w : walk) : list nat * gset nat * option exn :=
  ((yielded w).*2, memo_of w, raised w).

(** ** [Operator.is_dag] *)

(** ["root" if name == "" else name] *)
Definition root_form (name : string) : string :=
  if decide (name = "") then "root" else name.

(** The loop of [is_dag] over what the generator yields; the exception of
    the generator surfaces only if no label repeats before it. *)
Fixpoint is_dag_loop (items : list (string * loc)) (stop : option exn)
    (graph : gset string) : result bool :=
  match items with
  | [] =>
      match stop with
      | Some e => Raise e
      | None => Ok true
      end
  | (name, op) :: items =>
      let name := root_form name in
      if decide (name ∈ graph) then Ok false
      else is_dag_loop items stop ({[name]} ∪ graph)
  end.

(** The traversal of [is_dag] removes duplicates, so a depth of one more
    than the number of objects is enough (lemma [named_operators_total]). *)
Definition is_dag (h : heap) (self : loc) : result bool :=
  match named_operators (S (size (dom h))) h self ∅ "" true with
  | None => Raise RecursionError
  | Some w => is_dag_loop (yielded w) (raised w) ∅
  end.

(** ** The traversal as a relation

    The runs of [named_operators], without the fuel: [walks h rd self memo
    prefix w] when the generator started on [self] with [memo] and [prefix]
    runs as [w]. *)
Inductive walks (h : gmap nat object) (rd : bool) :
    loc → gset nat → string → walk → Prop :=
| walks_seen self memo prefix :
    self ∈ memo →
    walks h rd self memo prefix (Walk [] memo None)
| walks_raise self memo prefix e :
    self ∉ memo →
    _operators h self = Raise e →
    walks h rd self memo prefix
      (Walk [(prefix, self)] (if rd then {[self]} ∪ memo else memo) (Some e))
| walks_node self memo prefix items w :
    self ∉ memo →
    _operators h self = Ok items →
    walks_items h rd prefix items (if rd then {[self]} ∪ memo else memo) w →
    walks h rd self memo prefix
      (Walk ((prefix, self) :: yielded w) (memo_of w) (raised w))
with walks_items (h : gmap nat object) (rd : bool) :
    string → list (string * option loc) → gset nat → walk → Prop :=
| walks_nil prefix memo :
    walks_items h rd prefix [] memo (Walk [] memo None)
| walks_skip prefix name items memo w :
    walks_items h rd prefix items memo w →
    walks_items h rd prefix ((name, None) :: items) memo w
| walks_stop prefix name module items memo w1 e :
    walks h rd module memo (submodule_prefix prefix name) w1 →
    raised w1 = Some e →
    walks_items h rd prefix ((name, Some module) :: items) memo w1
| walks_next prefix name module items memo w1 w2 :
    walks h rd module memo (submodule_prefix prefix name) w1 →
    raised w1 = None →
    walks_items h rd prefix items (memo_of w1) w2 →
    walks_items h rd prefix ((name, Some module) :: items) memo
      (Walk (yielded w1 ++ yielded w2) (memo_of w2) (raised w2)).

Scheme walks_mut := Induction for walks Sort Prop
  with walks_items_mut := Induction for walks_items Sort Prop.
Combined Scheme walks_mutind from walks_mut, walks_items_mut.

(** [c] is registered as a child of [l]. *)
Definition child_of (h : gmap nat object) (l c : loc) : Prop :=
  ∃ items name, _operators h l = Ok items ∧ (name, Some c) ∈ items.

(** The operators the traversal can meet from [l]. *)
Definition reachable (h : gmap nat object) : loc → loc → Prop := rtc (child_of h).

(** Every operator that can be reached from [l] has its registry. *)
Definition registries_from (h : gmap nat object) (l : nat) : Prop :=
  ∀ x, reachable h l x → ∃ items, _operators h x = Ok items.

(** [l] is on a cycle of registrations. *)
Definition on_cycle (h : gmap nat object) (l : nat) : Prop := tc (child_of h) l l.

(** ** The traversal in the words of the specification

    A depth-first pre-order walk with an explicit stack of pending
    (path, node) pairs: the node on top is skipped if its instance has been
    yielded before, otherwise it is yielded and its children are pushed in
    registration order, each under the path of its parent, a dot unless that
    path is empty, and its registration name. *)
Definition dotted_path (parent name : string) : string :=
  if decide (parent = "") then name else parent ++ "." ++ name.

Fixpoint pending (path : string) (items : list (string * option loc)) : list (string * loc) :=
  match items with
  | [] => []
  | (name, None) :: items => pending path items
  | (name, Some c) :: items => (dotted_path path name, c) :: pending path items
  end.

Definition children_of (h : heap) (path : string) (node : loc) : list (string * loc) :=
  match _operators h node with
  | Ok items => pending path items
  | Raise _ => []
  end.

Fixpoint preorder_spec (fuel : nat) (h : heap) (stack : list (string * loc))
    (seen : gset nat) : option (list (string * loc)) :=
  match fuel with
  | O => None
  | S fuel =>
      match stack with
      | [] => Some []
      | (path, node) :: stack =>
          if decide (node ∈ seen) then preorder_spec fuel h stack seen
          else
            rest ← preorder_spec fuel h (children_of h path node ++ stack) ({[node]} ∪ seen);
            Some ((path, node) :: rest)
      end
  end.

(** [named_after_parent h out i name l]: before position [i] of [out] stands a
    node that registers [l], and [name] is the path of that node extended by
    the registration name. *)
Definition named_after_parent (h : gmap nat object) (out : list (string * loc))
    (i : nat) (name : string) (l : loc) : Prop :=
  ∃ j pname p k items,
    j < i ∧ out !! j = Some (pname, p) ∧
    _operators h p = Ok items ∧ (k, Some l) ∈ items ∧
    name = dotted_path pname k.

(** ** [Operator.inputs] and [Operator.__call__] *)

(** [Operator.forward], which subclasses override. *)
Definition Operator_forward : pyfun :=
  {| fn_args := ["self"];
     fn_body := λ _, Raise (NotImplementedError "User must implement forward()") |}.

(** [list.remove(x)]: drops the first occurrence, [ValueError] without one. *)
Fixpoint list_remove (x : string) (l : list string) : result (list string) :=
  match l with
  | [] => Raise (ValueError "list.remove(x): x not in list")
  | y :: l => if decide (x = y) then Ok l else (l' ← list_remove x l; Ok (y :: l'))
  end.

Section invocation.
(** The functions that [VFun] names. *)
Variable fenv : string → option pyfun.

(** [self.forward]: the instance attribute that [_register_forward] sets,
    else the method of the class, else [Operator.forward].  [None] is an
    attribute that is no function: a plain value, which
    [inspect.getfullargspec] rejects.  An operator stored under the name is
    a callable instance in Python; calls through it are not followed here,
    and the theorems below are about operators whose [forward] is a function
    or is not set. *)
Definition forward (h : heap) (self : loc) : option pyfun :=
  match __dict__ h self !! "forward" with
  | Some (VFun f) => fenv f
  | Some (VPartial f _) =>
      (* [ops] is bound by keyword, which leaves no positional parameter *)
      (λ fn, {| fn_args := []; fn_body := fn_body fn |}) <$> fenv f
  | Some _ => None
  | None =>
      match h !! self with
      | Some o => Some (default Operator_forward (cls_forward (ob_class o)))
      | None => Some Operator_forward
      end
  end.

(** [args = inspect.getfullargspec(self.forward).args; args.remove('self')] *)
Definition inputs (h : heap) (self : loc) : result (list string) :=
  match forward h self with
  | None => Raise (TypeError "unsupported callable")
  | Some fn => list_remove "self" (fn_args fn)
  end.

(** [for i, arg in enumerate(args): input_dict[self.inputs[i]] = arg] *)
Fixpoint bind_positional (inputs : list string) (i : nat) (args : list value)
    (input_dict : list (string * value)) : result (list (string * value)) :=
  match args with
  | [] => Ok input_dict
  | arg :: args =>
      match inputs !! i with
      | None => Raise (IndexError "list index out of range")
      | Some name => bind_positional inputs (S i) args (odict_set name arg input_dict)
      end
  end.

(** [self.inputs[key]] for a string [key]: [inputs] is a list, and a list
    takes no string as index. *)
Definition list_getitem_str (inputs : list string) (key : string) : result string :=
  Raise (TypeError "list indices must be integers or slices, not str").

(** [for key, value in kwargs.items(): input_dict[self.inputs[key]] = value] *)
Fixpoint bind_named (inputs : list string) (kwargs : list (string * value))
    (input_dict : list (string * value)) : result (list (string * value)) :=
  match kwargs with
  | [] => Ok input_dict
  | (key, v) :: kwargs =>
      name ← list_getitem_str inputs key;
      bind_named inputs kwargs (odict_set name v input_dict)
  end.

(** The part of [__call__] after the check of the number of arguments:
    build [input_dict], then [self.forward( **input_dict)]. *)
Definition bind_and_forward (h : heap) (self : loc) (inputs : list string)
    (args : list value) (kwargs : list (string * value)) : result value :=
  input_dict ← bind_positional inputs 0 args [];
  input_dict ← bind_named inputs kwargs input_dict;
  match forward h self with
  | None => Raise (TypeError "object is not callable")
  | Some fn => fn_body fn input_dict
  end.

Definition arity_message (inputs : list string) (len_inputs : nat) : string :=
  "Number of arguments (" ++ pretty (length inputs)
    ++ ") does not match number of inputs (" ++ pretty len_inputs ++ ")".

Definition __call__ (h : heap) (self : loc) (args : list value)
    (kwargs : list (string * value)) : result value :=
  dag ← is_dag h self;
  if negb dag then Raise (AssertionError "")
  else
    let _type_check_ := default (VBool true) (odict_get "_type_check_" kwargs) in
    let kwargs := odict_del "_type_check_" kwargs in
    inputs ← inputs h self;
    let len_inputs := (length args + length kwargs)%nat in
    if truthy _type_check_ && negb (Nat.eqb len_inputs (length inputs)) then
      Raise (ValueError (arity_message inputs len_inputs))
    else bind_and_forward h self inputs args kwargs.
End invocation.

(** ** The scheduler's records

    Airflow is not part of the repository; its tasks and DAGs are modelled by
    what the bridge reads from them and gives to them. *)

(** A task: [__class__.__name__], [task_id], the attribute [python_callable]
    when the class has one, the [task_id]s of
    [get_direct_relatives(upstream = True)], and the keyword arguments it was
    built from. *)
Record air_task : Type := AirTask {
  air_class : string;
  task_id : string;
  python_callable : option string;
  upstream : list string;
  air_kwargs : gmap string kwvalue
}.

(** A DAG: the tasks that iterating [dag.task_group] gives, and
    [dag.task_dict]. *)
Record air_dag : Type := AirDag {
  task_group : list air_task;
  task_dict : gmap string air_task
}.

(** [BaseOperator( **kwargs)]: a task of the base class, which has no
    callable and, when new, no relatives; [task_id] has to be a string. *)
Definition BaseOperator (kwargs : gmap string kwvalue) : result air_task :=
  match kwargs !! "task_id" with
  | Some (KStr s) =>
      Ok {| air_class := "BaseOperator"; task_id := s; python_callable := None;
            upstream := []; air_kwargs := kwargs |}
  | _ => Raise (TypeError "task_id")
  end.

(** ** Export: [to_airflow_operator] *)

Definition newline : string := String (Ascii.ascii_of_nat 10) "".

(** The keyword arguments that [to_airflow_operator] fixes in its call of
    [BaseOperator]. *)
Definition disabled_kwargs : gmap string kwvalue :=
  list_to_map
    [("email", KNone); ("email_on_retry", KBool false); ("email_on_failure", KBool false);
     ("doc", KNone); ("doc_md", KNone); ("doc_json", KNone); ("doc_yaml", KNone);
     ("on_execute_callback", KNone); ("on_failure_callback", KNone);
     ("on_success_callback", KNone); ("on_retry_callback", KNone)].

(** Lines 51 to 56: [doc if doc else ""] maps an absent and an empty text to
    the empty string. *)
Definition full_doc (cls : pyclass) : kwvalue :=
  let doc := default "" (cls_doc cls) in
  let init_doc := default "" (cls_init_doc cls) in
  let full_doc := doc ++ newline ++ init_doc in
  if decide (full_doc = "") then KNone else KStr full_doc.

Definition timedelta (timeout : option Z) : kwvalue :=
  match timeout with
  | Some s => KTimedelta s
  | None => KNone
  end.

(** No keyword is given twice in [f(k1 = v1, ..., **d)]. *)
Definition no_common_key (d e : gmap string kwvalue) : Prop := dom d ## dom e.

#[global] Instance no_common_key_dec d e : Decision (no_common_key d e).
Proof. unfold no_common_key. apply _. Defined.

(** [d.update(e)] is [e ∪ d]: the union of maps prefers its left operand. *)
Definition to_airflow_operator (operator : object) (timeout : option Z)
    (operator_kwargs : gmap string kwvalue) : result air_task :=
  let cls := ob_class operator in
  let operator_kwargs_dict : gmap string kwvalue :=
    <["task_id" := KStr (cls_name cls)]>
      (<["sla" := timedelta timeout]> (<["execution_timeout" := timedelta timeout]> ∅)) in
  let comms := default ∅ (cls_comms cls) in
  let operator_kwargs_dict := <["doc_rst" := full_doc cls]> operator_kwargs_dict in
  let operator_kwargs_dict := comms ∪ operator_kwargs_dict in
  let operator_kwargs_dict := operator_kwargs ∪ operator_kwargs_dict in
  if decide (no_common_key operator_kwargs_dict disabled_kwargs) then
    BaseOperator (operator_kwargs_dict ∪ disabled_kwargs)
  else Raise (TypeError "got multiple values for keyword argument").

(** ** Import: [from_airflow_operator] and [from_airflow_dag] *)

Definition lift {A : Type} (r : result A) : M A := λ h, (r, h).

(** Modelled from the spec: [Operator._register_forward], which the import
    calls and no file of the repository defines.  The specification has it
    bind the forward callable of the node, that is [self.forward = fn]; the
    assignment goes through [__setattr__]. *)
Definition _register_forward (self : loc) (fn : value) : M unit :=
  __setattr__ self "forward" fn.

(** [air_operator.python_callable] *)
Definition get_python_callable (air_operator : air_task) : M value :=
  match python_callable air_operator with
  | Some f => mret (VFun f)
  | None => throw (AttributeError "python_callable")
  end.

Definition from_airflow_operator (operator_cls : pyclass) (air_operator : air_task) : M loc :=
  if decide (air_class air_operator ≠ "PythonOperator") then
    op ← new operator_cls;
    fn ← get_python_callable air_operator;
    _register_forward op fn;;
    mret op
  else throw (AssertionError "Only PythonOperator is supported at the moment").

(** The first loop of [from_airflow_dag], which fills [topo_tree]. *)
Fixpoint topo_tree_of (task_group : list air_task) (topo_tree : list (string * list string)) :
    result (list (string * list string)) :=
  match task_group with
  | [] => Ok topo_tree
  | x :: task_group =>
      if decide (air_class x ≠ "PythonOperator") then
        Raise (Exception "Only PythonOperator is supported at the moment")
      else topo_tree_of task_group (odict_set (task_id x) (upstream x) topo_tree)
  end.

(** [d[k]] on a [dict] *)
Definition getitem {V : Type} (d : gmap string V) (k : string) : M V :=
  match d !! k with
  | Some v => mret v
  | None => throw (KeyError k)
  end.

(** [f"op__{p}__{child}"] *)
Definition op_name (p child : string) : string := "op__" ++ p ++ "__" ++ child.

Section import.
Variable operator_cls : pyclass.
Variable dag : air_dag.

(** [dag.task_dict[id].python_callable] *)
Definition task_callable (id : string) : M value :=
  t ← getitem (task_dict dag) id;
  get_python_callable t.

(** [if p not in all_ops: all_ops[p] = operator_cls()] *)
Definition operator_of_parent (p : string) (all_ops : gmap string nat) : M (gmap string nat) :=
  if decide (p ∉ dom all_ops) then
    l ← new operator_cls; mret (<[p := l]> all_ops)
  else mret all_ops.

(** The body of [for p in parents]. *)
Definition attach_to_parent (child : string) (all_ops : gmap string nat) (p : string) :
    M (gmap string nat) :=
  all_ops ← operator_of_parent p all_ops;
  lp ← getitem all_ops p;
  lc ← getitem all_ops child;
  __setattr__ lp (op_name p child) (VOp lc);;
  try_pass (lp ← getitem all_ops p;
            fn ← task_callable p;
            _register_forward lp fn);;
  mret all_ops.

(** [for p in parents: ...] *)
Fixpoint for_parents (child : string) (parents : list string)
    (all_ops : gmap string nat) : M (gmap string nat) :=
  match parents with
  | [] => mret all_ops
  | p :: parents =>
      all_ops ← attach_to_parent child all_ops p;
      for_parents child parents all_ops
  end.

(** [if child not in all_ops: ...] *)
Definition operator_of_task (child : string) (all_ops : gmap string nat) :
    M (gmap string nat) :=
  if decide (child ∉ dom all_ops) then
    l ← new operator_cls;
    fn ← task_callable child;
    _register_forward l fn;;
    mret (<[child := l]> all_ops)
  else mret all_ops.

(** [for child, parents in topo_tree.items(): ...] *)
Fixpoint for_topo_tree (topo_tree : list (string * list string))
    (all_ops : gmap string nat) (parent_less_ops : list string) :
    M (gmap string nat * list string) :=
  match topo_tree with
  | [] => mret (all_ops, parent_less_ops)
  | (child, parents) :: topo_tree =>
      all_ops ← operator_of_task child all_ops;
      all_ops ← for_parents child parents all_ops;
      for_topo_tree topo_tree all_ops
        (if parents is [] then parent_less_ops ++ [child] else parent_less_ops)
  end.

(** [for p in parent_less_ops: setattr(root, f"op__root__{p}", all_ops[p])] *)
Fixpoint for_parent_less (root : loc) (all_ops : gmap string nat)
    (parent_less_ops : list string) : M unit :=
  match parent_less_ops with
  | [] => mret ()
  | p :: parent_less_ops =>
      lp ← getitem all_ops p;
      __setattr__ root (op_name "root" p) (VOp lp);;
      for_parent_less root all_ops parent_less_ops
  end.

(** [from_airflow_dag], returning [all_ops] next to the root.  The forward
    of the root is [partial(sequential_forward, ops = root.operators())];
    the generator is not run by the import. *)
Definition from_airflow_dag_ops : M (loc * gmap string nat) :=
  topo_tree ← lift (topo_tree_of (task_group dag) []);
  root ← new operator_cls;
  '(all_ops, parent_less_ops) ← for_topo_tree topo_tree ∅ [];
  for_parent_less root all_ops parent_less_ops;;
  _register_forward root (VPartial "sequential_forward" root);;
  mret (root, all_ops).

Definition from_airflow_dag : M loc :=
  r ← from_airflow_dag_ops; mret r.1.
End import.

(** ** [Operator.__repr__]

    The printed form of an operator, after [torch.nn.Module]: the class name
    and, in brackets, one indented block for every child. *)

(** [s.split('\n')] *)
Fixpoint split_lines (s : string) : list string :=
  match s with
  | "" => [""]
  | String c s =>
      if decide (c = Ascii.ascii_of_nat 10) then "" :: split_lines s
      else match split_lines s with
           | [] => [String c ""]
           | line :: lines => String c line :: lines
           end
  end.

(** [numSpaces * ' '] *)
Fixpoint spaces (numSpaces : nat) : string :=
  match numSpaces with
  | O => ""
  | S n => String (Ascii.ascii_of_nat 32) (spaces n)
  end.

(** [_addindent], the local function of [__repr__]; ['\n'.join(s)] is
    [String.concat newline s]. *)
Definition _addindent (s_ : string) (numSpaces : nat) : string :=
  match split_lines s_ with
  | [] | [_] => s_
  | first :: s =>
      let s := (λ line, spaces numSpaces ++ line) <$> s in
      let s := String.concat newline s in
      first ++ newline ++ s
  end.

(** The loop of [__repr__] over [self._operators.items()], over the call
    [rec] of [repr] on an operator; [repr(None)] is ["None"]. *)
Fixpoint child_lines (rec : nat → option (result string))
    (items : list (string * option nat)) : option (result (list string)) :=
  match items with
  | [] => Some (Ok [])
  | (key, module) :: items =>
      match (match module with
             | Some l => rec l
             | None => Some (Ok "None")
             end) with
      | None => None
      | Some (Raise e) => Some (Raise e)
      | Some (Ok mod_str) =>
          let mod_str := _addindent mod_str 2 in
          match child_lines rec items with
          | None => None
          | Some (Raise e) => Some (Raise e)
          | Some (Ok lines) => Some (Ok (("(" ++ key ++ "): " ++ mod_str) :: lines))
          end
      end
  end.

(** The string that [__repr__] builds from the lines of the children;
    [extra_lines] is empty. *)
Definition main_str (name : string) (lines : list string) : string :=
  let main_str := name ++ "(" in
  let main_str :=
    match lines with
    | [] => main_str
    | _ => main_str ++ (newline ++ "  ") ++ String.concat (newline ++ "  ") lines ++ newline
    end in
  main_str ++ ")".

(** [Operator.__repr__]; [fuel] bounds the depth of the recursion, and
    [None] is a call that needs more. *)
Fixpoint __repr__ (fuel : nat) (h : gmap nat object) (self : nat) : option (result string) :=
  match fuel with
  | O => None
  | S fuel =>
      match _operators h self with
      | Raise e => Some (Raise e)
      | Ok items =>
          match child_lines (__repr__ fuel h) items with
          | None => None
          | Some (Raise e) => Some (Raise e)
          | Some (Ok lines) =>
              match h !! self with
              | Some o => Some (Ok (main_str (cls_name (ob_class o)) lines))
              | None => Some (Raise (AttributeError "__class__"))
              end
          end
      end
  end.

(** A string without a newline. *)
Fixpoint one_line (s : string) : Prop :=
  match s with
  | "" => True
  | String c s => c ≠ Ascii.ascii_of_nat 10 ∧ one_line s
  end.

(** The lines of a child in the lines of its parent: the first after the
    label, all of them two columns to the right. *)
Definition labelled (key : string) (lines : list string) : list string :=
  match lines with
  | [] => []
  | first :: rest => ("(" ++ key ++ "): " ++ first) :: rest
  end.

Definition indented (numSpaces : nat) (lines : list string) : list string :=
  (λ line, spaces numSpaces ++ line) <$> lines.

(** ** What the import leaves in the heap *)

(** [name] registers the operator at [lc] in the object with attributes [d]:
    the registry maps [name] to it and so does [__dict__]. *)
Definition attached_in (d : gmap string value) (name : string) (lc : nat) : Prop :=
  (∃ items, d !! "_operators" = Some (VODict items) ∧
            odict_get name items = Some (Some lc)) ∧
  d !! name = Some (VOp lc).

Definition attached (h : gmap nat object) (lp : nat) (name : string) (lc : nat) : Prop :=
  attached_in (__dict__ h lp) name lc.

(** An object on which [__setattr__] accepts any operator under a name that
    is neither [_operators] nor [forward]: it has its registry, and its other
    attributes are its children. *)
Definition node_ok (d : gmap string value) : Prop :=
  ∃ items, d !! "_operators" = Some (VODict items) ∧
    ∀ key, key ∈ dom d →
      key = "_operators" ∨ key = "forward" ∨ odict_mem key items = true.

(** What the loops of [from_airflow_dag] keep: [all_ops] maps task ids to
    distinct objects of the heap other than the root. *)
Record ops_inv (root : nat) (all_ops : gmap string nat) (h : gmap nat object) : Prop := {
  ops_root : root ∈ dom h;
  ops_dom : ∀ k l, all_ops !! k = Some l → l ≠ root ∧ l ∈ dom h;
  ops_inj : ∀ k1 k2 l, all_ops !! k1 = Some l → all_ops !! k2 = Some l → k1 = k2
}.

(** Every (parent, child) pair of [E] is attached. *)
Definition all_attached (E : list (string * string)) (all_ops : gmap string nat)
    (h : gmap nat object) : Prop :=
  ∀ p c, (p, c) ∈ E →
    ∃ lp lc, all_ops !! p = Some lp ∧ all_ops !! c = Some lc ∧
             attached h lp (op_name p c) lc.

(** Every operator of [all_ops] accepts children. *)
Definition all_ok (all_ops : gmap string nat) (h : gmap nat object) : Prop :=
  ∀ k l, all_ops !! k = Some l → node_ok (__dict__ h l).

(** The task [c] of the DAG has a callable. *)
Definition has_callable (dag : air_dag) (c : string) : Prop :=
  ∃ t f, task_dict dag !! c = Some t ∧ python_callable t = Some f.

(** The operator of every task that has a callable has it as [forward]. *)
Definition forwards_bound (dag : air_dag) (all_ops : gmap string nat)
    (h : gmap nat object) : Prop :=
  ∀ k l t f, all_ops !! k = Some l → task_dict dag !! k = Some t →
    python_callable t = Some f → __dict__ h l !! "forward" = Some (VFun f).

(** The (parent, child) pairs of a dependency table, and its tasks without
    parents, both in the order of the table. *)
Definition edges_of (topo_tree : list (string * list string)) : list (string * string) :=
  topo_tree ≫= λ cp, (λ p, (p, cp.1)) <$> cp.2.

Definition parent_less_of (topo_tree : list (string * list string)) : list string :=
  omap (λ cp, if cp.2 is [] then Some cp.1 else None) topo_tree.

(** The registry that the last loop of [from_airflow_dag] builds. *)
Definition root_registry (all_ops : gmap string nat) (parent_less_ops : list string)
    (items : list (string * option nat)) : list (string * option nat) :=
  foldl (λ items p, odict_set (op_name "root" p) (all_ops !! p) items) items parent_less_ops.

(** A DAG that the import accepts: every task of the group is a
    [PythonOperator], and [task_dict] has a task with a callable under its
    id. *)
Definition importable (dag : air_dag) : Prop :=
  ∀ t, t ∈ task_group dag →
    air_class t = "PythonOperator" ∧ has_callable dag (task_id t).

(** The two exceptions of [__setattr__], which the specification calls
    ownership errors. *)
Definition OwnershipError (e : exn) : Prop :=
  match e with
  | AttributeError _ | KeyError _ => True
  | _ => False
  end.

(** The owner was not constructed through [Operator.__init__]. *)
Definition uninitialized (h : gmap nat object) (owner : nat) : Prop :=
  __dict__ h owner !! "_operators" = None.

(** [key] is an attribute of the owner and not one of its children. *)
Definition non_child_attribute (h : gmap nat object) (owner : nat) (key : string) : Prop :=
  ∃ items, __dict__ h owner !! "_operators" = Some (VODict items) ∧
           key ∈ dom (__dict__ h owner) ∧ odict_get key items = None.

(** ** What the export is given

    The keyword arguments that reach [BaseOperator] next to those that the
    export computes: the caller's [operator_kwargs] over the result of
    [comms()].  The export computes [task_id] and [doc_rst] and fixes the
    disabled hooks. *)
Definition metadata (operator : object) (operator_kwargs : gmap string kwvalue) :
    gmap string kwvalue :=
  operator_kwargs ∪ default ∅ (cls_comms (ob_class operator)).

Definition reserved_kwargs : gset string :=
  {["task_id"; "doc_rst"]} ∪ dom disabled_kwargs.

(** The fields that the export computes. *)
Definition computed_kwargs (operator : object) (timeout : option Z) : gmap string kwvalue :=
  <["doc_rst" := full_doc (ob_class operator)]>
    (<["task_id" := KStr (cls_name (ob_class operator))]>
       (<["sla" := timedelta timeout]> (<["execution_timeout" := timedelta timeout]> ∅))).

(** ** Triples

    What a run keeps and how it ends, for the loops of the import. *)

(** [triple I m Q E]: run in a heap of [I], [m] leaves a heap of [I], with a
    result in [Q] or an exception in [E]. *)
Definition triple {A : Type} (I : gmap nat object → Prop) (m : M A) (Q : A → Prop)
    (E : exn → Prop) : Prop :=
  ∀ h, I h → I (m h).2 ∧ match (m h).1 with
                         | Ok a => Q a
                         | Raise e => E e
                         end.

(** The exceptions of a failed lookup or assignment. *)
Definition lookup_error (e : exn) : Prop :=
  match e with
  | AttributeError _ | KeyError _ | TypeError _ => True
  | _ => False
  end.

(** The objects of [h0] are in [h], as they were. *)
Definition kept (h0 h : gmap nat object) : Prop :=
  ∀ l o, h0 !! l = Some o → h !! l = Some o.

(** The operators of [all_ops] are outside [X]. *)
Definition outside (X : gset nat) (all_ops : gmap string nat) : Prop :=
  ∀ k l, all_ops !! k = Some l → l ∉ X.

(** ** Heaps of constructed operators

    [initialized h]: every object of [h] has its registry, and the registries
    hold operators of [h] only; the heaps that constructors and attribute
    assignments build are such. *)
Definition object_initialized (h : heap) (o : object) : bool :=
  match ob_dict o !! "_operators" with
  | Some (VODict items) =>
      forallb (λ kv, match kv.2 with
                     | Some c => bool_decide (c ∈ dom h)
                     | None => true
                     end) items
  | _ => false
  end.

Definition initialized (h : heap) : bool :=
  forallb (λ lo, object_initialized h lo.2) (map_to_list h).

(** ** Concrete operators

    Small heaps, built the way a user builds them: instances of a plain
    operator class, composed by attribute assignment. *)

Definition plain : pyclass :=
  {| cls_name := "Plain"; cls_doc := None; cls_init_doc := None;
     cls_base_init := true; cls_forward := None; cls_comms := None |}.

(** The heap that a construction leaves, started from no object at all. *)
Definition built {A : Type} (m : M A) : gmap nat object := (m ∅).2.

(** [root.a = Plain()] : locations 0 (root) and 1. *)
Definition one_child : gmap nat object :=
  built (root ← new plain; a ← new plain; __setattr__ root "a" (VOp a)).

(** [s.leaf = Plain(); root.x = s; root.y = s] : one instance under two
    names; locations 0 (root), 1 (s) and 2 (leaf). *)
Definition shared_child : gmap nat object :=
  built (root ← new plain; s ← new plain; leaf ← new plain;
         __setattr__ s "leaf" (VOp leaf);;
         __setattr__ root "x" (VOp s);;
         __setattr__ root "y" (VOp s)).

(** [a.b = b; b.a = a] : a cycle through locations 0 and 1. *)
Definition two_cycle : gmap nat object :=
  built (a ← new plain; b ← new plain;
         __setattr__ a "b" (VOp b);;
         __setattr__ b "a" (VOp a)).

(** [a.me = a] *)
Definition self_loop : gmap nat object :=
  built (a ← new plain; __setattr__ a "me" (VOp a)).

(** A child registered under the name ["root"], the label that [is_dag]
    gives to the root itself. *)
Definition child_named_root : gmap nat object :=
  built (root ← new plain; c ← new plain; __setattr__ root "root" (VOp c)).

(** A class with a documented body and constructor. *)
Definition documented : pyclass :=
  {| cls_name := "Documented"; cls_doc := Some "A"; cls_init_doc := Some "B";
     cls_base_init := true; cls_forward := None; cls_comms := None |}.

(** A class whose [__init__] does not run [Operator.__init__]. *)
Definition bare : pyclass :=
  {| cls_name := "Bare"; cls_doc := None; cls_init_doc := None;
     cls_base_init := false; cls_forward := None; cls_comms := None |}.

(** [def forward(self, a, b, c): return a + b + c] *)
Definition abc_forward : pyfun :=
  {| fn_args := ["self"; "a"; "b"; "c"];
     fn_body := λ input_dict,
       match odict_get "a" input_dict, odict_get "b" input_dict,
             odict_get "c" input_dict with
       | Some (VInt a), Some (VInt b), Some (VInt c) => Ok (VInt (a + b + c))
       | _, _, _ => Raise (TypeError "forward() missing required arguments")
       end |}.

Definition abc : pyclass :=
  {| cls_name := "Abc"; cls_doc := None; cls_init_doc := None;
     cls_base_init := true; cls_forward := Some abc_forward; cls_comms := None |}.

(** One instance of [abc], at location 0. *)
Definition abc_node : gmap nat object := built (new abc).

(** No function is named. *)
Definition no_functions : string → option pyfun := λ _, None.

(** An owner that skipped [Operator.__init__] (location 0) and an operator
    (location 1). *)
Definition bare_owner : gmap nat object :=
  built (owner ← new bare; new plain).

(** [owner.n = 5], then an operator to assign (location 1). *)
Definition owner_with_attribute : gmap nat object :=
  built (owner ← new plain; __setattr__ owner "n" (VInt 5);; new plain).

(** A task of the supported kind. *)
Definition python_task (id f : string) (upstream : list string) : air_task :=
  {| air_class := "PythonOperator"; task_id := id; python_callable := Some f;
     upstream := upstream; air_kwargs := ∅ |}.

(** A task of a subclass of the supported kind. *)
Definition branch_task (id f : string) : air_task :=
  {| air_class := "BranchPythonOperator"; task_id := id; python_callable := Some f;
     upstream := []; air_kwargs := ∅ |}.

(** The DAG of one task. *)
Definition single_dag (t : air_task) : air_dag :=
  {| task_group := [t]; task_dict := {[ task_id t := t ]} |}.

(** [{A: upstream=[], B: upstream=[A], C: upstream=[A]}] *)
Definition dag_ABC : air_dag :=
  let A := python_task "A" "fA" [] in
  let B := python_task "B" "fB" ["A"] in
  let C := python_task "C" "fC" ["A"] in
  {| task_group := [A; B; C];
     task_dict := list_to_map [("A", A); ("B", B); ("C", C)] |}.

(** A diamond: [D] has the two parents [B] and [C]. *)
Definition dag_diamond : air_dag :=
  let A := python_task "A" "fA" [] in
  let B := python_task "B" "fB" ["A"] in
  let C := python_task "C" "fC" ["A"] in
  let D := python_task "D" "fD" ["B"; "C"] in
  {| task_group := [A; B; C; D];
     task_dict := list_to_map [("A", A); ("B", B); ("C", C); ("D", D)] |}.

(** [root.a = c; root.a = 5], then an operator to assign (location 2): the
    attribute [a] holds a plain value, and the registry still holds [c]. *)
Definition stale_child : gmap nat object :=
  built (root ← new plain; c ← new plain;
         __setattr__ root "a" (VOp c);;
         __setattr__ root "a" (VInt 5);;
         new plain).

(** An instance of [abc], whose class defines [forward] (location 0), and
    an operator to assign (location 1). *)
Definition abc_owner : gmap nat object :=
  built (owner ← new abc; new plain).

(** [op.forward = f] on a new operator, for a function [f(x)]. *)
Definition with_function : gmap nat object :=
  built (op ← new plain; _register_forward op (VFun "f")).

Definition one_function : string → option pyfun := λ f,
  if decide (f = "f") then Some {| fn_args := ["x"]; fn_body := λ _, Ok VNone |} else None.

(** A DAG whose [task_dict] misses its only task. *)
Definition dag_without_dict : air_dag :=
  {| task_group := [python_task "A" "fA" []]; task_dict := ∅ |}.

(** * Facts about the traversal *)

(** The path of the specification is the prefix of the source. *)
Lemma dotted_path_submodule_prefix parent name :
  dotted_path parent name = submodule_prefix parent name.
Proof. unfold dotted_path, submodule_prefix. case_decide; [by subst|done]. Qed.

Section walk_facts.
Context (h : gmap nat object) (rd : bool).

(** The loop over the children, when the recursive call is sound. *)
Lemma walk_items_walks rec :
  (∀ m memo p w, rec m memo p = Some w → walks h rd m memo p w) →
  ∀ items prefix memo w,
    walk_items rec prefix items memo = Some w →
    walks_items h rd prefix items memo w.
Proof.
  intros Hrec items prefix.
  induction items as [|[name [module|]] items IH]; intros memo w Hw; simpl in Hw.
  - injection Hw as <-. constructor.
  - destruct (rec module memo (submodule_prefix prefix name)) as [w1|] eqn:H1;
      simpl in Hw; [|done].
    destruct (raised w1) as [e|] eqn:He.
    + injection Hw as <-. eapply walks_stop; eauto.
    + destruct (walk_items rec prefix items (memo_of w1)) as [w2|] eqn:H2;
        simpl in Hw; [|done].
      injection Hw as <-. eapply walks_next; eauto.
  - constructor. by apply IH.
Qed.

(** A run of the function is a run of the relation. *)
Lemma named_operators_walks fuel self memo prefix w :
  named_operators fuel h self memo prefix rd = Some w →
  walks h rd self memo prefix w.
Proof.
  revert self memo prefix w.
  induction fuel as [|fuel IH]; intros self memo prefix w Hw; simpl in Hw; [done|].
  case_decide as Hin.
  - injection Hw as <-. by constructor.
  - destruct (_operators h self) as [items|e] eqn:Hops.
    + match type of Hw with
      | context [walk_items ?r ?p ?i ?m] =>
          destruct (walk_items r p i m) as [w'|] eqn:Hit
      end; simpl in Hw; [|done].
      injection Hw as <-. eapply walks_node; [done..|].
      eapply walk_items_walks; [|done]. intros ????. apply IH.
    + injection Hw as <-. by constructor.
Qed.

(** The memo only grows. *)
Lemma walks_memo_mono :
  (∀ self memo prefix w, walks h rd self memo prefix w → memo ⊆ memo_of w) ∧
  (∀ prefix items memo w, walks_items h rd prefix items memo w → memo ⊆ memo_of w).
Proof.
  apply walks_mutind; simpl; intros; try done.
  - destruct rd; set_solver.
  - destruct rd; set_solver.
  - set_solver.
Qed.

(** Whatever is yielded can be reached through registered children. *)
Lemma walks_yielded_reachable :
  (∀ self memo prefix w, walks h rd self memo prefix w →
     ∀ l, l ∈ (yielded w).*2 → reachable h self l) ∧
  (∀ prefix items memo w, walks_items h rd prefix items memo w →
     ∀ l, l ∈ (yielded w).*2 →
       ∃ name c, (name, Some c) ∈ items ∧ reachable h c l).
Proof.
  apply walks_mutind; simpl.
  - intros ???? l Hl. by apply elem_of_nil in Hl.
  - intros ?????? l Hl. apply list_elem_of_singleton in Hl as ->. apply rtc_refl.
  - intros self memo prefix items w ? Hops _ IH l Hl.
    apply elem_of_cons in Hl as [->|Hl]; [apply rtc_refl|].
    destruct (IH l Hl) as (name & c & Hin & Hr).
    eapply rtc_l; [|done]. by exists items, name.
  - intros ?? l Hl. by apply elem_of_nil in Hl.
  - intros prefix name items memo w _ IH l Hl.
    destruct (IH l Hl) as (n & c & Hin & Hr). exists n, c. split; [|done].
    by apply elem_of_cons; right.
  - intros prefix name module items memo w1 e _ IH _ l Hl.
    exists name, module. split; [apply elem_of_cons; by left|by apply IH].
  - intros prefix name module items memo w1 w2 _ IH1 _ _ IH2 l Hl.
    rewrite fmap_app in Hl. apply elem_of_app in Hl as [Hl|Hl].
    + exists name, module. split; [apply elem_of_cons; by left|by apply IH1].
    + destruct (IH2 l Hl) as (n & c & Hin & Hr). exists n, c. split; [|done].
      by apply elem_of_cons; right.
Qed.

(** The exception of a run comes from the registry of a yielded node. *)
Lemma walks_raised :
  (∀ self memo prefix w, walks h rd self memo prefix w →
     ∀ e, raised w = Some e → ∃ l, l ∈ (yielded w).*2 ∧ _operators h l = Raise e) ∧
  (∀ prefix items memo w, walks_items h rd prefix items memo w →
     ∀ e, raised w = Some e → ∃ l, l ∈ (yielded w).*2 ∧ _operators h l = Raise e).
Proof.
  apply walks_mutind; simpl; try done.
  - intros self memo prefix e _ Hops e' [= <-]. exists self. split; [|done].
    apply list_elem_of_singleton; done.
  - intros self memo prefix items w _ _ _ IH e He.
    destruct (IH e He) as (l & Hl & Hr). exists l. split; [|done].
    by apply elem_of_cons; right.
  - intros prefix name module items memo w1 w2 _ _ _ _ IH2 e He.
    destruct (IH2 e He) as (l & Hl & Hr). exists l. split; [|done].
    rewrite fmap_app. apply elem_of_app. by right.
Qed.
End walk_facts.

Section dedup_facts.
Context (h : gmap nat object).

(** With [remove_duplicate], the memo grows by exactly the yielded nodes. *)
Lemma walks_memo_yielded :
  (∀ self memo prefix w, walks h true self memo prefix w →
     memo_of w = memo ∪ list_to_set (yielded w).*2) ∧
  (∀ prefix items memo w, walks_items h true prefix items memo w →
     memo_of w = memo ∪ list_to_set (yielded w).*2).
Proof.
  apply walks_mutind; simpl.
  - intros. set_solver.
  - intros. set_solver.
  - intros self memo prefix items w _ _ _ ->. set_solver.
  - intros. set_solver.
  - done.
  - done.
  - intros prefix name module items memo w1 w2 _ IH1 _ _ ->.
    rewrite IH1, fmap_app, list_to_set_app_L. set_solver.
Qed.

(** No instance is yielded twice, and none that the memo held. *)
Lemma walks_NoDup :
  (∀ self memo prefix w, walks h true self memo prefix w →
     NoDup (yielded w).*2 ∧ ∀ l, l ∈ (yielded w).*2 → l ∉ memo) ∧
  (∀ prefix items memo w, walks_items h true prefix items memo w →
     NoDup (yielded w).*2 ∧ ∀ l, l ∈ (yielded w).*2 → l ∉ memo).
Proof.
  apply walks_mutind; simpl.
  - intros. split; [constructor|]. intros l Hl. by apply elem_of_nil in Hl.
  - intros self memo prefix e Hin _. split.
    + apply NoDup_singleton.
    + intros l Hl. by apply list_elem_of_singleton in Hl as ->.
  - intros self memo prefix items w Hin _ _ [Hnd Hfresh]. split.
    + constructor; [|done]. intros Hl. apply Hfresh in Hl. set_solver.
    + intros l Hl. apply elem_of_cons in Hl as [->|Hl]; [done|].
      apply Hfresh in Hl. set_solver.
  - intros. split; [constructor|]. intros l Hl. by apply elem_of_nil in Hl.
  - done.
  - done.
  - intros prefix name module items memo w1 w2 Hw1 [Hnd1 Hf1] _ Hw2 [Hnd2 Hf2].
    pose proof (proj1 walks_memo_yielded _ _ _ _ Hw1) as Hm.
    rewrite fmap_app. split.
    + apply NoDup_app. split_and!; [done| |done].
      intros l Hl1 Hl2. apply Hf2 in Hl2. apply Hl2. rewrite Hm.
      apply elem_of_union_r. by apply elem_of_list_to_set.
    + intros l Hl. apply elem_of_app in Hl as [Hl|Hl]; [by apply Hf1|].
      apply Hf2 in Hl. rewrite Hm in Hl. set_solver.
Qed.

(** After a run that no exception stopped, every node that the run added
    to the memo has all its registered children in the memo. *)
Lemma walks_closed :
  (∀ self memo prefix w, walks h true self memo prefix w →
     raised w = None →
     self ∈ memo_of w ∧
     ∀ l, l ∈ memo_of w → l ∈ memo ∨ ∀ c, child_of h l c → c ∈ memo_of w) ∧
  (∀ prefix items memo w, walks_items h true prefix items memo w →
     raised w = None →
     (∀ name c, (name, Some c) ∈ items → c ∈ memo_of w) ∧
     ∀ l, l ∈ memo_of w → l ∈ memo ∨ ∀ c, child_of h l c → c ∈ memo_of w).
Proof.
  apply walks_mutind; simpl.
  - intros self memo prefix Hin _. split; [done|]. intros l Hl. by left.
  - done.
  - intros self memo prefix items w Hin Hops Hw IH Hr.
    destruct (IH Hr) as [Hkids Hcl].
    pose proof (proj2 (walks_memo_mono h true) _ _ _ _ Hw) as Hmono.
    split; [set_solver|].
    intros l Hl. destruct (Hcl l Hl) as [Hm|Hc]; [|by right].
    apply elem_of_union in Hm as [Hs|Hm]; [|by left].
    apply elem_of_singleton in Hs as ->. right.
    intros c (items' & name & Hops' & Hc).
    rewrite Hops in Hops'. injection Hops' as <-. by eapply Hkids.
  - intros prefix memo _. split.
    + intros name c Hc. by apply elem_of_nil in Hc.
    + intros l Hl. by left.
  - intros prefix name items memo w _ IH Hr.
    destruct (IH Hr) as [Hkids Hcl]. split; [|done].
    intros n c Hc. apply elem_of_cons in Hc as [[=]|Hc]. by eapply Hkids.
  - intros prefix name module items memo w1 e _ _ He Hr. congruence.
  - intros prefix name module items memo w1 w2 Hw1 IH1 Hr1 Hw2 IH2 Hr2.
    destruct (IH1 Hr1) as [Hself Hcl1]. destruct (IH2 Hr2) as [Hkids Hcl2].
    pose proof (proj2 (walks_memo_mono h true) _ _ _ _ Hw2) as Hmono.
    split.
    + intros n c Hc. apply elem_of_cons in Hc as [[= -> ->]|Hc]; [set_solver|].
      by eapply Hkids.
    + intros l Hl. destruct (Hcl2 l Hl) as [Hm|Hc]; [|by right].
      destruct (Hcl1 l Hm) as [?|Hc]; [by left|]. right.
      intros c Hlc. apply Hmono. by apply Hc.
Qed.

(** The run agrees with the stack-based pre-order walk of the
    specification, whatever is left on the stack. *)
Lemma walks_preorder_spec :
  (∀ self memo prefix w, walks h true self memo prefix w →
     raised w = None →
     ∀ fuel stack out,
       preorder_spec fuel h stack (memo_of w) = Some out →
       ∃ fuel', preorder_spec fuel' h ((prefix, self) :: stack) memo
                = Some (yielded w ++ out)%list) ∧
  (∀ prefix items memo w, walks_items h true prefix items memo w →
     raised w = None →
     ∀ fuel stack out,
       preorder_spec fuel h stack (memo_of w) = Some out →
       ∃ fuel', preorder_spec fuel' h (pending prefix items ++ stack)%list memo
                = Some (yielded w ++ out)%list).
Proof.
  apply walks_mutind; simpl.
  - intros self memo prefix Hin _ fuel stack out Hout.
    exists (S fuel). simpl. by rewrite decide_True.
  - done.
  - intros self memo prefix items w Hin Hops _ IH Hr fuel stack out Hout.
    destruct (IH Hr fuel stack out Hout) as [fuel' Hf].
    exists (S fuel'). simpl. rewrite decide_False by done.
    unfold children_of. rewrite Hops, Hf. done.
  - intros prefix memo _ fuel stack out Hout. by exists fuel.
  - intros prefix name items memo w _ IH Hr. by apply IH.
  - intros prefix name module items memo w1 e _ _ He Hr. congruence.
  - intros prefix name module items memo w1 w2 _ IH1 Hr1 _ IH2 Hr2 fuel stack out Hout.
    destruct (IH2 Hr2 fuel stack out Hout) as [fuel2 Hf2].
    destruct (IH1 Hr1 fuel2 _ _ Hf2) as [fuel1 Hf1].
    exists fuel1. rewrite dotted_path_submodule_prefix, <-(assoc_L (++)). done.
Qed.

(** A node outside the memo that has a registry is an object of the heap. *)
Lemma _operators_dom self items : _operators h self = Ok items → self ∈ dom h.
Proof.
  unfold _operators, __dict__. intros Hops. apply elem_of_dom.
  destruct (h !! self); [done|]. by rewrite lookup_empty in Hops.
Qed.

(** The loop over the children returns when the recursive call does. *)
Lemma walk_items_total rec memo0 :
  (∀ m memo p, memo0 ⊆ memo → ∃ w, rec m memo p = Some w ∧ memo ⊆ memo_of w) →
  ∀ items prefix memo, memo0 ⊆ memo → is_Some (walk_items rec prefix items memo).
Proof.
  intros Hrec items prefix.
  induction items as [|[name [module|]] items IH]; intros memo Hsub; simpl.
  - done.
  - destruct (Hrec module memo (submodule_prefix prefix name) Hsub) as (w1 & -> & Hm).
    simpl. destruct (raised w1); [done|].
    destruct (IH (memo_of w1)) as [w2 ->]; [set_solver|]. done.
  - by apply IH.
Qed.

(** With [remove_duplicate] the recursion is no deeper than the number of
    objects of the heap that the memo does not hold yet, plus one. *)
Lemma named_operators_total fuel self memo prefix :
  size (dom h ∖ memo) < fuel →
  is_Some (named_operators fuel h self memo prefix true).
Proof.
  revert self memo prefix.
  induction fuel as [|fuel IH]; intros self memo prefix Hsz; [lia|]. simpl.
  case_decide as Hin; [done|].
  destruct (_operators h self) as [items|e] eqn:Hops; [|done].
  apply _operators_dom in Hops.
  assert (size (dom h ∖ ({[self]} ∪ memo)) < size (dom h ∖ memo)) as Hlt.
  { apply subset_size. set_solver. }
  match goal with
  | |- context [walk_items ?r ?p ?i ?m] =>
      destruct (walk_items_total r m) with (items := i) (prefix := p) (memo := m)
        as [w Hw]
  end; [|done|by rewrite Hw].
  intros m memo' p Hsub.
  destruct (IH m memo' p) as [w Hw].
  { assert (size (dom h ∖ memo') ≤ size (dom h ∖ ({[self]} ∪ memo)))%nat; [|lia].
    apply subseteq_size. set_solver. }
  exists w. split; [done|].
  by eapply (proj1 (walks_memo_mono h true)), named_operators_walks.
Qed.
End dedup_facts.

(** ** Independence of the fuel *)

(** A recursive call that returns more makes the loop return more. *)
Lemma walk_items_mono (rec1 rec2 : nat → gset nat → string → option walk) :
  (∀ m memo p w, rec1 m memo p = Some w → rec2 m memo p = Some w) →
  ∀ items prefix memo w,
    walk_items rec1 prefix items memo = Some w →
    walk_items rec2 prefix items memo = Some w.
Proof.
  intros Hrec items prefix.
  induction items as [|[name [module|]] items IH]; intros memo w Hw; simpl in *.
  - done.
  - destruct (rec1 module memo (submodule_prefix prefix name)) as [w1|] eqn:H1;
      simpl in Hw; [|done].
    rewrite (Hrec _ _ _ _ H1). simpl. destruct (raised w1); [done|].
    destruct (walk_items rec1 prefix items (memo_of w1)) as [w2|] eqn:H2;
      simpl in Hw; [|done].
    by rewrite (IH _ _ H2).
  - by apply IH.
Qed.

(** More fuel does not change a run. *)
Lemma named_operators_fuel_S fuel h self memo prefix rd w :
  named_operators fuel h self memo prefix rd = Some w →
  named_operators (S fuel) h self memo prefix rd = Some w.
Proof.
  revert self memo prefix w.
  induction fuel as [|fuel IH]; intros self memo prefix w Hw; [done|].
  simpl in Hw. cbn [named_operators]. case_decide; [done|].
  destruct (_operators h self) as [items|e]; [|done].
  match type of Hw with
  | context [walk_items ?r ?p ?i ?m] =>
      destruct (walk_items r p i m) as [w'|] eqn:Hit
  end; simpl in Hw; [|done].
  erewrite walk_items_mono; [exact Hw| |exact Hit].
  intros ????. apply IH.
Qed.

Lemma named_operators_fuel_le fuel fuel' h self memo prefix rd w :
  fuel ≤ fuel' →
  named_operators fuel h self memo prefix rd = Some w →
  named_operators fuel' h self memo prefix rd = Some w.
Proof.
  induction 1 as [|fuel' _ IH]; [done|].
  intros Hw. by apply named_operators_fuel_S, IH.
Qed.

(** All the fuels that are enough give the same run. *)
Lemma named_operators_dedup_run h self memo prefix :
  ∃ w, ∀ fuel, size (dom h ∖ memo) < fuel →
    named_operators fuel h self memo prefix true = Some w.
Proof.
  destruct (named_operators_total h (S (size (dom h ∖ memo))) self memo prefix)
    as [w Hw]; [lia|].
  exists w. intros fuel Hf.
  eapply named_operators_fuel_le; [|exact Hw]. lia.
Qed.

(** ** Parents come first *)

(** [named_after_parent] in a longer output. *)
Lemma named_after_parent_app_l h out1 out2 i name l :
  named_after_parent h out1 i name l →
  named_after_parent h (out1 ++ out2) i name l.
Proof.
  intros (j & pname & p & k & items & ? & Hj & ?).
  exists j, pname, p, k, items. split; [done|].
  split; [|done]. by apply lookup_app_l_Some.
Qed.

Lemma named_after_parent_app_r h out1 out2 i name l :
  named_after_parent h out2 i name l →
  named_after_parent h (out1 ++ out2) (length out1 + i) name l.
Proof.
  intros (j & pname & p & k & items & ? & Hj & ?).
  exists (length out1 + j), pname, p, k, items. split; [lia|].
  split; [|done]. by rewrite lookup_app_r, Nat.add_comm, Nat.add_sub by lia.
Qed.

(** Every yielded pair but the first comes after the pair of a node that
    registers it, and is named after it. *)
Lemma walks_parent_first h rd :
  (∀ self memo prefix w, walks h rd self memo prefix w →
     ∀ i name l, yielded w !! i = Some (name, l) →
       (i = 0 ∧ name = prefix ∧ l = self) ∨ named_after_parent h (yielded w) i name l) ∧
  (∀ prefix items memo w, walks_items h rd prefix items memo w →
     ∀ i name l, yielded w !! i = Some (name, l) →
       (∃ k, (k, Some l) ∈ items ∧ name = dotted_path prefix k) ∨
       named_after_parent h (yielded w) i name l).
Proof.
  apply walks_mutind; simpl.
  - done.
  - intros self memo prefix e _ _ [|i] name l Hi; [|done].
    injection Hi as <- <-. by left.
  - intros self memo prefix items w _ Hops _ IH [|i] name l Hi.
    { injection Hi as <- <-. by left. }
    right. destruct (IH i name l Hi) as [(k & Hk & ->)|Hp].
    + exists 0, prefix, self, k, items. split; [lia|]. done.
    + by apply (named_after_parent_app_r h [(prefix, self)]) in Hp.
  - done.
  - intros prefix name items memo w _ IH i n l Hi.
    destruct (IH i n l Hi) as [(k & Hk & ->)|Hp]; [left|by right].
    exists k. split; [|done]. by apply elem_of_cons; right.
  - intros prefix name module items memo w1 e _ IH _ i n l Hi.
    destruct (IH i n l Hi) as [(-> & -> & ->)|Hp]; [left|by right].
    exists name. split; [apply elem_of_cons; by left|].
    apply eq_sym, dotted_path_submodule_prefix.
  - intros prefix name module items memo w1 w2 _ IH1 _ _ IH2 i n l Hi.
    apply lookup_app_Some in Hi as [Hi|[Hlen Hi]].
    + destruct (IH1 i n l Hi) as [(-> & -> & ->)|Hp].
      * left. exists name. split; [apply elem_of_cons; by left|].
        apply eq_sym, dotted_path_submodule_prefix.
      * right. by apply named_after_parent_app_l.
    + destruct (IH2 _ n l Hi) as [(k & Hk & ->)|Hp].
      * left. exists k. split; [|done]. by apply elem_of_cons; right.
      * right. apply (named_after_parent_app_r h (yielded w1)) in Hp.
        by replace (length (yielded w1) + (i - length (yielded w1))) with i in Hp by lia.
Qed.

(** ** The loop of [is_dag] *)

(** [False] is returned exactly when a label repeats, or is in [graph]
    already. *)
Lemma is_dag_loop_false items stop graph :
  is_dag_loop items stop graph = Ok false ↔
  ¬ NoDup (root_form <$> items.*1) ∨
  ∃ x, x ∈ root_form <$> items.*1 ∧ x ∈ graph.
Proof.
  revert graph. induction items as [|[name op] items IH]; intros graph; simpl.
  - split.
    + by destruct stop.
    + intros [Hnd|(x & Hx & _)]; [destruct Hnd; constructor|by apply elem_of_nil in Hx].
  - case_decide as Hin.
    + split; [|done]. intros _. right. exists (root_form name).
      split; [apply elem_of_cons; by left|done].
    + rewrite IH, NoDup_cons. split.
      * intros [Hnd|(x & Hx & Hg)]; [left; tauto|].
        apply elem_of_union in Hg as [->%elem_of_singleton|Hg]; [left; tauto|].
        right. exists x. split; [apply elem_of_cons; by right|done].
      * intros [Hnd|(x & Hx & Hg)].
        -- destruct (decide (root_form name ∈ root_form <$> items.*1)) as [Hd|Hd].
           ++ right. exists (root_form name). set_solver.
           ++ left. tauto.
        -- apply elem_of_cons in Hx as [->|Hx]; [done|].
           right. exists x. set_solver.
Qed.

(** [True] is returned exactly when no label repeats, none is in [graph] and
    the generator raised nothing. *)
Lemma is_dag_loop_true items stop graph :
  is_dag_loop items stop graph = Ok true ↔
  stop = None ∧ NoDup (root_form <$> items.*1) ∧
  ∀ x, x ∈ root_form <$> items.*1 → x ∉ graph.
Proof.
  revert graph. induction items as [|[name op] items IH]; intros graph; simpl.
  - split.
    + destruct stop; [done|]. intros _. split_and!; [done|constructor|].
      intros x Hx. by apply elem_of_nil in Hx.
    + by intros [-> _].
  - case_decide as Hin.
    + split; [done|]. intros (_ & _ & Hg). destruct (Hg (root_form name)); [|done].
      apply elem_of_cons; by left.
    + rewrite IH, NoDup_cons. split.
      * intros (-> & Hnd & Hg). split_and!; [done| |done|].
        -- intros Hd. apply Hg in Hd. set_solver.
        -- intros x Hx. apply elem_of_cons in Hx as [->|Hx]; [done|].
           apply Hg in Hx. set_solver.
      * intros (-> & [Hd Hnd] & Hg). split_and!; [done..|].
        intros x Hx. apply not_elem_of_union. split.
        -- intros ->%elem_of_singleton. done.
        -- apply Hg, elem_of_cons. by right.
Qed.

(** ** Initialized heaps *)

(** The check of [initialized], object by object. *)
Lemma initialized_lookup h l o :
  initialized h = true → h !! l = Some o → object_initialized h o = true.
Proof.
  unfold initialized. rewrite forallb_forall. intros Hall Hl.
  apply (Hall (l, o)), list_elem_of_In, elem_of_map_to_list. done.
Qed.

(** In an initialized heap every operator that can be reached has its
    registry. *)
Lemma initialized_reachable h root :
  initialized h = true → root ∈ dom h →
  ∀ l, reachable h root l → ∃ items, _operators h l = Ok items.
Proof.
  intros Hinit Hroot l Hl.
  assert (l ∈ dom h) as Hdom.
  { induction Hl as [x|x y z Hxy _ IH]; [done|]. apply IH.
    destruct Hxy as (items & name & Hops & Hin).
    apply elem_of_dom in Hroot as [o Ho].
    pose proof (initialized_lookup _ _ _ Hinit Ho) as Hok.
    unfold _operators, __dict__ in Hops. rewrite Ho in Hops.
    unfold object_initialized in Hok.
    destruct (ob_dict o !! "_operators") as [[]|]; try done.
    injection Hops as ->. rewrite forallb_forall in Hok.
    apply list_elem_of_In, Hok in Hin. simpl in Hin. by apply bool_decide_eq_true_1 in Hin. }
  apply elem_of_dom in Hdom as [o Ho].
  pose proof (initialized_lookup _ _ _ Hinit Ho) as Hok.
  unfold _operators, __dict__. rewrite Ho.
  unfold object_initialized in Hok.
  destruct (ob_dict o !! "_operators") as [[]|]; try done. by eexists.
Qed.

(** ** The registries are all that the traversal reads *)

(** The traversal reads the heap through the registries only. *)
Lemma walk_items_ext (rec1 rec2 : nat → gset nat → string → option walk) prefix items :
  (∀ module memo prefix, rec1 module memo prefix = rec2 module memo prefix) →
  ∀ memo, walk_items rec1 prefix items memo = walk_items rec2 prefix items memo.
Proof.
  intros Hrec. induction items as [|[name [module|]] items IH]; intros memo; simpl; [done| |done].
  rewrite Hrec. destruct (rec2 module memo (submodule_prefix prefix name)) as [w1|]; [|done].
  simpl. destruct (raised w1); [done|]. by rewrite IH.
Qed.

Lemma named_operators_ext (h h' : gmap nat object) :
  (∀ l, _operators h' l = _operators h l) →
  ∀ fuel self memo prefix rd,
    named_operators fuel h' self memo prefix rd = named_operators fuel h self memo prefix rd.
Proof.
  intros Hreg. induction fuel as [|fuel IH]; intros self memo prefix rd; [done|].
  simpl. destruct (decide (self ∈ memo)); [done|]. rewrite Hreg.
  destruct (_operators h self) as [items|e]; [|done].
  by rewrite (walk_items_ext _ (λ module memo prefix,
                 named_operators fuel h module memo prefix rd)).
Qed.

(** ** The prefix *)

(** Appending strings. *)
Lemma string_app_assoc (a b c : string) : a ++ (b ++ c) = (a ++ b) ++ c.
Proof.
  induction a as [|x a IH]; [done|].
  change (String x (a ++ (b ++ c)) = String x ((a ++ b) ++ c)). by rewrite IH.
Qed.

Lemma string_app_nil_r (a : string) : a ++ "" = a.
Proof.
  induction a as [|x a IH]; [done|]. change (String x (a ++ "") = String x a). by rewrite IH.
Qed.

(** Two prefixes give the same run, names apart. *)
Lemma walk_items_unnamed (rec1 rec2 : nat → gset nat → string → option walk) :
  (∀ module memo p1 p2, unnamed <$> rec1 module memo p1 = unnamed <$> rec2 module memo p2) →
  ∀ items p1 p2 memo,
    unnamed <$> walk_items rec1 p1 items memo = unnamed <$> walk_items rec2 p2 items memo.
Proof.
  intros Hrec items p1 p2.
  induction items as [|[name [module|]] items IH]; intros memo; simpl; [done| |apply IH].
  pose proof (Hrec module memo (submodule_prefix p1 name) (submodule_prefix p2 name)) as H1.
  destruct (rec1 module memo _) as [w1|], (rec2 module memo _) as [w1'|]; simpl in *;
    try done.
  injection H1 as Hy Hm Hr. rewrite Hr.
  destruct (raised w1') as [e|] eqn:Hr'.
  - simpl. unfold unnamed. f_equal. congruence.
  - rewrite Hm. specialize (IH (memo_of w1')).
    destruct (walk_items rec1 p1 items _) as [w2|],
             (walk_items rec2 p2 items _) as [w2'|]; simpl in *; try done.
    injection IH as Hy2 Hm2 Hr2. unfold unnamed. simpl.
    rewrite !fmap_app. f_equal. congruence.
Qed.

Lemma named_operators_unnamed h fuel rd :
  ∀ self memo p1 p2,
    unnamed <$> named_operators fuel h self memo p1 rd
    = unnamed <$> named_operators fuel h self memo p2 rd.
Proof.
  induction fuel as [|fuel IH]; intros self memo p1 p2; [done|]. simpl.
  destruct (decide (self ∈ memo)); [done|].
  destruct (_operators h self) as [items|e]; [|done].
  pose proof (walk_items_unnamed _ _ (λ module memo p1 p2, IH module memo p1 p2)
                items p1 p2 (if rd then {[self]} ∪ memo else memo)) as Hit.
  destruct (walk_items _ p1 items _) as [w|], (walk_items _ p2 items _) as [w'|];
    simpl in *; try done.
  injection Hit as Hy Hm Hr. unfold unnamed. cbn [yielded memo_of raised].
  rewrite !fmap_cons. cbn [snd]. congruence.
Qed.

(** Every yielded name starts with the prefix. *)
Lemma walks_names_prefixed h rd :
  (∀ self memo prefix w, walks h rd self memo prefix w →
     ∀ name, name ∈ (yielded w).*1 → ∃ s, name = prefix ++ s) ∧
  (∀ prefix items memo w, walks_items h rd prefix items memo w →
     ∀ name, name ∈ (yielded w).*1 → ∃ s, name = prefix ++ s).
Proof.
  assert (∀ prefix k name, (∃ s, name = submodule_prefix prefix k ++ s) →
                           ∃ s, name = prefix ++ s) as Hsub.
  { intros prefix k name [s ->]. unfold submodule_prefix.
    eexists. symmetry. apply string_app_assoc. }
  apply walks_mutind; simpl.
  - intros ???? name Hn. by apply elem_of_nil in Hn.
  - intros ?????? name Hn. apply list_elem_of_singleton in Hn as ->.
    exists "". by rewrite string_app_nil_r.
  - intros self memo prefix items w _ _ _ IH name Hn.
    apply elem_of_cons in Hn as [->|Hn]; [|by apply IH].
    exists "". by rewrite string_app_nil_r.
  - intros ?? name Hn. by apply elem_of_nil in Hn.
  - done.
  - intros prefix k module items memo w1 e _ IH _ name Hn. by apply (Hsub prefix k), IH.
  - intros prefix k module items memo w1 w2 _ IH1 _ _ IH2 name Hn.
    rewrite fmap_app, elem_of_app in Hn. destruct Hn as [Hn|Hn]; [|by apply IH2].
    by apply (Hsub prefix k), IH1.
Qed.

(** ** With and without [remove_duplicate] *)

(** Without [remove_duplicate] the memo stays as it was given. *)
Lemma walks_keep_memo h :
  (∀ self memo prefix w, walks h false self memo prefix w → memo_of w = memo) ∧
  (∀ prefix items memo w, walks_items h false prefix items memo w → memo_of w = memo).
Proof.
  apply walks_mutind; simpl; try done.
  - intros prefix name module items memo w1 w2 _ IH1 _ _ IH2. by rewrite IH2, IH1.
Qed.

(** A run without [remove_duplicate] that yields no instance twice is a run
    with it, from any memo that holds none of the yielded instances. *)
Lemma walk_items_dedup_same (recf rect : nat → gset nat → string → option walk) h :
  (∀ module memo p w, recf module memo p = Some w → walks h false module memo p w) →
  (∀ module p w,
     recf module ∅ p = Some w → NoDup (yielded w).*2 →
     ∀ memo', (∀ l, l ∈ (yielded w).*2 → l ∉ memo') →
       rect module memo' p
       = Some (Walk (yielded w) (memo' ∪ list_to_set (yielded w).*2) (raised w))) →
  ∀ items prefix w,
    walk_items recf prefix items ∅ = Some w → NoDup (yielded w).*2 →
    ∀ memo', (∀ l, l ∈ (yielded w).*2 → l ∉ memo') →
      walk_items rect prefix items memo'
      = Some (Walk (yielded w) (memo' ∪ list_to_set (yielded w).*2) (raised w)).
Proof.
  intros Hwalks Hrec items prefix.
  induction items as [|[name [module|]] items IH]; intros w Hw Hnd memo' Hfresh;
    simpl in *.
  - injection Hw as <-. simpl. f_equal. f_equal. set_solver.
  - destruct (recf module ∅ (submodule_prefix prefix name)) as [w1|] eqn:H1;
      simpl in Hw; [|done].
    pose proof (proj1 (walks_keep_memo h) _ _ _ _ (Hwalks _ _ _ _ H1)) as Hm1.
    destruct (raised w1) as [e|] eqn:Hr1.
    + injection Hw as <-. rewrite (Hrec _ _ _ H1 Hnd memo' Hfresh). simpl.
      by rewrite Hr1.
    + rewrite Hm1 in Hw.
      destruct (walk_items recf prefix items ∅) as [w2|] eqn:H2; simpl in Hw; [|done].
      injection Hw as <-. simpl in *. rewrite fmap_app in Hnd, Hfresh.
      apply NoDup_app in Hnd as (Hnd1 & Hdis & Hnd2).
      rewrite (Hrec _ _ _ H1 Hnd1 memo') by (intros l Hl; apply Hfresh, elem_of_app; by left).
      simpl. rewrite Hr1.
      rewrite (IH w2 eq_refl Hnd2).
      * simpl. f_equal. f_equal. rewrite fmap_app, list_to_set_app_L. set_solver.
      * intros l Hl Hin. apply elem_of_union in Hin as [Hin|Hin].
        -- apply (Hfresh l); [apply elem_of_app; by right|done].
        -- apply elem_of_list_to_set in Hin. by apply (Hdis l).
  - by apply IH.
Qed.

Lemma named_operators_dedup_same h fuel :
  ∀ self prefix w,
    named_operators fuel h self ∅ prefix false = Some w → NoDup (yielded w).*2 →
    ∀ memo', (∀ l, l ∈ (yielded w).*2 → l ∉ memo') →
      named_operators fuel h self memo' prefix true
      = Some (Walk (yielded w) (memo' ∪ list_to_set (yielded w).*2) (raised w)).
Proof.
  induction fuel as [|fuel IH]; intros self prefix w Hw Hnd memo' Hfresh; [done|].
  simpl in *. rewrite decide_False in Hw by set_solver.
  destruct (_operators h self) as [items|e] eqn:Hops.
  - match type of Hw with
    | context [walk_items ?r ?p ?i ?m] =>
        destruct (walk_items r p i m) as [w'|] eqn:Hit
    end; simpl in Hw; [|done].
    injection Hw as <-. simpl in *.
    apply NoDup_cons in Hnd as [Hself Hnd].
    rewrite decide_False by (apply Hfresh, elem_of_cons; by left).
    rewrite (walk_items_dedup_same
               (λ module memo p, named_operators fuel h module memo p false)
               (λ module memo p, named_operators fuel h module memo p true) h
               (λ module memo p w, named_operators_walks h false fuel module memo p w)
               (λ module p w, IH module p w) items prefix w' Hit Hnd ({[self]} ∪ memo')).
    + simpl. f_equal. f_equal. set_solver.
    + intros l Hl Hin. apply elem_of_union in Hin as [Hin|Hin].
      * apply elem_of_singleton in Hin as ->. done.
      * apply (Hfresh l); [apply elem_of_cons; by right|done].
  - injection Hw as <-. simpl in *.
    rewrite decide_False by (apply Hfresh, elem_of_cons; by left).
    f_equal. f_equal. set_solver.
Qed.

(** ** Cycles *)

(** A path of one step or more starts with a step. *)
Lemma tc_first {A} (R : relation A) x z : tc R x z → ∃ y, R x y ∧ rtc R y z.
Proof.
  destruct 1 as [x z H|x y z H1 H2].
  - exists z. split; [done|reflexivity].
  - exists y. split; [done|by apply tc_rtc].
Qed.

(** The children of an operator with registries all around. *)
Lemma registries_from_child h l c :
  registries_from h l → child_of h l c → registries_from h c.
Proof. intros Hreg Hc x Hx. apply Hreg. by eapply rtc_l. Qed.

(** ** Without [remove_duplicate] *)

(** The loop over the children from the empty memo: it returns when the
    calls on the children do, and needs more depth when one of them does
    and none before it was stopped. *)
Lemma walk_items_plain_ok (rec : nat → gset nat → string → option walk) prefix items :
  (∀ k c p, (k, Some c) ∈ items → ∃ w, rec c ∅ p = Some w ∧ memo_of w = ∅) →
  ∃ w, walk_items rec prefix items ∅ = Some w.
Proof.
  induction items as [|[name [module|]] items IH]; intros Hrec; simpl.
  - by eexists.
  - destruct (Hrec name module (submodule_prefix prefix name)) as (w1 & -> & Hm);
      [apply elem_of_cons; by left|].
    simpl. destruct (raised w1); [by eexists|]. rewrite Hm.
    destruct IH as [w2 ->]; [|by eexists].
    intros k c p Hin. apply (Hrec k). apply elem_of_cons. by right.
  - apply IH. intros k c p Hin. apply (Hrec k). apply elem_of_cons. by right.
Qed.

Lemma walk_items_plain_none (rec : nat → gset nat → string → option walk) prefix items :
  (∀ k c p w, (k, Some c) ∈ items → rec c ∅ p = Some w →
              raised w = None ∧ memo_of w = ∅) →
  (∃ k c, (k, Some c) ∈ items ∧ ∀ p, rec c ∅ p = None) →
  walk_items rec prefix items ∅ = None.
Proof.
  induction items as [|[name [module|]] items IH]; intros Hrec (k & c & Hin & Hc).
  - by apply elem_of_nil in Hin.
  - simpl. apply elem_of_cons in Hin as [[= <- <-]|Hin]; [by rewrite Hc|].
    destruct (rec module ∅ (submodule_prefix prefix name)) as [w1|] eqn:H1; [|done].
    destruct (Hrec name module _ w1 ltac:(apply elem_of_cons; by left) H1) as [Hr Hm].
    simpl. rewrite Hr, Hm, IH; [done| |by exists k, c].
    intros k' c' p w Hin'. apply (Hrec k'). apply elem_of_cons. by right.
  - simpl. apply elem_of_cons in Hin as [[=]|Hin]. apply IH; [|by exists k, c].
    intros k' c' p w Hin'. apply (Hrec k'). apply elem_of_cons. by right.
Qed.

Section plain_facts.
Context (h : gmap nat object).

(** With registries all around, no exception stops the traversal. *)
Lemma named_operators_plain_result fuel l prefix w :
  registries_from h l →
  named_operators fuel h l ∅ prefix false = Some w →
  raised w = None ∧ memo_of w = ∅.
Proof.
  intros Hreg Hw. apply named_operators_walks in Hw. split.
  - destruct (raised w) as [e|] eqn:He; [|done].
    destruct (proj1 (walks_raised h false) _ _ _ _ Hw e He) as (x & Hx & Hops).
    apply (proj1 (walks_yielded_reachable h false) _ _ _ _ Hw), Hreg in Hx.
    destruct Hx as [items Hx]. congruence.
  - apply (proj1 (walks_keep_memo h) _ _ _ _ Hw).
Qed.

Lemma named_operators_plain_cycle fuel :
  ∀ l prefix, registries_from h l → (∃ x, reachable h l x ∧ on_cycle h x) →
    named_operators fuel h l ∅ prefix false = None.
Proof.
  induction fuel as [|fuel IH]; intros l prefix Hreg (x & Hx & Hcyc); [done|]. simpl.
  rewrite decide_False by set_solver.
  destruct (Hreg l) as [items Hitems]; [reflexivity|]. rewrite Hitems.
  assert (∃ c, child_of h l c ∧ reachable h c x) as (c & Hc & Hcx).
  { destruct (rtc_inv _ _ Hx) as [Heq|(y & Hly & Hyx)]; [|by exists y].
    subst x. by apply tc_first. }
  rewrite walk_items_plain_none; [done| |].
  - intros k c' p w Hin. apply named_operators_plain_result.
    eapply registries_from_child; [done|]. by exists items, k.
  - destruct Hc as (items' & k & Hitems' & Hin).
    assert (items' = items) as -> by congruence.
    exists k, c. split; [done|]. intros p. apply IH.
    + eapply registries_from_child; [done|]. by exists items, k.
    + by exists x.
Qed.

Lemma named_operators_plain_acyclic fuel :
  ∀ l prefix (anc : gset nat),
    registries_from h l →
    (∀ x, reachable h l x → ¬ on_cycle h x) →
    (∀ a, a ∈ anc → tc (child_of h) a l) →
    size (dom h ∖ anc) < fuel →
    ∃ w, named_operators fuel h l ∅ prefix false = Some w.
Proof.
  induction fuel as [|fuel IH]; intros l prefix anc Hreg Hacyc Hanc Hsize; [lia|]. simpl.
  rewrite decide_False by set_solver.
  destruct (Hreg l) as [items Hitems]; [reflexivity|]. rewrite Hitems.
  pose proof (_operators_dom _ _ _ Hitems) as Hdom.
  assert (l ∉ anc) as Hl.
  { intros Hin. apply (Hacyc l); [reflexivity|]. by apply Hanc. }
  match goal with
  | |- context [walk_items ?r ?p ?i ?m] =>
      destruct (walk_items_plain_ok r p i) as [w ->]
  end; [|by eexists].
  intros k c p Hin.
  assert (child_of h l c) as Hc by (by exists items, k).
  pose proof (registries_from_child h l c Hreg Hc) as Hregc.
  destruct (IH c p ({[l]} ∪ anc)) as [w Hw].
  - done.
  - intros x Hx. apply Hacyc. by eapply rtc_l.
  - intros a Ha. apply elem_of_union in Ha as [Ha|Ha].
    + apply elem_of_singleton in Ha as ->. by apply tc_once.
    + eapply tc_r; [by apply Hanc|done].
  - assert (size (dom h ∖ ({[l]} ∪ anc)) < size (dom h ∖ anc)); [|lia].
    apply subset_size. set_solver.
  - exists w. split; [done|]. by eapply named_operators_plain_result.
Qed.
End plain_facts.

(** * Facts about the import *)

(** ** The monad *)

(** One step of the monad. *)
Lemma bind_ok {A B} (m : M A) (k : A → M B) h a h' :
  m h = (Ok a, h') → (m ≫= k) h = k a h'.
Proof. intros Hm. unfold mbind, M_bind. by rewrite Hm. Qed.

Lemma bind_raise {A B} (m : M A) (k : A → M B) h e h' :
  m h = (Raise e, h') → (m ≫= k) h = (Raise e, h').
Proof. intros Hm. unfold mbind, M_bind. by rewrite Hm. Qed.

Ltac mstep H := erewrite (bind_ok _ _ _ _ _ H); cbv beta.

Ltac mraise H := erewrite (bind_raise _ _ _ _ _ H).

(** [d[k]] on a key of [d]. *)
Lemma getitem_ok {V} (d : gmap string V) k v (h : gmap nat object) :
  d !! k = Some v → getitem d k h = (Ok v, h).
Proof. intros Hk. unfold getitem. by rewrite Hk. Qed.

(** ** Objects and assignments *)

(** The attributes after an assignment to an attribute. *)
Lemma dict_alter_eq (h : gmap nat object) l d :
  l ∈ dom h → __dict__ (alter (set_dict d) l h) l = d.
Proof.
  intros Ho. apply elem_of_dom in Ho as [o Ho]. unfold __dict__. by rewrite lookup_alter_eq, Ho.
Qed.

Lemma dict_alter_ne (h : gmap nat object) l l' d :
  l' ≠ l → __dict__ (alter (set_dict d) l h) l' = __dict__ h l'.
Proof. intros Hne. unfold __dict__. by rewrite lookup_alter_ne. Qed.

(** An operator with a registry is an object of the heap. *)
Lemma registry_dom (h : gmap nat object) l v :
  __dict__ h l !! "_operators" = Some v → l ∈ dom h.
Proof.
  unfold __dict__. intros Hd. apply elem_of_dom.
  destruct (h !! l); [done|]. by rewrite lookup_empty in Hd.
Qed.

(** [operator_cls()] always returns. *)
Lemma new_returns cls (h : gmap nat object) :
  ∃ h', new cls h = (Ok (fresh (dom h)), h') ∧
        (fresh (dom h) ∉ dom h) ∧
        dom h' = {[fresh (dom h)]} ∪ dom h ∧
        __dict__ h' (fresh (dom h))
          = (if cls_base_init cls then Operator__init__ else ∅) ∧
        ∀ l, l ≠ fresh (dom h) → __dict__ h' l = __dict__ h l.
Proof.
  eexists. split; [reflexivity|]. split_and!.
  - apply is_fresh.
  - by rewrite dom_insert_L.
  - unfold __dict__. by rewrite lookup_insert_eq.
  - intros l Hl. unfold __dict__. by rewrite lookup_insert_ne.
Qed.

(** Assigning a value that is no operator: stored, whatever the key. *)
Lemma setattr_value_spec (h : gmap nat object) l key v :
  (∀ c, v ≠ VOp c) → l ∈ dom h →
  ∃ h', __setattr__ l key v h = (Ok (), h') ∧ dom h' = dom h ∧
    __dict__ h' l = <[key := v]> (__dict__ h l) ∧
    ∀ l', l' ≠ l → __dict__ h' l' = __dict__ h l'.
Proof.
  intros Hv Hdom. unfold __setattr__.
  destruct v; try (by destruct (Hv l0));
    (eexists; split; [reflexivity|]; split_and!;
       [by rewrite dom_alter_L|by apply dict_alter_eq|intros; by apply dict_alter_ne]).
Qed.

(** Assigning an operator under a name other than [_operators] and
    [forward]: done on an object that accepts children, and refused only on
    one that does not. *)
Lemma setattr_op_cases (h : gmap nat object) lp key lc :
  key ≠ "_operators" → key ≠ "forward" →
  (∃ items h',
     __dict__ h lp !! "_operators" = Some (VODict items) ∧
     __setattr__ lp key (VOp lc) h = (Ok (), h') ∧
     dom h' = dom h ∧
     __dict__ h' lp
       = <[key := VOp lc]>
           (<["_operators" := VODict (odict_set key (Some lc) items)]> (__dict__ h lp)) ∧
     ∀ l, l ≠ lp → __dict__ h' l = __dict__ h l) ∨
  (∃ e, __setattr__ lp key (VOp lc) h = (Raise e, h) ∧ ¬ node_ok (__dict__ h lp)).
Proof.
  intros Hk1 Hk2. unfold __setattr__.
  destruct (__dict__ h lp !! "_operators") as [v|] eqn:Hreg.
  2:{ right. eexists. split; [done|]. intros (items & Hreg' & _). congruence. }
  destruct v as [| | | | | |items];
    try (right; eexists; split; [done|]; intros (items & Hreg' & _); congruence).
  destruct (bool_decide (key ∈ dom (__dict__ h lp)) && negb (odict_mem key items)) eqn:Hc.
  - right. eexists. split; [done|]. intros (items' & Hreg' & Hkeys).
    assert (items' = items) as -> by congruence.
    apply andb_true_iff in Hc as [Hin Hn]. apply bool_decide_eq_true_1 in Hin.
    destruct (Hkeys key Hin) as [?|[?|Hmem]]; [done..|]. by rewrite Hmem in Hn.
  - left. pose proof (registry_dom _ _ _ Hreg) as Hdom.
    exists items. eexists. split_and!; [done|done| | |].
    + by rewrite dom_alter_L.
    + by apply dict_alter_eq.
    + intros l Hl. by apply dict_alter_ne.
Qed.

(** ** Ordered dictionaries and names *)

(** Lookup after an assignment in an ordered dictionary. *)
Lemma odict_get_set {V} k k' (v : V) d :
  odict_get k (odict_set k' v d) = if decide (k = k') then Some v else odict_get k d.
Proof.
  induction d as [|[k0 v0] d IH]; simpl.
  - done.
  - destruct (decide (k' = k0)) as [->|Hne]; simpl.
    + destruct (decide (k = k0)); done.
    + destruct (decide (k = k0)) as [->|]; [by rewrite decide_False|done].
Qed.

(** Membership after an assignment in an ordered dictionary. *)
Lemma odict_mem_set {V} k k' (v : V) d :
  odict_mem k (odict_set k' v d) = true ↔ k = k' ∨ odict_mem k d = true.
Proof.
  unfold odict_mem. rewrite !bool_decide_eq_true, odict_get_set.
  case_decide; [naive_solver|]. naive_solver.
Qed.

(** The entries of a dictionary after an assignment. *)
Lemma elem_of_odict_set {V} (x : string * V) k v d :
  x ∈ odict_set k v d → x = (k, v) ∨ x ∈ d.
Proof.
  induction d as [|[k0 v0] d IH]; simpl.
  - intros Hx. apply list_elem_of_singleton in Hx. by left.
  - case_decide as Hk.
    + intros Hx. apply elem_of_cons in Hx as [->|Hx]; [by left|].
      right. apply elem_of_cons. by right.
    + intros Hx. apply elem_of_cons in Hx as [->|Hx].
      * right. apply elem_of_cons. by left.
      * destruct (IH Hx) as [->|Hd]; [by left|]. right. apply elem_of_cons. by right.
Qed.

(** Names with the same parent encode the child. *)
Lemma string_app_inj (s a b : string) : s ++ a = s ++ b → a = b.
Proof. induction s as [|c s IH]; simpl; [done|]. intros [=]. by apply IH. Qed.

Lemma op_name_inj p c c' : op_name p c = op_name p c' → c = c'.
Proof.
  unfold op_name. intros H.
  by apply string_app_inj, string_app_inj, (string_app_inj "__") in H.
Qed.

(** The names of a dictionary after an assignment: a name already there
    keeps its place, a new one goes last. *)
Lemma odict_set_keys {V} k (v : V) d :
  (odict_set k v d).*1 = if odict_mem k d then d.*1 else (d.*1 ++ [k])%list.
Proof.
  unfold odict_mem. induction d as [|[k' v'] d IH]; [done|].
  cbn [odict_set odict_get]. destruct (decide (k = k')) as [->|Hne].
  - by rewrite bool_decide_eq_true_2 by eauto.
  - rewrite !fmap_cons, IH. by destruct (bool_decide (is_Some (odict_get k d))).
Qed.

(** The names of a dictionary. *)
Lemma odict_mem_keys {V} k (d : list (string * V)) : odict_mem k d = true ↔ k ∈ d.*1.
Proof.
  unfold odict_mem. rewrite bool_decide_eq_true.
  induction d as [|[k' v'] d IH]; simpl.
  - split; [by intros [? ?]|by intros ?%elem_of_nil].
  - rewrite elem_of_cons. destruct (decide (k = k')) as [->|Hne].
    + split; [by left|by eauto].
    + rewrite IH. split; [by right|]. by intros [?|?].
Qed.

Lemma odict_set_NoDup {V} k (v : V) d : NoDup d.*1 → NoDup (odict_set k v d).*1.
Proof.
  intros Hnd. rewrite odict_set_keys.
  destruct (odict_mem k d) eqn:Hmem; [done|].
  apply NoDup_app. split_and!; [done| |apply NoDup_singleton].
  intros x Hx ->%list_elem_of_singleton.
  apply odict_mem_keys in Hx. congruence.
Qed.

Lemma elem_of_odict_set_keys {V} k k' (v : V) d :
  k' ∈ (odict_set k v d).*1 ↔ k' = k ∨ k' ∈ d.*1.
Proof.
  rewrite odict_set_keys. destruct (odict_mem k d) eqn:Hmem.
  - apply odict_mem_keys in Hmem. split; [by right|]. by intros [->|?].
  - rewrite elem_of_app, list_elem_of_singleton. tauto.
Qed.

(** A new key goes to the end of a dictionary. *)
Lemma odict_set_fresh {V} k (v : V) d : k ∉ d.*1 → odict_set k v d = (d ++ [(k, v)])%list.
Proof.
  induction d as [|[k' v'] d IH]; [done|]. rewrite fmap_cons, not_elem_of_cons.
  intros [Hne Hk]. cbn [odict_set]. rewrite decide_False by done. by rewrite IH.
Qed.

(** ** Children *)

(** Objects that accept children: after [Operator.__init__], after a forward
    is set, after a child is assigned. *)
Lemma node_ok_init : node_ok Operator__init__.
Proof.
  exists []. split; [done|]. intros key Hkey. left.
  unfold Operator__init__ in Hkey. set_solver.
Qed.

Lemma node_ok_forward d v : (∀ items, v ≠ VODict items) → node_ok d → node_ok (<["forward" := v]> d).
Proof.
  intros Hv (items & Hreg & Hkeys). exists items. split.
  - by rewrite lookup_insert_ne.
  - intros key Hkey. rewrite dom_insert in Hkey.
    apply elem_of_union in Hkey as [->%elem_of_singleton|Hkey]; [by right; left|by apply Hkeys].
Qed.

Lemma node_ok_setattr d key lc items :
  key ≠ "_operators" →
  d !! "_operators" = Some (VODict items) →
  node_ok d →
  node_ok (<[key := VOp lc]> (<["_operators" := VODict (odict_set key (Some lc) items)]> d)).
Proof.
  intros Hkey Hreg (items' & Hreg' & Hkeys).
  rewrite Hreg in Hreg'. injection Hreg' as <-.
  exists (odict_set key (Some lc) items). split.
  - rewrite lookup_insert_ne by done. by rewrite lookup_insert_eq.
  - intros k Hk. rewrite !dom_insert in Hk.
    apply elem_of_union in Hk as [->%elem_of_singleton|Hk].
    { right; right. apply odict_mem_set. by left. }
    apply elem_of_union in Hk as [->%elem_of_singleton|Hk]; [by left|].
    destruct (Hkeys k Hk) as [?|[?|?]]; [by left|by right; left|].
    right; right. apply odict_mem_set. by right.
Qed.

(** An attached child stays attached when a forward is set, when another
    child is assigned, and it is attached once assigned. *)
Lemma attached_in_forward d v name lc :
  name ≠ "forward" → attached_in d name lc → attached_in (<["forward" := v]> d) name lc.
Proof.
  intros Hname [(items & Hreg & Hget) Hd]. split.
  - exists items. by rewrite lookup_insert_ne.
  - by rewrite lookup_insert_ne.
Qed.

Lemma attached_in_setattr d key lc' items name lc :
  key ≠ "_operators" →
  d !! "_operators" = Some (VODict items) →
  (name = key → lc' = lc) →
  attached_in d name lc →
  attached_in
    (<[key := VOp lc']> (<["_operators" := VODict (odict_set key (Some lc') items)]> d))
    name lc.
Proof.
  intros Hkey Hreg Hsame [(items' & Hreg' & Hget) Hd].
  rewrite Hreg in Hreg'. injection Hreg' as <-.
  destruct (decide (name = key)) as [->|Hne].
  - rewrite (Hsame eq_refl). split.
    + exists (odict_set key (Some lc) items). split.
      * rewrite lookup_insert_ne by done. by rewrite lookup_insert_eq.
      * rewrite odict_get_set. by rewrite decide_True.
    + by rewrite lookup_insert_eq.
  - split.
    + exists (odict_set key (Some lc') items). split.
      * rewrite lookup_insert_ne by done. by rewrite lookup_insert_eq.
      * rewrite odict_get_set. by rewrite decide_False.
    + assert ("_operators" ≠ name) by (intros <-; congruence).
      rewrite lookup_insert_ne by done. by rewrite lookup_insert_ne.
Qed.

Lemma attached_in_new d key lc items :
  key ≠ "_operators" →
  attached_in
    (<[key := VOp lc]> (<["_operators" := VODict (odict_set key (Some lc) items)]> d))
    key lc.
Proof.
  intros Hkey. split.
  - exists (odict_set key (Some lc) items). split.
    + rewrite lookup_insert_ne by done. by rewrite lookup_insert_eq.
    + rewrite odict_get_set. by rewrite decide_True.
  - by rewrite lookup_insert_eq.
Qed.

(** ** The dependency table *)

(** The first loop raises exactly when a task is of another class. *)
Lemma topo_tree_of_unsupported task_group topo_tree :
  (∃ t, t ∈ task_group ∧ air_class t ≠ "PythonOperator") ↔
  topo_tree_of task_group topo_tree
    = Raise (Exception "Only PythonOperator is supported at the moment").
Proof.
  revert topo_tree. induction task_group as [|x task_group IH]; intros topo_tree; simpl.
  - split; [|done]. intros (t & Ht & _). by apply elem_of_nil in Ht.
  - case_decide as Hx.
    + split; [done|]. intros _. exists x. split; [apply elem_of_cons; by left|done].
    + rewrite <-IH. split.
      * intros (t & Ht & Hc). apply elem_of_cons in Ht as [->|Ht]; [done|]. by exists t.
      * intros (t & Ht & Hc). exists t. split; [apply elem_of_cons; by right|done].
Qed.

(** The first loop raises nothing else. *)
Lemma topo_tree_of_result task_group topo_tree :
  (∃ topo_tree', topo_tree_of task_group topo_tree = Ok topo_tree') ∨
  topo_tree_of task_group topo_tree
    = Raise (Exception "Only PythonOperator is supported at the moment").
Proof.
  revert topo_tree. induction task_group as [|x task_group IH]; intros topo_tree; simpl.
  - left. by eexists.
  - case_decide; [by right|apply IH].
Qed.

(** When the first loop returns, every task is a [PythonOperator] and every
    entry of the table is a task with its upstream list. *)
Lemma topo_tree_of_inv task_group :
  ∀ topo_tree topo_tree',
    topo_tree_of task_group topo_tree = Ok topo_tree' →
    (∀ t, t ∈ task_group → air_class t = "PythonOperator") ∧
    ∀ c ps, (c, ps) ∈ topo_tree' →
      (c, ps) ∈ topo_tree ∨ ∃ t, t ∈ task_group ∧ task_id t = c ∧ upstream t = ps.
Proof.
  induction task_group as [|x task_group IH]; intros topo_tree topo_tree' Hrun;
    simpl in Hrun.
  { injection Hrun as <-. split; [|by left]. intros t Ht. by apply elem_of_nil in Ht. }
  case_decide as Hx; [done|].
  destruct (IH _ _ Hrun) as [Hall Hin]. split.
  - intros t Ht. apply elem_of_cons in Ht as [->|Ht]; [done|by apply Hall].
  - intros c ps Hc. destruct (Hin c ps Hc) as [Hset|(t & Ht & ? & ?)].
    + apply elem_of_odict_set in Hset as [[= -> ->]|Hold]; [|by left].
      right. exists x. split; [apply elem_of_cons; by left|done].
    + right. exists t. split; [apply elem_of_cons; by right|done].
Qed.

(** The table has one entry for every task id, and no id twice. *)
Lemma topo_tree_of_keys task_group :
  ∀ topo_tree topo_tree',
    topo_tree_of task_group topo_tree = Ok topo_tree' →
    NoDup topo_tree.*1 →
    NoDup topo_tree'.*1 ∧
    (∀ k, k ∈ topo_tree.*1 → k ∈ topo_tree'.*1) ∧
    ∀ t, t ∈ task_group → task_id t ∈ topo_tree'.*1.
Proof.
  induction task_group as [|x task_group IH]; intros topo_tree topo_tree' Hrun Hnd;
    simpl in Hrun.
  { injection Hrun as <-. split_and!; [done..|]. intros t Ht. by apply elem_of_nil in Ht. }
  case_decide as Hx; [done|].
  destruct (IH _ _ Hrun (odict_set_NoDup _ _ _ Hnd)) as (Hnd' & Hold & Hnew).
  split_and!; [done| |].
  - intros k Hk. apply Hold, elem_of_odict_set_keys. by right.
  - intros t Ht. apply elem_of_cons in Ht as [->|Ht]; [|by apply Hnew].
    apply Hold, elem_of_odict_set_keys. by left.
Qed.

(** The first entry of the table stays the first. *)
Lemma topo_tree_of_head task_group :
  ∀ k v topo_tree topo_tree',
    topo_tree_of task_group ((k, v) :: topo_tree) = Ok topo_tree' →
    ∃ v' topo_tree'', topo_tree' = (k, v') :: topo_tree''.
Proof.
  induction task_group as [|x task_group IH]; intros k v topo_tree topo_tree' Hrun;
    simpl in Hrun.
  { injection Hrun as <-. by eexists _, _. }
  case_decide as Hx; [done|]. cbn [odict_set] in Hrun.
  destruct (decide (task_id x = k)) as [<-|Hne]; by eapply IH.
Qed.

(** The tasks without parents, each once. *)
Lemma parent_less_of_NoDup topo_tree :
  NoDup topo_tree.*1 →
  NoDup (parent_less_of topo_tree) ∧ ∀ p, p ∈ parent_less_of topo_tree → p ∈ topo_tree.*1.
Proof.
  unfold parent_less_of.
  induction topo_tree as [|[c ps] topo_tree IH]; simpl.
  { intros _. split; [apply NoDup_nil_2|]. by intros p ?%elem_of_nil. }
  rewrite NoDup_cons. intros [Hc Hnd]. destruct (IH Hnd) as [IH1 IH2].
  destruct ps as [|p0 ps]; simpl.
  - split.
    + apply NoDup_cons. split; [|done]. intros Hin. by apply Hc, IH2.
    + intros p. rewrite !elem_of_cons. intros [->|Hp]; [by left|right; by apply IH2].
  - split; [done|]. intros p Hp. apply elem_of_cons. right. by apply IH2.
Qed.

(** The registry of the root, when every parent-less task is new to it. *)
Lemma root_registry_fresh all_ops parent_less_ops :
  NoDup parent_less_ops →
  ∀ items,
    (∀ p, p ∈ parent_less_ops → op_name "root" p ∉ items.*1) →
    root_registry all_ops parent_less_ops items
    = (items ++ ((λ p, (op_name "root" p, all_ops !! p)) <$> parent_less_ops))%list.
Proof.
  unfold root_registry.
  induction parent_less_ops as [|p pl IH]; intros Hnd items Hfresh; simpl.
  { by rewrite app_nil_r. }
  apply NoDup_cons in Hnd as [Hp Hnd].
  rewrite odict_set_fresh by (apply Hfresh, elem_of_cons; by left).
  rewrite IH; [by rewrite <- app_assoc|done|].
  intros q Hq. rewrite fmap_app, elem_of_app. intros [Hin|Hin].
  - apply (Hfresh q); [apply elem_of_cons; by right|done].
  - simpl in Hin. apply list_elem_of_singleton, op_name_inj in Hin. by subst.
Qed.

(** ** The loops of the import *)

Section import_facts.
Context (operator_cls : pyclass) (dag : air_dag) (root : nat).

(** [task_callable] reads the DAG only. *)
Lemma task_callable_cases id (h : gmap nat object) :
  (∃ t f, task_dict dag !! id = Some t ∧ python_callable t = Some f ∧
          task_callable dag id h = (Ok (VFun f), h)) ∨
  (∃ e, task_callable dag id h = (Raise e, h) ∧ ¬ has_callable dag id).
Proof.
  unfold task_callable, getitem, get_python_callable, mbind, M_bind, has_callable.
  destruct (task_dict dag !! id) as [t|]; simpl.
  - destruct (python_callable t) as [f|] eqn:Hf; simpl.
    + left. by exists t, f.
    + right. eexists. split; [done|]. intros (t' & f & [= <-] & ?). congruence.
  - right. eexists. split; [done|]. by intros (t' & f & [=] & ?).
Qed.

(** [try: all_ops[p]._register_forward(...) except: pass] *)
Lemma try_register_spec all_ops p lp (h : gmap nat object) :
  all_ops !! p = Some lp → lp ∈ dom h →
  ∃ h',
    try_pass (lp ← getitem all_ops p;
              fn ← task_callable dag p;
              _register_forward lp fn) h = (Ok (), h') ∧
    dom h' = dom h ∧
    (∀ l, l ≠ lp → __dict__ h' l = __dict__ h l) ∧
    (__dict__ h' lp = __dict__ h lp ∨
     ∃ f, __dict__ h' lp = <["forward" := VFun f]> (__dict__ h lp)) ∧
    (∀ t f, task_dict dag !! p = Some t → python_callable t = Some f →
       __dict__ h' lp !! "forward" = Some (VFun f)).
Proof.
  intros Hp Hdom. unfold try_pass.
  mstep (getitem_ok all_ops p lp h Hp).
  destruct (task_callable_cases p h) as [(t & f & Ht & Hf & Hcall)|(e & Hcall & Hno)].
  - mstep Hcall.
    destruct (setattr_value_spec h lp "forward" (VFun f)) as (h' & Hset & Hd & Hlp & Hother);
      [done|done|].
    unfold _register_forward. rewrite Hset. exists h'. split_and!; [done..| |].
    + right. by exists f.
    + intros t' f' Ht' Hf'. rewrite Hlp, lookup_insert_eq. congruence.
  - mraise Hcall. exists h. split_and!; [done..|by left|].
    intros t f Ht Hf. destruct Hno. by exists t, f.
Qed.

(** Attachments survive what leaves the operators untouched. *)
Lemma all_attached_frame E all_ops all_ops' (h h' : gmap nat object) :
  all_attached E all_ops h →
  all_ops ⊆ all_ops' →
  (∀ k l, all_ops !! k = Some l → __dict__ h' l = __dict__ h l) →
  all_attached E all_ops' h'.
Proof.
  intros Hatt Hsub Hsame p c Hpc.
  destruct (Hatt p c Hpc) as (lp & lc & Hp & Hc & Ha).
  exists lp, lc. split_and!; [by eapply lookup_weaken..|].
  unfold attached. by rewrite (Hsame p lp Hp).
Qed.

(** [all_ops] with a new operator, and after a change that allocates nothing. *)
Lemma ops_inv_insert_fresh all_ops (h h' : gmap nat object) k :
  ops_inv root all_ops h →
  all_ops !! k = None →
  fresh (dom h) ∉ dom h →
  dom h' = {[fresh (dom h)]} ∪ dom h →
  ops_inv root (<[k := fresh (dom h)]> all_ops) h'.
Proof.
  intros Hops Hk Hfresh Hdom.
  assert (∀ k l, all_ops !! k = Some l → l ≠ fresh (dom h)) as Hne.
  { intros k' l Hk' ->. by destruct (ops_dom _ _ _ Hops k' _ Hk'). }
  split.
  - rewrite Hdom. apply elem_of_union_r, Hops.
  - intros k' l Hk'. apply lookup_insert_Some in Hk' as [[<- <-]|[_ Hk']].
    + split; [|set_solver]. intros Heq. apply Hfresh. rewrite Heq. apply Hops.
    + destruct (ops_dom _ _ _ Hops k' l Hk'). split; [done|set_solver].
  - intros k1 k2 l H1 H2.
    apply lookup_insert_Some in H1 as [[<- <-]|[? H1]];
      apply lookup_insert_Some in H2 as [[<- ?]|[? H2]]; try done.
    + by destruct (Hne _ _ H2).
    + by destruct (Hne _ _ H1).
    + by eapply (ops_inj _ _ _ Hops).
Qed.

Lemma ops_inv_dom all_ops (h h' : gmap nat object) :
  ops_inv root all_ops h → dom h' = dom h → ops_inv root all_ops h'.
Proof.
  intros [] Hdom. split; [by rewrite Hdom| |done].
  intros k l Hk. rewrite Hdom. eauto.
Qed.

(** A new operator for [k]: the old ones are untouched. *)
Lemma insert_fresh_spec all_ops E k (h h' : gmap nat object) :
  ops_inv root all_ops h →
  all_attached E all_ops h →
  all_ops !! k = None →
  fresh (dom h) ∉ dom h →
  dom h' = {[fresh (dom h)]} ∪ dom h →
  (∀ l, l ≠ fresh (dom h) → __dict__ h' l = __dict__ h l) →
  ops_inv root (<[k := fresh (dom h)]> all_ops) h' ∧
  all_attached E (<[k := fresh (dom h)]> all_ops) h' ∧
  all_ops ⊆ <[k := fresh (dom h)]> all_ops ∧
  __dict__ h' root = __dict__ h root ∧
  (node_ok (__dict__ h' (fresh (dom h))) → all_ok all_ops h →
     all_ok (<[k := fresh (dom h)]> all_ops) h') ∧
  (forwards_bound dag all_ops h →
     forwards_bound dag (delete k (<[k := fresh (dom h)]> all_ops)) h').
Proof.
  intros Hops Hatt Hk Hfresh Hdom Hother.
  assert (∀ k l, all_ops !! k = Some l → l ≠ fresh (dom h)) as Hne.
  { intros k' l Hk' ->. by destruct (ops_dom _ _ _ Hops k' _ Hk'). }
  split_and!.
  - by apply ops_inv_insert_fresh.
  - eapply all_attached_frame; [done|by apply insert_subseteq|]. eauto.
  - by apply insert_subseteq.
  - apply Hother. intros Heq. apply Hfresh. rewrite <-Heq. apply Hops.
  - intros Hnew Hok k' l Hk'. apply lookup_insert_Some in Hk' as [[<- <-]|[_ Hk']]; [done|].
    rewrite Hother by eauto. by eapply Hok.
  - intros Hfwd k' l t f Hk'. apply lookup_delete_Some in Hk' as [Hkk Hk'].
    rewrite lookup_insert_ne in Hk' by done. rewrite Hother by eauto. by eapply Hfwd.
Qed.

(** A new instance of a class that runs [Operator.__init__] accepts children. *)
Lemma node_ok_new (h' : gmap nat object) l :
  cls_base_init operator_cls = true →
  __dict__ h' l = (if cls_base_init operator_cls then Operator__init__ else ∅) →
  node_ok (__dict__ h' l).
Proof. intros -> ->. apply node_ok_init. Qed.

(** The operator of a parent is found or made. *)
Lemma operator_of_parent_spec p E all_ops (h : gmap nat object) :
  ops_inv root all_ops h →
  all_attached E all_ops h →
  ∃ all_ops' h',
    operator_of_parent operator_cls p all_ops h = (Ok all_ops', h') ∧
    ops_inv root all_ops' h' ∧
    all_attached E all_ops' h' ∧
    all_ops ⊆ all_ops' ∧
    p ∈ dom all_ops' ∧
    __dict__ h' root = __dict__ h root ∧
    (cls_base_init operator_cls = true → all_ok all_ops h → all_ok all_ops' h') ∧
    (forwards_bound dag all_ops h → forwards_bound dag (delete p all_ops') h').
Proof.
  intros Hops Hatt. unfold operator_of_parent. case_decide as Hdom.
  - destruct (new_returns operator_cls h) as (h' & Hnew & Hfresh & Hdom' & Hd & Hother).
    apply not_elem_of_dom in Hdom.
    destruct (insert_fresh_spec all_ops E p h h' Hops Hatt Hdom Hfresh Hdom' Hother)
      as (? & ? & ? & ? & Hok & ?).
    exists (<[p := fresh (dom h)]> all_ops), h'. mstep Hnew.
    split_and!; [reflexivity|done|done|done| |done| |done].
    + rewrite dom_insert_L. set_solver.
    + intros Hinit. apply Hok. by apply node_ok_new.
  - exists all_ops, h. split_and!; [done..|].
    intros Hfwd k l t f Hk. apply lookup_delete_Some in Hk as [_ Hk]. by eapply Hfwd.
Qed.

(** One round of [for p in parents]: it attaches the child, and it raises
    only on operators that accept no children. *)
Lemma attach_to_parent_spec child lc p E all_ops (h : gmap nat object) :
  ops_inv root all_ops h →
  all_attached E all_ops h →
  all_ops !! child = Some lc →
  match attach_to_parent operator_cls dag child all_ops p h with
  | (Ok all_ops', h') =>
      ops_inv root all_ops' h' ∧
      all_attached (E ++ [(p, child)]) all_ops' h' ∧
      all_ops ⊆ all_ops' ∧
      __dict__ h' root = __dict__ h root ∧
      (cls_base_init operator_cls = true → all_ok all_ops h → all_ok all_ops' h') ∧
      (forwards_bound dag all_ops h → forwards_bound dag all_ops' h')
  | (Raise _, _) => ¬ (cls_base_init operator_cls = true ∧ all_ok all_ops h)
  end.
Proof.
  intros Hops Hatt Hc. unfold attach_to_parent.
  destruct (operator_of_parent_spec p E all_ops h Hops Hatt)
    as (all_ops1 & h1 & Hstep & Hops1 & Hatt1 & Hsub1 & Hp & Hroot1 & Hok1 & Hfwd1).
  mstep Hstep. apply elem_of_dom in Hp as [lp Hp].
  pose proof (lookup_weaken _ _ _ _ Hc Hsub1) as Hc1.
  mstep (getitem_ok all_ops1 p lp h1 Hp).
  mstep (getitem_ok all_ops1 child lc h1 Hc1).
  destruct (ops_dom _ _ _ Hops1 p lp Hp) as [Hlp_root Hlp_dom].
  destruct (setattr_op_cases h1 lp (op_name p child) lc)
    as [(items & h2 & Hreg & Hset & Hdom2 & Hd2 & Hother2)|(e & Hset & Hno)]; [done..| |].
  2:{ mraise Hset. intros [Hinit Hok]. apply Hno. by eapply Hok1. }
  mstep Hset.
  destruct (try_register_spec all_ops1 p lp h2 Hp) as (h3 & Htry & Hdom3 & Hother3 & Hd3 & Hfw3);
    [by rewrite Hdom2|].
  mstep Htry. simpl.
  split_and!.
  - eapply ops_inv_dom; [done|]. by rewrite Hdom3.
  - intros p' c' Hpc.
    assert (∀ l name c, attached h2 l name c → name ≠ "forward" → attached h3 l name c)
      as Hkeep3.
    { intros l name c Ha Hname. unfold attached in *.
      destruct (decide (l = lp)) as [->|Hne]; [|by rewrite Hother3].
      destruct Hd3 as [->|[v ->]]; [done|]. by apply attached_in_forward. }
    apply elem_of_app in Hpc as [Hpc|Hpc].
    + destruct (Hatt1 p' c' Hpc) as (lp' & lc' & Hp' & Hc' & Ha).
      exists lp', lc'. split_and!; [done..|]. apply Hkeep3; [|done].
      unfold attached in *.
      destruct (decide (lp' = lp)) as [->|Hne]; [|by rewrite Hother2].
      rewrite Hd2. apply attached_in_setattr; [done|done| |done].
      intros Hname.
      assert (p' = p) as -> by by eapply (ops_inj _ _ _ Hops1).
      apply op_name_inj in Hname as ->. congruence.
    + apply list_elem_of_singleton in Hpc as [= -> ->].
      exists lp, lc. split_and!; [done..|]. apply Hkeep3; [|done].
      unfold attached. rewrite Hd2. by apply attached_in_new.
  - done.
  - by rewrite Hother3, Hother2.
  - intros Hinit Hok k l Hk. specialize (Hok1 Hinit Hok k l Hk).
    destruct (decide (l = lp)) as [->|Hne]; [|by rewrite Hother3, Hother2].
    assert (node_ok (__dict__ h2 lp)) as Hok2.
    { rewrite Hd2. by apply node_ok_setattr. }
    destruct Hd3 as [->|[f ->]]; [done|]. by apply node_ok_forward.
  - intros Hfwd k l t f Hk Ht Hf. destruct (decide (k = p)) as [->|Hne].
    + assert (l = lp) as -> by congruence. by eapply Hfw3.
    + assert (l ≠ lp) as Hl.
      { intros ->. apply Hne. by eapply (ops_inj _ _ _ Hops1). }
      rewrite Hother3, Hother2 by done. eapply (Hfwd1 Hfwd); [|done..].
      by rewrite lookup_delete_ne.
Qed.

(** [for p in parents]: when it returns, the child is attached to every
    parent. *)
Lemma for_parents_spec child lc parents :
  ∀ E all_ops (h : gmap nat object),
    ops_inv root all_ops h →
    all_attached E all_ops h →
    all_ops !! child = Some lc →
    match for_parents operator_cls dag child parents all_ops h with
    | (Ok all_ops', h') =>
        ops_inv root all_ops' h' ∧
        all_attached (E ++ ((λ p, (p, child)) <$> parents)) all_ops' h' ∧
        all_ops ⊆ all_ops' ∧
        __dict__ h' root = __dict__ h root ∧
        (cls_base_init operator_cls = true → all_ok all_ops h → all_ok all_ops' h') ∧
        (forwards_bound dag all_ops h → forwards_bound dag all_ops' h')
    | (Raise _, _) => ¬ (cls_base_init operator_cls = true ∧ all_ok all_ops h)
    end.
Proof.
  induction parents as [|p parents IH]; intros E all_ops h Hops Hatt Hc.
  { simpl. by rewrite app_nil_r. }
  cbn [for_parents].
  pose proof (attach_to_parent_spec child lc p E all_ops h Hops Hatt Hc) as Hstep.
  destruct (attach_to_parent operator_cls dag child all_ops p h) as [[all_ops1|e] h1] eqn:Hrun.
  2:{ by mraise Hrun. }
  destruct Hstep as (Hops1 & Hatt1 & Hsub1 & Hroot1 & Hok1 & Hfwd1).
  mstep Hrun.
  pose proof (lookup_weaken _ _ _ _ Hc Hsub1) as Hc1.
  specialize (IH (E ++ [(p, child)])%list all_ops1 h1 Hops1 Hatt1 Hc1).
  destruct (for_parents operator_cls dag child parents all_ops1 h1) as [[all_ops'|e] h'].
  - destruct IH as (Hops' & Hatt' & Hsub' & Hroot' & Hok' & Hfwd').
    split_and!; [done| |by etrans|congruence|by auto|by auto].
    by rewrite <-(assoc_L (++)) in Hatt'.
  - intros [Hinit Hok]. apply IH. auto.
Qed.

(** [if child not in all_ops: ...] raises only for a task without a
    callable. *)
Lemma operator_of_task_spec child E all_ops (h : gmap nat object) :
  ops_inv root all_ops h →
  all_attached E all_ops h →
  match operator_of_task operator_cls dag child all_ops h with
  | (Ok all_ops', h') =>
      ops_inv root all_ops' h' ∧
      all_attached E all_ops' h' ∧
      all_ops ⊆ all_ops' ∧
      child ∈ dom all_ops' ∧
      __dict__ h' root = __dict__ h root ∧
      (cls_base_init operator_cls = true → all_ok all_ops h → all_ok all_ops' h') ∧
      (forwards_bound dag all_ops h → forwards_bound dag all_ops' h')
  | (Raise _, _) => ¬ has_callable dag child
  end.
Proof.
  intros Hops Hatt. unfold operator_of_task. case_decide as Hdom.
  2:{ simpl. split_and!; auto. }
  destruct (new_returns operator_cls h) as (h1 & Hnew & Hfresh & Hdom1 & Hd1 & Hother1).
  mstep Hnew.
  destruct (task_callable_cases child h1) as [(t & f & Ht & Hf & Hcall)|(e & Hcall & Hno)].
  2:{ by mraise Hcall. }
  mstep Hcall.
  destruct (setattr_value_spec h1 (fresh (dom h)) "forward" (VFun f))
    as (h2 & Hset & Hdom2 & Hd2 & Hother2); [done|set_solver|].
  unfold _register_forward. mstep Hset. simpl.
  apply not_elem_of_dom in Hdom.
  destruct (insert_fresh_spec all_ops E child h h2 Hops Hatt Hdom Hfresh)
    as (Hops2 & Hatt2 & Hsub2 & Hroot2 & Hok2 & Hfwd2).
  { by rewrite Hdom2. }
  { intros l Hl. by rewrite Hother2, Hother1. }
  split_and!; [done..| |done| |].
  - rewrite dom_insert_L. set_solver.
  - intros Hinit. apply Hok2. rewrite Hd2. apply node_ok_forward; [done|].
    by apply node_ok_new.
  - intros Hfwd k l t' f' Hk Ht' Hf'.
    apply lookup_insert_Some in Hk as [[<- <-]|[Hne Hk]].
    + rewrite Hd2, lookup_insert_eq. congruence.
    + eapply (Hfwd2 Hfwd); [|done..]. rewrite lookup_delete_ne by done.
      by rewrite lookup_insert_ne.
Qed.

(** The loop over the dependency table: when it returns, every pair of the
    table is attached; it raises only on operators that accept no children
    and on tasks without a callable. *)
Lemma for_topo_tree_spec topo_tree :
  ∀ E all_ops parent_less_ops (h : gmap nat object),
    ops_inv root all_ops h →
    all_attached E all_ops h →
    match for_topo_tree operator_cls dag topo_tree all_ops parent_less_ops h with
    | (Ok (all_ops', parent_less_ops'), h') =>
        ops_inv root all_ops' h' ∧
        all_attached (E ++ edges_of topo_tree) all_ops' h' ∧
        all_ops ⊆ all_ops' ∧
        parent_less_ops' = (parent_less_ops ++ parent_less_of topo_tree)%list ∧
        (∀ c ps, (c, ps) ∈ topo_tree → c ∈ dom all_ops') ∧
        __dict__ h' root = __dict__ h root ∧
        (cls_base_init operator_cls = true → all_ok all_ops h → all_ok all_ops' h') ∧
        (forwards_bound dag all_ops h → forwards_bound dag all_ops' h')
    | (Raise _, _) =>
        ¬ (cls_base_init operator_cls = true ∧ all_ok all_ops h ∧
           ∀ c ps, (c, ps) ∈ topo_tree → has_callable dag c)
    end.
Proof.
  induction topo_tree as [|[child parents] topo_tree IH];
    intros E all_ops parent_less_ops h Hops Hatt.
  { simpl. rewrite !app_nil_r. split_and!; try done.
    intros c ps Hc. by apply elem_of_nil in Hc. }
  cbn [for_topo_tree].
  pose proof (operator_of_task_spec child E all_ops h Hops Hatt) as Hstep.
  destruct (operator_of_task operator_cls dag child all_ops h) as [[all_ops1|e] h1] eqn:Hrun.
  2:{ mraise Hrun. intros (_ & _ & Hcall). eapply Hstep, Hcall, elem_of_cons. by left. }
  destruct Hstep as (Hops1 & Hatt1 & Hsub1 & Hc & Hroot1 & Hok1 & Hfwd1).
  mstep Hrun. apply elem_of_dom in Hc as [lc Hc].
  pose proof (for_parents_spec child lc parents E all_ops1 h1 Hops1 Hatt1 Hc) as Hpar.
  destruct (for_parents operator_cls dag child parents all_ops1 h1)
    as [[all_ops2|e] h2] eqn:Hrun2.
  2:{ mraise Hrun2. intros (Hinit & Hok & _). apply Hpar. auto. }
  destruct Hpar as (Hops2 & Hatt2 & Hsub2 & Hroot2 & Hok2 & Hfwd2).
  mstep Hrun2.
  specialize (IH (E ++ ((λ p, (p, child)) <$> parents))%list all_ops2
                (if parents is [] then (parent_less_ops ++ [child])%list else parent_less_ops)
                h2 Hops2 Hatt2).
  destruct (for_topo_tree operator_cls dag topo_tree all_ops2 _ h2) as [[[all_ops' pl']|e] h'].
  - destruct IH as (Hops' & Hatt' & Hsub' & Hpl & Hdom' & Hroot' & Hok' & Hfwd').
    split_and!.
    + done.
    + unfold edges_of in *. simpl. by rewrite <-(assoc_L (++)) in Hatt'.
    + by etrans; [|etrans].
    + rewrite Hpl. unfold parent_less_of. simpl.
      destruct parents; simpl; [by rewrite <-(assoc_L (++))|done].
    + intros c ps Hin. apply elem_of_cons in Hin as [[= -> ->]|Hin]; [|by eapply Hdom'].
      apply elem_of_dom. exists lc.
      eapply lookup_weaken; [|exact Hsub']. eapply lookup_weaken; [|exact Hsub2]. done.
    + congruence.
    + auto.
    + auto.
  - intros (Hinit & Hok & Hcall). apply IH. split_and!; [done|by auto|].
    intros c ps Hin. eapply Hcall, elem_of_cons. by right.
Qed.

(** The loop over the tasks without parents: when it returns, each of them
    is attached to the root; it raises only on a root that accepts no
    children. *)
Lemma for_parent_less_spec all_ops parent_less_ops :
  ∀ (h : gmap nat object),
    (∀ p, p ∈ parent_less_ops → is_Some (all_ops !! p)) →
    match for_parent_less root all_ops parent_less_ops h with
    | (Ok (), h') =>
        dom h' = dom h ∧
        (∀ l, l ≠ root → __dict__ h' l = __dict__ h l) ∧
        __dict__ h' root !! "forward" = __dict__ h root !! "forward" ∧
        (∀ p, p ∈ parent_less_ops →
           ∃ lp, all_ops !! p = Some lp ∧ attached h' root (op_name "root" p) lp) ∧
        (∀ name lc, attached h root name lc →
           (∀ p lp, p ∈ parent_less_ops → all_ops !! p = Some lp →
              name = op_name "root" p → lp = lc) →
           attached h' root name lc) ∧
        (∀ items, __dict__ h root !! "_operators" = Some (VODict items) →
           __dict__ h' root !! "_operators"
           = Some (VODict (root_registry all_ops parent_less_ops items)))
    | (Raise _, _) => ¬ node_ok (__dict__ h root)
    end.
Proof.
  induction parent_less_ops as [|p parent_less_ops IH]; intros h Hall.
  { simpl. split_and!; try done. intros p Hp. by apply elem_of_nil in Hp. }
  cbn [for_parent_less].
  destruct (Hall p) as [lp Hp]; [apply elem_of_cons; by left|].
  mstep (getitem_ok all_ops p lp h Hp).
  destruct (setattr_op_cases h root (op_name "root" p) lp)
    as [(items & h1 & Hreg & Hset & Hdom1 & Hd1 & Hother1)|(e & Hset & Hno)]; [done..| |].
  2:{ by mraise Hset. }
  mstep Hset.
  specialize (IH h1). 
  destruct (for_parent_less root all_ops parent_less_ops h1) as [[[]|e] h'].
  - destruct IH as (Hdom' & Hother' & Hfw' & Hatt' & Hpres' & Hreg').
    { intros p' Hp'. apply Hall, elem_of_cons. by right. }
    split_and!.
    + by rewrite Hdom'.
    + intros l Hl. by rewrite Hother', Hother1.
    + rewrite Hfw', Hd1, lookup_insert_ne by done. by rewrite lookup_insert_ne.
    + intros p' Hp'. apply elem_of_cons in Hp' as [->|Hp']; [|by apply Hatt'].
      exists lp. split; [done|]. apply Hpres'.
      * unfold attached. rewrite Hd1. by apply attached_in_new.
      * intros p' lp' _ Hlp' Hname. apply op_name_inj in Hname as ->. congruence.
    + intros name lc Ha Hsame. apply Hpres'.
      * unfold attached. rewrite Hd1. apply attached_in_setattr; [done|done| |done].
        intros ->. eapply Hsame; [apply elem_of_cons; by left|done..].
      * intros p' lp' Hp' Hlp' Hname.
        eapply Hsame; [apply elem_of_cons; by right|done..].
    + intros items' Hreg0. assert (items' = items) as -> by congruence.
      rewrite (Hreg' (odict_set (op_name "root" p) (Some lp) items)).
      * unfold root_registry. simpl. by rewrite Hp.
      * rewrite Hd1, lookup_insert_ne by done. by rewrite lookup_insert_eq.
  - intros Hok. apply IH.
    + intros p' Hp'. apply Hall, elem_of_cons. by right.
    + rewrite Hd1. apply node_ok_setattr; [done|done|done].
Qed.
End import_facts.

(** What an import leaves when it returns, and why it can raise. *)
Lemma from_airflow_dag_ops_spec operator_cls dag (h : gmap nat object) :
  match from_airflow_dag_ops operator_cls dag h with
  | (Ok (root, all_ops), h') =>
      ∃ topo_tree,
        topo_tree_of (task_group dag) [] = Ok topo_tree ∧
        root = fresh (dom h) ∧
        all_attached (edges_of topo_tree) all_ops h' ∧
        (∀ c, (c, []) ∈ topo_tree →
           ∃ lc, all_ops !! c = Some lc ∧ attached h' root (op_name "root" c) lc) ∧
        (∀ c ps, (c, ps) ∈ topo_tree → c ∈ dom all_ops) ∧
        forwards_bound dag all_ops h' ∧
        __dict__ h' root !! "forward" = Some (VPartial "sequential_forward" root) ∧
        (cls_base_init operator_cls = true →
           _operators h' root
           = Ok (root_registry all_ops (parent_less_of topo_tree) []))
  | (Raise _, _) => ¬ (cls_base_init operator_cls = true ∧ importable dag)
  end.
Proof.
  unfold from_airflow_dag_ops.
  destruct (topo_tree_of (task_group dag) []) as [topo|e] eqn:Htopo.
  2:{ assert (lift (Raise e : result (list (string * list string))) h = (Raise e, h))
        as Hlift by done.
      mraise Hlift. intros [_ Himp].
      destruct (topo_tree_of_result (task_group dag) []) as [[topo Hok]|Hraise]; [congruence|].
      apply topo_tree_of_unsupported in Hraise as (t & Ht & Hc).
      by destruct (Himp t Ht). }
  assert (lift (Ok topo) h = (Ok topo, h)) as Hlift by done.
  mstep Hlift.
  destruct (topo_tree_of_inv _ _ _ Htopo) as [Hkind Hfrom].
  destruct (new_returns operator_cls h) as (h1 & Hnew & Hfresh & Hdom1 & Hd1 & Hother1).
  mstep Hnew. set (root := fresh (dom h)) in *.
  assert (ops_inv root ∅ h1) as Hops1.
  { split.
    - set_solver.
    - intros k l Hk. by rewrite lookup_empty in Hk.
    - intros k1 k2 l Hk. by rewrite lookup_empty in Hk. }
  assert (all_attached [] ∅ h1) as Hatt1.
  { intros p c Hpc. by apply elem_of_nil in Hpc. }
  assert (all_ok ∅ h1) as Hok1.
  { intros k l Hk. by rewrite lookup_empty in Hk. }
  assert (forwards_bound dag ∅ h1) as Hfwd1.
  { intros k l t f Hk. by rewrite lookup_empty in Hk. }
  assert (importable dag → ∀ c ps, (c, ps) ∈ topo → has_callable dag c) as Hcall.
  { intros Himp c ps Hc. destruct (Hfrom c ps Hc) as [Hnil|(t & Ht & <- & _)].
    - by apply elem_of_nil in Hnil.
    - by destruct (Himp t Ht). }
  pose proof (for_topo_tree_spec operator_cls dag root topo [] ∅ [] h1 Hops1 Hatt1) as Hloop.
  destruct (for_topo_tree operator_cls dag topo ∅ [] h1) as [[[all_ops pl]|e] h2] eqn:Hrun.
  2:{ mraise Hrun. intros [Hinit Himp]. apply Hloop.
      split_and!; [done|done|by apply Hcall]. }
  destruct Hloop as (Hops2 & Hatt2 & _ & -> & Hdom2 & Hroot2 & Hok2 & Hfwd2).
  simpl in Hatt2. mstep Hrun.
  pose proof (for_parent_less_spec root all_ops (parent_less_of topo) h2) as Hpl.
  destruct (for_parent_less root all_ops (parent_less_of topo) h2) as [[[]|e] h3] eqn:Hrun3.
  2:{ mraise Hrun3. intros [Hinit _]. apply Hpl.
      - intros p Hp. unfold parent_less_of in Hp.
        apply list_elem_of_omap in Hp as ([c ps] & Hin & Hsome).
        simpl in Hsome. destruct ps; [|done]. injection Hsome as <-.
        apply elem_of_dom. by eapply Hdom2.
      - rewrite Hroot2, Hd1, Hinit. apply node_ok_init. }
  destruct Hpl as (Hdom3 & Hother3 & Hfw3 & Hatt3 & _ & Hreg3).
  { intros p Hp. unfold parent_less_of in Hp.
    apply list_elem_of_omap in Hp as ([c ps] & Hin & Hsome).
    simpl in Hsome. destruct ps; [|done]. injection Hsome as <-.
    apply elem_of_dom. by eapply Hdom2. }
  mstep Hrun3.
  destruct (setattr_value_spec h3 root "forward" (VPartial "sequential_forward" root))
    as (h4 & Hset & Hdom4 & Hd4 & Hother4); [done| |].
  { rewrite Hdom3. apply Hops2. }
  unfold _register_forward. mstep Hset. simpl.
  assert (∀ k l, all_ops !! k = Some l → __dict__ h4 l = __dict__ h2 l) as Hsame.
  { intros k l Hk. destruct (ops_dom _ _ _ Hops2 k l Hk) as [Hne _].
    by rewrite Hother4, Hother3. }
  exists topo. split_and!; [done|done| | |done| | |].
  - eapply all_attached_frame; [exact Hatt2|done|done].
  - intros c Hc. destruct (Hatt3 c) as (lc & Hlc & Ha).
    { unfold parent_less_of. apply list_elem_of_omap. by exists (c, []). }
    exists lc. split; [done|]. unfold attached. rewrite Hd4.
    by apply attached_in_forward.
  - intros k l t f Hk Ht Hf. rewrite (Hsame k l Hk). by eapply (Hfwd2 Hfwd1).
  - by rewrite Hd4, lookup_insert_eq.
  - intros Hinit. unfold _operators. rewrite Hd4, lookup_insert_ne by done.
    rewrite (Hreg3 []); [done|]. by rewrite Hroot2, Hd1, Hinit.
Qed.

(** ** The imports as a whole *)

(** The guard of [from_airflow_dag]: a task of another class stops the import
    before any object is made. *)
Lemma from_airflow_dag_unsupported operator_cls dag (h : gmap nat object) :
  (∃ t, t ∈ task_group dag ∧ air_class t ≠ "PythonOperator") →
  from_airflow_dag operator_cls dag h
  = (Raise (Exception "Only PythonOperator is supported at the moment"), h).
Proof.
  intros Hbad. apply (topo_tree_of_unsupported (task_group dag) []) in Hbad.
  unfold from_airflow_dag, from_airflow_dag_ops, lift, mbind, M_bind.
  by rewrite Hbad.
Qed.

(** An import that returns has met tasks of the supported kind only. *)
Lemma from_airflow_dag_supported operator_cls dag (h h' : gmap nat object) root :
  from_airflow_dag operator_cls dag h = (Ok root, h') →
  ∀ t, t ∈ task_group dag → air_class t = "PythonOperator".
Proof.
  intros Hrun t Ht.
  destruct (decide (air_class t = "PythonOperator")) as [|Hne]; [done|].
  rewrite from_airflow_dag_unsupported in Hrun by eauto. done.
Qed.

(** The guard of [from_airflow_operator] is the other way round. *)
Lemma from_airflow_operator_python operator_cls air_operator (h : gmap nat object) :
  air_class air_operator = "PythonOperator" →
  from_airflow_operator operator_cls air_operator h
  = (Raise (AssertionError "Only PythonOperator is supported at the moment"), h).
Proof. intros Hc. unfold from_airflow_operator. by rewrite decide_False by (by intros []). Qed.

(** A task of another class with a callable is imported. *)
Lemma from_airflow_operator_other operator_cls air_operator f (h : gmap nat object) :
  air_class air_operator ≠ "PythonOperator" →
  python_callable air_operator = Some f →
  ∃ h', from_airflow_operator operator_cls air_operator h = (Ok (fresh (dom h)), h') ∧
        __dict__ h' (fresh (dom h)) !! "forward" = Some (VFun f).
Proof.
  intros Hc Hf. unfold from_airflow_operator. rewrite decide_True by done.
  unfold new, get_python_callable, _register_forward, __setattr__, mbind, M_bind, mret, M_ret.
  rewrite Hf. simpl. eexists. split; [reflexivity|].
  unfold __dict__. rewrite lookup_alter_eq, !lookup_insert_eq. simpl.
  by rewrite lookup_insert_eq.
Qed.

(** [from_airflow_dag] is [from_airflow_dag_ops] without [all_ops]. *)
Lemma from_airflow_dag_of_ops operator_cls dag (h h' : gmap nat object) root all_ops :
  from_airflow_dag_ops operator_cls dag h = (Ok (root, all_ops), h') →
  from_airflow_dag operator_cls dag h = (Ok root, h').
Proof. intros Hops. unfold from_airflow_dag. by mstep Hops. Qed.

(** The import of an importable DAG into a class that runs
    [Operator.__init__] returns. *)
Lemma from_airflow_dag_ops_returns operator_cls dag (h : gmap nat object) :
  cls_base_init operator_cls = true →
  importable dag →
  ∃ root all_ops h', from_airflow_dag_ops operator_cls dag h = (Ok (root, all_ops), h').
Proof.
  intros Hinit Himp.
  pose proof (from_airflow_dag_ops_spec operator_cls dag h) as Hspec.
  destruct (from_airflow_dag_ops operator_cls dag h) as [[[root all_ops]|e] h'].
  - by exists root, all_ops, h'.
  - by destruct Hspec.
Qed.

(** DAGs that are importable: the DAG of one task, and those that pass the
    computed check. *)
Lemma importable_single id f : importable (single_dag (python_task id f [])).
Proof.
  intros t Ht. apply list_elem_of_singleton in Ht as ->. split; [done|].
  exists (python_task id f []), f. split; [|done]. apply lookup_singleton_eq.
Qed.

Lemma importable_computed dag :
  forallb (λ t, bool_decide (air_class t = "PythonOperator") &&
                match task_dict dag !! task_id t with
                | Some t' => bool_decide (is_Some (python_callable t'))
                | None => false
                end) (task_group dag) = true →
  importable dag.
Proof.
  rewrite forallb_forall. intros Hall t Ht.
  apply list_elem_of_In, Hall, andb_true_iff in Ht as [Hc Hd].
  apply bool_decide_eq_true_1 in Hc. split; [done|].
  destruct (task_dict dag !! task_id t) as [t'|] eqn:Ht'; [|done].
  apply bool_decide_eq_true_1 in Hd as [f Hf]. by exists t', f.
Qed.

(** An import that returns, seen through [from_airflow_dag_ops]. *)
Lemma from_airflow_dag_inv operator_cls dag (h h' : gmap nat object) root :
  from_airflow_dag operator_cls dag h = (Ok root, h') →
  ∃ all_ops, from_airflow_dag_ops operator_cls dag h = (Ok (root, all_ops), h').
Proof.
  unfold from_airflow_dag, mbind, M_bind.
  destruct (from_airflow_dag_ops operator_cls dag h) as [[[root' all_ops]|e] h'']; [|done].
  intros [= <- <-]. by exists all_ops.
Qed.

(** The import is its first loop, then the rest. *)
Lemma from_airflow_dag_ops_tail operator_cls dag (h : gmap nat object) topo_tree :
  topo_tree_of (task_group dag) [] = Ok topo_tree →
  from_airflow_dag_ops operator_cls dag h
  = (root ← new operator_cls;
     '(all_ops, parent_less_ops) ← for_topo_tree operator_cls dag topo_tree ∅ [];
     for_parent_less root all_ops parent_less_ops;;
     _register_forward root (VPartial "sequential_forward" root);;
     mret (root, all_ops)) h.
Proof.
  intros Htopo. unfold from_airflow_dag_ops.
  assert (lift (Ok topo_tree) h = (Ok topo_tree, h)) as Hlift by done.
  rewrite Htopo. by mstep Hlift.
Qed.

(** The import stops where its first loop does. *)
Lemma from_airflow_dag_ops_guard operator_cls dag (h : gmap nat object) e :
  topo_tree_of (task_group dag) [] = Raise e →
  from_airflow_dag_ops operator_cls dag h = (Raise e, h).
Proof.
  intros Htopo. unfold from_airflow_dag_ops.
  assert (lift (Raise e : result (list (string * list string))) h = (Raise e, h))
    as Hlift by done.
  rewrite Htopo. by mraise Hlift.
Qed.

(** The heap of [from_airflow_dag] is that of [from_airflow_dag_ops]; so is
    its exception. *)
Lemma from_airflow_dag_run operator_cls dag (h : gmap nat object) :
  (from_airflow_dag operator_cls dag h).2 = (from_airflow_dag_ops operator_cls dag h).2 ∧
  match (from_airflow_dag_ops operator_cls dag h).1 with
  | Ok r => (from_airflow_dag operator_cls dag h).1 = Ok r.1
  | Raise e => (from_airflow_dag operator_cls dag h).1 = Raise e
  end.
Proof.
  unfold from_airflow_dag, mbind, M_bind.
  by destruct (from_airflow_dag_ops operator_cls dag h) as [[[root all_ops]|e] h'].
Qed.

(** The operators of an import that returns: one for each task id, none of
    them the root. *)
Lemma from_airflow_dag_ops_distinct operator_cls dag (h h' : gmap nat object) root all_ops :
  from_airflow_dag_ops operator_cls dag h = (Ok (root, all_ops), h') →
  (∀ k l, all_ops !! k = Some l → l ≠ root) ∧
  (∀ k1 k2 l, all_ops !! k1 = Some l → all_ops !! k2 = Some l → k1 = k2).
Proof.
  intros Hrun.
  destruct (topo_tree_of (task_group dag) []) as [topo|e] eqn:Htopo.
  2:{ by rewrite (from_airflow_dag_ops_guard _ _ _ _ Htopo) in Hrun. }
  rewrite (from_airflow_dag_ops_tail _ _ _ _ Htopo) in Hrun.
  destruct (new_returns operator_cls h) as (h1 & Hnew & Hfresh & Hdom1 & _).
  revert Hrun. mstep Hnew.
  assert (ops_inv (fresh (dom h)) ∅ h1) as Hops1.
  { split.
    - set_solver.
    - intros k l Hk. by rewrite lookup_empty in Hk.
    - intros k1 k2 l Hk. by rewrite lookup_empty in Hk. }
  assert (all_attached [] ∅ h1) as Hatt1.
  { intros p c Hpc. by apply elem_of_nil in Hpc. }
  pose proof (for_topo_tree_spec operator_cls dag (fresh (dom h)) topo [] ∅ [] h1 Hops1 Hatt1)
    as Hloop.
  destruct (for_topo_tree operator_cls dag topo ∅ [] h1) as [[[all_ops' pl]|e] h2] eqn:Hrun2.
  2:{ by mraise Hrun2. }
  destruct Hloop as (Hops2 & _). mstep Hrun2. unfold mbind, M_bind.
  destruct (for_parent_less _ _ _ h2) as [[[]|e] h3]; [|done].
  destruct (_register_forward _ _ h3) as [[[]|e] h4]; [|done].
  intros [= <- <- <-]. split.
  - intros k l Hk. by destruct (ops_dom _ _ _ Hops2 k l Hk).
  - apply (ops_inj _ _ _ Hops2).
Qed.

(** ** Triples *)

(** The rules of the triples. *)
Lemma triple_ret {A} (I : gmap nat object → Prop) (a : A) (Q : A → Prop) E :
  Q a → triple I (mret a) Q E.
Proof. intros Ha h Hh. by split. Qed.

Lemma triple_throw {A} (I : gmap nat object → Prop) e (Q : A → Prop) (E : exn → Prop) :
  E e → triple I (throw e) Q E.
Proof. intros He h Hh. by split. Qed.

Lemma triple_bind {A B} (I : gmap nat object → Prop) (m : M A) (k : A → M B) Q R E :
  triple I m Q E → (∀ a, Q a → triple I (k a) R E) → triple I (m ≫= k) R E.
Proof.
  intros Hm Hk h Hh. unfold mbind, M_bind. destruct (Hm h Hh) as [HI HQ].
  destruct (m h) as [[a|e] h']; simpl in *; [by apply Hk|done].
Qed.

Lemma triple_try_pass (I : gmap nat object → Prop) (m : M unit) Q E Q' E' :
  triple I m Q E → Q' () → triple I (try_pass m) Q' E'.
Proof.
  intros Hm HQ h Hh. unfold try_pass. destruct (Hm h Hh) as [HI _].
  by destruct (m h) as [r h'].
Qed.

Lemma triple_getitem {V} (I : gmap nat object → Prop) (d : gmap string V) k :
  triple I (getitem d k) (λ v, d !! k = Some v) lookup_error.
Proof. intros h Hh. unfold getitem. by destruct (d !! k). Qed.

Lemma triple_task_callable (I : gmap nat object → Prop) dag id :
  triple I (task_callable dag id) (λ v, ∀ c, v ≠ VOp c) lookup_error.
Proof.
  unfold task_callable. eapply triple_bind; [apply triple_getitem|].
  intros t _ h Hh. unfold get_python_callable. by destruct (python_callable t).
Qed.

Section frame.
(** An invariant that allocations and assignments outside [X] keep. *)
Variable X : gset nat.
Variable I : gmap nat object → Prop.
Hypothesis I_dom : ∀ h, I h → X ⊆ dom h.
Hypothesis I_insert : ∀ h l o, l ∉ X → I h → I (<[l := o]> h).
Hypothesis I_alter : ∀ h l f, l ∉ X → I h → I (alter f l h).

Variable operator_cls : pyclass.
Variable dag : air_dag.

(** Allocations and assignments outside [X]. *)
Lemma triple_new cls E : triple I (new cls) (λ l, l ∉ X) E.
Proof.
  intros h Hh. unfold new. simpl.
  assert (fresh (dom h) ∉ X) as Hfresh.
  { intros Hin. apply (is_fresh (dom h)). by apply (I_dom h Hh). }
  split; [by apply I_insert|done].
Qed.

Lemma triple_setattr l key v :
  l ∉ X → triple I (__setattr__ l key v) (λ _, True) lookup_error.
Proof.
  intros Hl h Hh. unfold __setattr__.
  destruct v; try (split; [by apply I_alter|done]).
  destruct (__dict__ h l !! "_operators") as [[| | | | | |ops]|]; try done.
  destruct (_ && _); [done|]. split; [by apply I_alter|done].
Qed.

Lemma outside_insert all_ops k l : (outside X) all_ops → l ∉ X → (outside X) (<[k := l]> all_ops).
Proof.
  intros Hout Hl k' l'. rewrite lookup_insert_Some. intros [[_ <-]|[_ Hk]]; [done|].
  by eapply Hout.
Qed.

(** The loops of the import touch nothing of [X]. *)
Lemma triple_operator_of_parent p all_ops :
  (outside X) all_ops →
  triple I (operator_of_parent operator_cls p all_ops) (outside X) lookup_error.
Proof.
  intros Hout. unfold operator_of_parent. destruct (decide _).
  - eapply triple_bind; [apply triple_new|]. intros l Hl.
    apply triple_ret. by apply outside_insert.
  - by apply triple_ret.
Qed.

Lemma triple_attach_to_parent child all_ops p :
  (outside X) all_ops →
  triple I (attach_to_parent operator_cls dag child all_ops p) (outside X) lookup_error.
Proof.
  intros Hout. unfold attach_to_parent.
  eapply triple_bind; [by apply triple_operator_of_parent|]. intros all_ops' Hout'.
  eapply triple_bind; [apply triple_getitem|]. intros lp Hlp.
  eapply triple_bind; [apply triple_getitem|]. intros lc Hlc.
  eapply triple_bind; [apply triple_setattr; exact (Hout' _ _ Hlp)|]. intros _ _.
  eapply triple_bind; [|intros _ _; by apply triple_ret].
  eapply (triple_try_pass _ _ (λ _, True) lookup_error (λ _, True) lookup_error); [|done].
  eapply triple_bind; [apply triple_getitem|]. intros lp' Hlp'.
  eapply triple_bind; [apply triple_task_callable|]. intros fn _.
  apply triple_setattr. exact (Hout' _ _ Hlp').
Qed.

Lemma triple_for_parents child parents :
  ∀ all_ops, (outside X) all_ops →
    triple I (for_parents operator_cls dag child parents all_ops) (outside X) lookup_error.
Proof.
  induction parents as [|p parents IH]; intros all_ops Hout; simpl.
  - by apply triple_ret.
  - eapply triple_bind; [by apply triple_attach_to_parent|]. apply IH.
Qed.

Lemma triple_operator_of_task child all_ops :
  (outside X) all_ops →
  triple I (operator_of_task operator_cls dag child all_ops) (outside X) lookup_error.
Proof.
  intros Hout. unfold operator_of_task. destruct (decide _).
  - eapply triple_bind; [apply triple_new|]. intros l Hl.
    eapply triple_bind; [apply triple_task_callable|]. intros fn _.
    eapply triple_bind; [by apply triple_setattr|]. intros _ _.
    apply triple_ret. by apply outside_insert.
  - by apply triple_ret.
Qed.

Lemma triple_for_topo_tree topo_tree :
  ∀ all_ops parent_less_ops, (outside X) all_ops →
    triple I (for_topo_tree operator_cls dag topo_tree all_ops parent_less_ops)
      (λ r, (outside X) r.1) lookup_error.
Proof.
  induction topo_tree as [|[child parents] topo_tree IH]; intros all_ops pl Hout; simpl.
  - by apply triple_ret.
  - eapply triple_bind; [by apply triple_operator_of_task|]. intros all_ops1 Hout1.
    eapply triple_bind; [by apply triple_for_parents|]. intros all_ops2 Hout2.
    by apply IH.
Qed.

Lemma triple_for_parent_less root all_ops parent_less_ops :
  root ∉ X →
  triple I (for_parent_less root all_ops parent_less_ops) (λ _, True) lookup_error.
Proof.
  intros Hroot. induction parent_less_ops as [|p pl IH]; simpl.
  - by apply triple_ret.
  - eapply triple_bind; [apply triple_getitem|]. intros lp _.
    eapply triple_bind; [by apply triple_setattr|]. intros _ _. apply IH.
Qed.

(** [from_airflow_dag] after its first loop. *)
Lemma triple_import_tail topo_tree :
  triple I
    (root ← new operator_cls;
     '(all_ops, parent_less_ops) ← for_topo_tree operator_cls dag topo_tree ∅ [];
     for_parent_less root all_ops parent_less_ops;;
     _register_forward root (VPartial "sequential_forward" root);;
     mret (root, all_ops))
    (λ r, (r.1 ∉ X) ∧ (outside X) r.2) lookup_error.
Proof.
  eapply triple_bind; [apply triple_new|]. intros root Hroot.
  eapply triple_bind; [apply triple_for_topo_tree|].
  { intros k l Hk. by rewrite lookup_empty in Hk. }
  intros [all_ops pl] Hout.
  eapply triple_bind; [by apply triple_for_parent_less|]. intros _ _.
  eapply triple_bind; [by apply triple_setattr|]. intros _ _.
  by apply triple_ret.
Qed.
End frame.

(** * Facts about the invocation *)

(** A named argument never reaches [forward]: [self.inputs[key]] indexes a
    list by a string. *)
Lemma bind_named_raises inputs key v kwargs input_dict :
  bind_named inputs ((key, v) :: kwargs) input_dict
  = Raise (TypeError "list indices must be integers or slices, not str").
Proof. reflexivity. Qed.

(** Positional arguments bind when there are inputs enough. *)
Lemma bind_positional_ok inputs args :
  ∀ i input_dict,
    i + length args ≤ length inputs →
    ∃ input_dict', bind_positional inputs i args input_dict = Ok input_dict'.
Proof.
  induction args as [|arg args IH]; intros i input_dict Hlen; simpl in *.
  - by eexists.
  - destruct (lookup_lt_is_Some_2 inputs i) as [name ->]; [lia|].
    apply IH. lia.
Qed.

(** Every call that passes a named argument other than [_type_check_], and
    gets as far as the binding, fails there. *)
Lemma call_named_argument fenv h self args kwargs ins :
  is_dag h self = Ok true →
  inputs fenv h self = Ok ins →
  odict_del "_type_check_" kwargs ≠ [] →
  length args + length (odict_del "_type_check_" kwargs) = length ins →
  __call__ fenv h self args kwargs
  = Raise (TypeError "list indices must be integers or slices, not str").
Proof.
  intros Hdag Hin Hne Hlen. unfold __call__. rewrite Hdag. simpl. rewrite Hin. simpl.
  rewrite Hlen, Nat.eqb_refl, andb_false_r.
  unfold bind_and_forward.
  destruct (bind_positional_ok ins args 0 []) as [input_dict ->]; [lia|]. simpl.
  destruct (odict_del "_type_check_" kwargs) as [|[key v] rest]; [done|].
  by rewrite bind_named_raises.
Qed.

(** The positional arguments are bound to the first inputs, in order. *)
Lemma bind_positional_zip inputs args :
  NoDup inputs →
  ∀ i input_dict,
    i + length args ≤ length inputs →
    input_dict.*1 = take i inputs →
    bind_positional inputs i args input_dict
    = Ok (input_dict ++ zip (drop i inputs) args)%list.
Proof.
  intros Hnd. induction args as [|arg args IH]; intros i input_dict Hlen Hkeys.
  - simpl. destruct (drop i inputs); by rewrite app_nil_r.
  - simpl in *. destruct (lookup_lt_is_Some_2 inputs i) as [name Hname]; [lia|].
    rewrite Hname, (drop_S _ _ _ Hname). simpl.
    rewrite odict_set_fresh.
    2:{ rewrite Hkeys. intros Hin. apply elem_of_take in Hin as (j & Hj & Hlt).
        pose proof (NoDup_lookup _ _ _ _ Hnd Hj Hname). lia. }
    rewrite IH; [by rewrite <- app_assoc|lia|].
    by rewrite fmap_app, Hkeys, (take_S_r _ _ _ Hname).
Qed.

(** More positional arguments than inputs: the index runs out. *)
Lemma bind_positional_overflow inputs args :
  ∀ i input_dict,
    i ≤ length inputs →
    length inputs < i + length args →
    bind_positional inputs i args input_dict = Raise (IndexError "list index out of range").
Proof.
  induction args as [|arg args IH]; intros i input_dict Hi Hlen; simpl in *; [lia|].
  destruct (inputs !! i) as [name|] eqn:Hname; [|done].
  apply IH; [|lia]. apply lookup_lt_Some in Hname. lia.
Qed.

(** [list.remove] on a list without the element. *)
Lemma list_remove_missing x l :
  x ∉ l → list_remove x l = Raise (ValueError "list.remove(x): x not in list").
Proof.
  induction l as [|y l IH]; [done|]. rewrite not_elem_of_cons. intros [Hne Hx].
  simpl. rewrite decide_False by done. by rewrite IH.
Qed.

(** * Facts about the export *)

(** The documentation is never the empty string, so it is never omitted. *)
Lemma full_doc_joined cls :
  full_doc cls = KStr (default "" (cls_doc cls) ++ newline ++ default "" (cls_init_doc cls)).
Proof.
  unfold full_doc. rewrite decide_False; [done|].
  by destruct (default "" (cls_doc cls)).
Qed.

(** The export computes no field that it also fixes. *)
Lemma computed_not_disabled :
  ({["doc_rst"; "task_id"; "sla"; "execution_timeout"]} : gset string) ## dom disabled_kwargs.
Proof. apply (bool_decide_unpack _). by vm_compute. Qed.

(** The reserved fields are those that the export computed. *)
Lemma exported_lookup operator operator_kwargs (base : gmap string kwvalue) k :
  dom (metadata operator operator_kwargs) ## reserved_kwargs →
  k ∈ reserved_kwargs →
  (operator_kwargs ∪ (default ∅ (cls_comms (ob_class operator)) ∪ base)) !! k = base !! k.
Proof.
  unfold metadata. rewrite dom_union_L. intros Hdis Hk.
  rewrite !lookup_union_r; [done|apply not_elem_of_dom; set_solver..].
Qed.

(** The task that the export builds when neither [comms()] nor the caller
    sets a field that the export computes or fixes. *)
Lemma to_airflow_operator_spec operator timeout operator_kwargs :
  dom (metadata operator operator_kwargs) ## reserved_kwargs →
  ∃ task,
    to_airflow_operator operator timeout operator_kwargs = Ok task ∧
    air_class task = "BaseOperator" ∧
    task_id task = cls_name (ob_class operator) ∧
    python_callable task = None ∧
    upstream task = [] ∧
    air_kwargs task !! "doc_rst" = Some (full_doc (ob_class operator)).
Proof.
  intros Hdis. unfold to_airflow_operator.
  assert ("task_id" ∈ reserved_kwargs) as Htask.
  { apply elem_of_union_l. set_solver. }
  assert ("doc_rst" ∈ reserved_kwargs) as Hdoc.
  { apply elem_of_union_l. set_solver. }
  rewrite decide_True.
  2:{ unfold no_common_key. rewrite !dom_union_L, !dom_insert_L, dom_empty_L.
      pose proof computed_not_disabled as Hcomp.
      unfold metadata, reserved_kwargs in Hdis. rewrite dom_union_L in Hdis.
      revert Hcomp Hdis. generalize (dom disabled_kwargs). intros D Hcomp Hdis.
      apply disjoint_union_r in Hdis as [_ Hdis].
      apply disjoint_union_l in Hdis as [HA HB].
      apply disjoint_union_l. split; [done|].
      apply disjoint_union_l. split; [done|].
      intros x Hx. apply (Hcomp x). set_unfold. tauto. }
  unfold BaseOperator.
  erewrite lookup_union_Some_l.
  2:{ rewrite exported_lookup by done.
      rewrite lookup_insert_ne by done. apply lookup_insert_eq. }
  eexists. split; [reflexivity|]. simpl. split_and!; try done.
  erewrite lookup_union_Some_l; [done|].
  rewrite exported_lookup by done.
  apply lookup_insert_eq.
Qed.

(** The export, with its dictionary written as one union. *)
Lemma to_airflow_operator_unfold operator timeout operator_kwargs :
  to_airflow_operator operator timeout operator_kwargs
  = if decide (no_common_key (metadata operator operator_kwargs) disabled_kwargs) then
      BaseOperator (metadata operator operator_kwargs ∪ computed_kwargs operator timeout
                    ∪ disabled_kwargs)
    else Raise (TypeError "got multiple values for keyword argument").
Proof.
  unfold to_airflow_operator, metadata, computed_kwargs. cbv zeta.
  rewrite (assoc_L (∪)).
  set (base := <["doc_rst" := _]> _).
  assert (dom base ## dom disabled_kwargs) as Hbase.
  { apply (bool_decide_unpack _). by vm_compute. }
  clearbody base.
  destruct (decide (no_common_key (operator_kwargs ∪ default ∅ (cls_comms (ob_class operator)))
                      disabled_kwargs)) as [Hd|Hd].
  - rewrite decide_True; [done|]. unfold no_common_key in *. rewrite dom_union_L.
    apply disjoint_union_l. split; assumption.
  - rewrite decide_False; [done|]. unfold no_common_key in *. rewrite dom_union_L.
    intros Hd'. by apply disjoint_union_l in Hd' as [? _].
Qed.

(** What an export that returns has built. *)
Lemma to_airflow_operator_inv operator timeout operator_kwargs task :
  to_airflow_operator operator timeout operator_kwargs = Ok task →
  dom (metadata operator operator_kwargs) ## dom disabled_kwargs ∧
  air_kwargs task
  = metadata operator operator_kwargs ∪ computed_kwargs operator timeout ∪ disabled_kwargs ∧
  air_kwargs task !! "task_id" = Some (KStr (task_id task)) ∧
  air_class task = "BaseOperator" ∧
  python_callable task = None ∧
  upstream task = [].
Proof.
  rewrite to_airflow_operator_unfold. destruct (decide _) as [Hd|]; [|done].
  unfold no_common_key in Hd. unfold BaseOperator.
  destruct (_ !! "task_id") as [[| |s| |]|] eqn:Hid; try done.
  intros [= <-]. by simpl.
Qed.

(** * Facts about the printed form *)

(** ** Lines *)

(** Appending to a string that starts with a character. *)
Lemma string_app_cons c (a b : string) : String c a ++ b = String c (a ++ b).
Proof. reflexivity. Qed.

(** A string has a first line. *)
Lemma split_lines_cons s : ∃ line lines, split_lines s = line :: lines.
Proof.
  induction s as [|c s (line & lines & IH)]; simpl; [by eexists _, _|].
  case_decide; [by eexists _, _|]. rewrite IH. by eexists _, _.
Qed.

(** A string without newline is its only line. *)
Lemma split_lines_one_line s : one_line s → split_lines s = [s].
Proof.
  induction s as [|c s IH]; simpl; [done|]. intros [Hc Hs].
  rewrite decide_False by done. by rewrite IH.
Qed.

(** No line holds a newline. *)
Lemma split_lines_lines s : Forall one_line (split_lines s).
Proof.
  induction s as [|c s IH]; simpl; [by repeat constructor|].
  case_decide as Hc; [by constructor|].
  destruct (split_lines s) as [|line lines]; [by repeat constructor|].
  apply Forall_cons in IH as [H1 H2]. by constructor.
Qed.

(** A newline ends a line. *)
Lemma split_lines_newline a b :
  split_lines (a ++ newline ++ b) = (split_lines a ++ split_lines b)%list.
Proof.
  induction a as [|c a IH].
  - change ("" ++ newline ++ b) with (String (Ascii.ascii_of_nat 10) b).
    cbn [split_lines]. by rewrite decide_True.
  - rewrite string_app_cons. cbn [split_lines]. rewrite IH.
    case_decide; [done|].
    by destruct (split_lines_cons a) as (line & lines & ->).
Qed.

(** Text without a newline goes before the first line. *)
Lemma split_lines_prepend a s :
  one_line a →
  split_lines (a ++ s)
  = match split_lines s with
    | [] => []
    | first :: rest => (a ++ first) :: rest
    end.
Proof.
  intros Ha. induction a as [|c a IH].
  - change ("" ++ s) with s. by destruct (split_lines s).
  - destruct Ha as [Hc Ha]. rewrite string_app_cons. cbn [split_lines].
    rewrite decide_False, (IH Ha) by done.
    destruct (split_lines_cons s) as (line & lines & ->). done.
Qed.

(** [split] undoes [join] on lines. *)
Lemma split_lines_concat line lines :
  Forall one_line (line :: lines) →
  split_lines (String.concat newline (line :: lines)) = line :: lines.
Proof.
  revert line. induction lines as [|line' lines IH]; intros line Hall.
  - apply Forall_cons in Hall as [H1 _]. by apply split_lines_one_line.
  - apply Forall_cons in Hall as [H1 Hall].
    change (String.concat newline (line :: line' :: lines))
      with (line ++ newline ++ String.concat newline (line' :: lines)).
    by rewrite split_lines_newline, (split_lines_one_line _ H1), IH.
Qed.

(** [join] undoes [split]. *)
Lemma concat_split_lines s : String.concat newline (split_lines s) = s.
Proof.
  induction s as [|c s IH]; [done|]. cbn [split_lines].
  destruct (split_lines_cons s) as (line & lines & Hs). rewrite Hs in *.
  case_decide as Hc.
  - subst c. change (String.concat newline ("" :: line :: lines))
      with (String (Ascii.ascii_of_nat 10) (String.concat newline (line :: lines))).
    by rewrite IH.
  - rewrite <- IH. by destruct lines.
Qed.

(** Strings of one line. *)
Lemma one_line_app a b : one_line a → one_line b → one_line (a ++ b).
Proof.
  intros Ha Hb. induction a as [|c a IH]; [done|].
  destruct Ha as [Hc Ha]. rewrite string_app_cons. split; [done|by apply IH].
Qed.

Lemma one_line_spaces n : one_line (spaces n).
Proof. induction n; simpl; [done|]. split; [done|assumption]. Qed.

(** The lines of [_addindent]. *)
Lemma split_lines_addindent s n :
  split_lines (_addindent s n)
  = match split_lines s with
    | [] => []
    | first :: rest => first :: indented n rest
    end.
Proof.
  unfold _addindent. pose proof (split_lines_lines s) as Hall.
  destruct (split_lines s) as [|first [|second rest]] eqn:Hs.
  - by rewrite Hs.
  - by rewrite Hs.
  - cbv zeta. apply Forall_cons in Hall as [H1 Hall].
    rewrite split_lines_newline, (split_lines_one_line _ H1).
    change ((λ line, spaces n ++ line) <$> second :: rest) with (indented n (second :: rest)).
    simpl app. f_equal. apply (split_lines_concat (spaces n ++ second)).
    change (Forall one_line (indented n (second :: rest))).
    apply Forall_fmap. eapply Forall_impl; [exact Hall|].
    intros line Hline. apply one_line_app; [apply one_line_spaces|done].
Qed.

(** ** The lines of [__repr__] *)

(** The strings that the loop has put together. *)
Lemma child_lines_inv rec items :
  ∀ lines, child_lines rec items = Some (Ok lines) →
    ∃ strs,
      Forall2 (λ kv str, match kv.2 with
                         | Some c => rec c = Some (Ok str)
                         | None => str = "None"
                         end) items strs ∧
      lines = zip_with (λ kv str, "(" ++ kv.1 ++ "): " ++ _addindent str 2) items strs.
Proof.
  induction items as [|[key module] items IH]; intros lines Hrun; simpl in Hrun.
  - injection Hrun as <-. exists []. by split; [constructor|].
  - destruct (match module with Some l => rec l | None => Some (Ok "None") end)
      as [[mod_str|e]|] eqn:Hmod; try done.
    destruct (child_lines rec items) as [[lines'|e]|]; try done.
    injection Hrun as <-. destruct (IH lines' eq_refl) as (strs & Hall & ->).
    exists (mod_str :: strs). split; [|done]. constructor; [|done].
    simpl. destruct module; [done|]. by injection Hmod.
Qed.

(** The lines of one child in the string of its parent. *)
Lemma split_lines_block key str :
  one_line key →
  split_lines ("  " ++ "(" ++ key ++ "): " ++ _addindent str 2)
  = indented 2 (labelled key (split_lines str)).
Proof.
  intros Hkey.
  rewrite (split_lines_prepend "  ") by (by repeat split).
  rewrite (split_lines_prepend "(") by (by repeat split).
  rewrite (split_lines_prepend key) by done.
  rewrite (split_lines_prepend "): ") by (by repeat split).
  rewrite split_lines_addindent.
  by destruct (split_lines_cons str) as (first & rest & ->).
Qed.

(** The lines of the children, joined. *)
Lemma split_lines_join line lines :
  split_lines ("  " ++ String.concat (newline ++ "  ") (line :: lines))
  = mjoin ((λ x, split_lines ("  " ++ x)) <$> line :: lines).
Proof.
  revert line. induction lines as [|line' lines IH]; intros line.
  - simpl. by rewrite app_nil_r.
  - change (String.concat (newline ++ "  ") (line :: line' :: lines))
      with (line ++ (newline ++ "  ") ++ String.concat (newline ++ "  ") (line' :: lines)).
    replace ("  " ++ line ++ (newline ++ "  ")
             ++ String.concat (newline ++ "  ") (line' :: lines))
      with (("  " ++ line) ++ newline
            ++ "  " ++ String.concat (newline ++ "  ") (line' :: lines))
      by (by rewrite <- !string_app_assoc).
    rewrite split_lines_newline, IH. done.
Qed.

(** The string of an operator with children, line by line. *)
Lemma split_lines_main_str name line lines :
  one_line name →
  split_lines (main_str name (line :: lines))
  = ([(name ++ "(")%string] ++ mjoin ((λ x, split_lines ("  " ++ x)) <$> line :: lines) ++ [")"])%list.
Proof.
  intros Hname. unfold main_str.
  replace (((name ++ "(") ++ (newline ++ "  ")
            ++ String.concat (newline ++ "  ") (line :: lines) ++ newline) ++ ")")
    with ((name ++ "(") ++ newline
          ++ ("  " ++ String.concat (newline ++ "  ") (line :: lines)) ++ newline ++ ")")
    by (by rewrite <- !string_app_assoc).
  rewrite !split_lines_newline, split_lines_join.
  rewrite (split_lines_one_line (name ++ "(")); [done|].
  apply one_line_app; [done|by repeat split].
Qed.

(** ** Calls that return *)

(** The loop over the children: it returns when the calls on the children do,
    raises only when one of them does, and needs more depth when one of them
    needs more and none before it raises. *)
Lemma child_lines_ok rec items :
  (∀ k c, (k, Some c) ∈ items → ∃ s, rec c = Some (Ok s)) →
  ∃ lines, child_lines rec items = Some (Ok lines).
Proof.
  induction items as [|[key module] items IH]; intros Hrec; simpl; [by eexists|].
  destruct IH as [lines ->].
  { intros k c Hin. apply (Hrec k). apply elem_of_cons. by right. }
  destruct module as [c|]; [|by eexists].
  destruct (Hrec key c) as [s ->]; [apply elem_of_cons; by left|]. by eexists.
Qed.

Lemma child_lines_no_raise rec items :
  (∀ k c e, (k, Some c) ∈ items → rec c ≠ Some (Raise e)) →
  ∀ e, child_lines rec items ≠ Some (Raise e).
Proof.
  induction items as [|[key module] items IH]; intros Hrec e; simpl; [done|].
  assert (∀ e, child_lines rec items ≠ Some (Raise e)) as Hrest.
  { apply IH. intros k c e' Hin. apply (Hrec k). apply elem_of_cons. by right. }
  assert (∀ c e, module = Some c → rec c ≠ Some (Raise e)) as Hhead.
  { intros c e' ->. apply (Hrec key). apply elem_of_cons. by left. }
  destruct module as [c|].
  - destruct (rec c) as [[s|e']|] eqn:Hc; [| |done].
    + destruct (child_lines rec items) as [[lines|e']|] eqn:Hit; [done| |done].
      by destruct (Hrest e').
    + by destruct (Hhead c e').
  - destruct (child_lines rec items) as [[lines|e']|] eqn:Hit; [done| |done].
    by destruct (Hrest e').
Qed.

Lemma child_lines_none rec items :
  (∀ k c e, (k, Some c) ∈ items → rec c ≠ Some (Raise e)) →
  (∃ k c, (k, Some c) ∈ items ∧ rec c = None) →
  child_lines rec items = None.
Proof.
  induction items as [|[key module] items IH]; intros Hrec (k & c & Hin & Hc).
  { by apply elem_of_nil in Hin. }
  simpl.
  assert (∀ e, child_lines rec items ≠ Some (Raise e)) as Hrest.
  { apply child_lines_no_raise. intros k' c' e' Hin'. apply (Hrec k').
    apply elem_of_cons. by right. }
  apply elem_of_cons in Hin as [[= <- <-]|Hin].
  - by rewrite Hc.
  - rewrite IH.
    + destruct module as [c'|]; [|done].
      destruct (rec c') as [[s|e]|] eqn:Hc'; [done| |done].
      destruct (Hrec key c' e); [apply elem_of_cons; by left|done].
    + intros k' c' e' Hin'. apply (Hrec k'). apply elem_of_cons. by right.
    + by exists k, c.
Qed.

Section repr_facts.
Context (h : gmap nat object).

(** With registries all around, [__repr__] raises nothing; it needs more
    than any depth when a cycle is ahead, and returns when none is. *)
Lemma repr_no_raise fuel :
  ∀ l, registries_from h l → ∀ e, __repr__ fuel h l ≠ Some (Raise e).
Proof.
  induction fuel as [|fuel IH]; intros l Hreg e; [done|]. simpl.
  destruct (Hreg l) as [items Hitems]; [reflexivity|]. rewrite Hitems.
  assert (∀ e, child_lines (__repr__ fuel h) items ≠ Some (Raise e)) as Hno.
  { apply child_lines_no_raise. intros k c e'' Hin. apply IH.
    eapply registries_from_child; [done|]. by exists items, k. }
  destruct (child_lines (__repr__ fuel h) items) as [[lines|e']|] eqn:Hit; [| |done].
  - apply _operators_dom, elem_of_dom in Hitems as [o ->]. done.
  - by destruct (Hno e').
Qed.

Lemma repr_cycle fuel :
  ∀ l, registries_from h l → (∃ x, reachable h l x ∧ on_cycle h x) →
       __repr__ fuel h l = None.
Proof.
  induction fuel as [|fuel IH]; intros l Hreg (x & Hx & Hcyc); [done|]. simpl.
  destruct (Hreg l) as [items Hitems]; [reflexivity|]. rewrite Hitems.
  assert (∃ c, child_of h l c ∧ reachable h c x) as (c & Hc & Hcx).
  { destruct (rtc_inv _ _ Hx) as [Heq|(y & Hly & Hyx)]; [|by exists y].
    subst x. by apply tc_first. }
  rewrite child_lines_none; [done| |].
  - intros k c' e Hin. apply repr_no_raise. eapply registries_from_child; [done|].
    by exists items, k.
  - destruct Hc as (items' & k & Hitems' & Hin).
    assert (items' = items) as -> by congruence.
    exists k, c. split; [done|]. apply IH.
    + eapply registries_from_child; [done|]. by exists items, k.
    + by exists x.
Qed.

Lemma repr_acyclic fuel :
  ∀ l (anc : gset nat),
    registries_from h l →
    (∀ x, reachable h l x → ¬ on_cycle h x) →
    (∀ a, a ∈ anc → tc (child_of h) a l) →
    size (dom h ∖ anc) < fuel →
    ∃ s, __repr__ fuel h l = Some (Ok s).
Proof.
  induction fuel as [|fuel IH]; intros l anc Hreg Hacyc Hanc Hsize; [lia|]. simpl.
  destruct (Hreg l) as [items Hitems]; [reflexivity|]. rewrite Hitems.
  pose proof (_operators_dom _ _ _ Hitems) as Hdom.
  assert (l ∉ anc) as Hl.
  { intros Hin. apply (Hacyc l); [reflexivity|]. by apply Hanc. }
  destruct (child_lines_ok (__repr__ fuel h) items) as [lines ->].
  - intros k c Hin.
    assert (child_of h l c) as Hc by (by exists items, k).
    apply (IH c ({[l]} ∪ anc)).
    + by eapply registries_from_child.
    + intros x Hx. apply Hacyc. by eapply rtc_l.
    + intros a Ha. apply elem_of_union in Ha as [Ha|Ha].
      * apply elem_of_singleton in Ha as ->. by apply tc_once.
      * eapply tc_r; [by apply Hanc|done].
    + assert (size (dom h ∖ ({[l]} ∪ anc)) < size (dom h ∖ anc)); [|lia].
      apply subset_size. set_solver.
  - apply elem_of_dom in Hdom as [o ->]. by eexists.
Qed.
End repr_facts.

(** * The claims *)

(** ** Traversal *)



(** The instance under the names [x] and [y] is yielded once, under the
    first of them. *)
Example named_operators_shared_child :
  named_operators 4 shared_child 0 ∅ "" true
  = Some (Walk [("", 0); ("x", 1); ("x.leaf", 2)] {[0; 1; 2]} None).
Proof. vm_compute. reflexivity. Qed.


(** C10: with [remove_duplicate] the traversal of any heap, shared and cyclic
    ones included, returns for every fuel above the number of objects that
    the memo does not hold: a node of the memo yields nothing, its subtree
    included, when met again, so no instance is yielded twice. *)
Theorem named_operators_dedup_terminates (h : gmap nat object) (self : nat)
    (memo : gset nat) (prefix : string) (fuel : nat) :
  size (dom h ∖ memo) < fuel →
  ∃ w, named_operators fuel h self memo prefix true = Some w ∧
       (self ∈ memo → w = Walk [] memo None) ∧
       (∀ l, l ∈ memo → l ∉ (yielded w).*2) ∧
       NoDup (yielded w).*2.
Proof.
  intros Hf.
  destruct (named_operators_total h fuel self memo prefix Hf) as [w Hw].
  pose proof (named_operators_walks _ _ _ _ _ _ _ Hw) as Hwalk.
  destruct (proj1 (walks_NoDup h) _ _ _ _ Hwalk) as [Hnd Hfresh].
  exists w. split_and!; [done| | |done].
  - intros Hin. destruct fuel; [lia|]. simpl in Hw.
    rewrite decide_True in Hw by done. congruence.
  - intros l Hl Hy. by apply Hfresh in Hy.
Qed.

(** The traversal of the cycle of two operators, from its start and from the
    point where the first of them is met again. *)
Lemma named_operators_dedup_terminates_witness :
  (∃ w, named_operators 3 two_cycle 0 ∅ "" true = Some w ∧ NoDup (yielded w).*2) ∧
  named_operators 3 two_cycle 0 {[0]} "b.a" true = Some (Walk [] {[0]} None).
Proof.
  split.
  - destruct (named_operators_dedup_terminates two_cycle 0 ∅ "" 3) as (w & Hw & _ & _ & Hnd).
    + vm_compute. lia.
    + by exists w.
  - destruct (named_operators_dedup_terminates two_cycle 0 {[0]} "b.a" 3)
      as (w & Hw & Hseen & _).
    + vm_compute. lia.
    + rewrite Hw, Hseen; [done|]. by apply elem_of_singleton.
Defined.

(** On the cycle the walk stops where it meets [a] again. *)
Example named_operators_two_cycle :
  named_operators 3 two_cycle 0 ∅ "" true
  = Some (Walk [("", 0); ("b", 1)] {[0; 1]} None).
Proof. vm_compute. reflexivity. Qed.

(** Without [remove_duplicate] nothing stops the walk of a cycle. *)
Example named_operators_self_loop_diverges fuel prefix :
  named_operators fuel self_loop 0 ∅ prefix false = None.
Proof.
  revert prefix. induction fuel as [|fuel IH]; intros prefix; [done|].
  cbn [named_operators]. rewrite decide_False by set_solver.
  replace (_operators self_loop 0) with (Ok [("me", Some 0)] : result (list (string * option nat)))
    by (by vm_compute).
  simpl. by rewrite IH.
Qed.



(** Two names for one instance do not make [is_dag] fail; a child named
    ["root"] does, although the tree has no cycle. *)
Example is_dag_shared_child : is_dag shared_child 0 = Ok true.
Proof. vm_compute. reflexivity. Qed.

Example is_dag_child_named_root : is_dag child_named_root 0 = Ok false.
Proof. vm_compute. reflexivity. Qed.

Example is_dag_two_cycle : is_dag two_cycle 0 = Ok true.
Proof. vm_compute. reflexivity. Qed.

(** ** Registration of children *)

(** C6, as amended: assigning an operator to an attribute fails with an
    ownership error when the owner has no registry, and when the name is a
    key of the [__dict__] of the owner that is not a key of its registry;
    the heap, and with it the owner's registry and attributes, is then as
    before.  The assignment fails with an ownership error in these two cases
    only. *)
Theorem setattr_ownership_error (h : gmap nat object) (owner child : nat) (key : string) :
  (uninitialized h owner ∨ non_child_attribute h owner key →
   ∃ e, OwnershipError e ∧ __setattr__ owner key (VOp child) h = (Raise e, h)) ∧
  (∀ e h', __setattr__ owner key (VOp child) h = (Raise e, h') → OwnershipError e →
     h' = h ∧ (uninitialized h owner ∨ non_child_attribute h owner key)).
Proof.
  split.
  - intros [Hu|(items & Hreg & Hkey & Hget)]; unfold __setattr__.
    + rewrite Hu. eexists. split; [|reflexivity]. exact I.
    + rewrite Hreg, bool_decide_eq_true_2 by done.
      unfold odict_mem. rewrite Hget, bool_decide_eq_false_2 by by intros [? ?].
      eexists. split; [|reflexivity]. exact I.
  - intros e h'. unfold __setattr__, uninitialized, non_child_attribute.
    destruct (__dict__ h owner !! "_operators") as [v|] eqn:Hreg.
    2:{ intros [= <- <-] _. split; [done|by left]. }
    destruct v as [| | | | | |items]; try (intros [= <- <-] []).
    destruct (bool_decide (key ∈ dom (__dict__ h owner))) eqn:Hin; simpl; [|done].
    destruct (odict_mem key items) eqn:Hmem; simpl; [done|].
    intros [= <- <-] _. split; [done|]. right. exists items.
    apply bool_decide_eq_true_1 in Hin. split_and!; [done..|].
    unfold odict_mem in Hmem. apply bool_decide_eq_false_1 in Hmem.
    destruct (odict_get key items); [|done]. by destruct Hmem.
Qed.

(** An operator assigned over the plain attribute [n]. *)
Lemma setattr_ownership_error_witness :
  ∃ e, OwnershipError e ∧
       __setattr__ 0 "n" (VOp 1) owner_with_attribute = (Raise e, owner_with_attribute).
Proof.
  apply (proj1 (setattr_ownership_error owner_with_attribute 0 1 "n")). right. exists [].
  split_and!; [by vm_compute|apply (bool_decide_unpack _); by vm_compute|by vm_compute].
Defined.

(** C6, the claim as stated fails: a name that refers to an attribute of the
    owner other than a child is not always refused.  After
    [root.a = c; root.a = 5] the attribute [a] holds 5, and an operator is
    assigned to it without error, because [a] is still a key of the
    registry; and on an instance of a class that defines [forward], an
    operator is assigned to [forward] without error, because the method is
    no key of the [__dict__] of the instance. *)
Lemma setattr_accepts_non_child_names :
  (__dict__ stale_child 0 !! "a" = Some (VInt 5) ∧
   match __setattr__ 0 "a" (VOp 2) stale_child with
   | (Ok (), h') => _operators h' 0 = Ok [("a", Some 2)] ∧ __dict__ h' 0 !! "a" = Some (VOp 2)
   | (Raise _, _) => False
   end) ∧
  (forward no_functions abc_owner 0 = Some abc_forward ∧
   match __setattr__ 0 "forward" (VOp 1) abc_owner with
   | (Ok (), h') => _operators h' 0 = Ok [("forward", Some 1)] ∧
                    __dict__ h' 0 !! "forward" = Some (VOp 1)
   | (Raise _, _) => False
   end).
Proof. vm_compute. split_and!; reflexivity. Qed.

Example setattr_before_init :
  __setattr__ 0 "child" (VOp 1) bare_owner
  = (Raise (AttributeError "cannot assign operator before Operator.__init__() call"),
     bare_owner).
Proof. vm_compute. reflexivity. Qed.

Example setattr_over_attribute :
  __setattr__ 0 "n" (VOp 1) owner_with_attribute
  = (Raise (KeyError "attribute 'n' already exists"), owner_with_attribute).
Proof. vm_compute. reflexivity. Qed.

(** A child may be assigned again under its name. *)
Example setattr_over_child :
  (__setattr__ 0 "a" (VOp 0) one_child).1 = Ok ().
Proof. vm_compute. reflexivity. Qed.

(** ** Invocation *)

(** C4, where the code departs from the claim: on a node whose [forward]
    declares [a], [b] and [c], the call with the positional arguments 1 and 2
    and the named argument [c = 3] raises [TypeError] while it binds [c];
    [forward], which would return 6 on the mapping [{a: 1, b: 2, c: 3}], is
    not reached.  The three arguments given by position do reach it. *)
Theorem call_named_argument_raises :
  inputs no_functions abc_node 0 = Ok ["a"; "b"; "c"] ∧
  __call__ no_functions abc_node 0 [VInt 1; VInt 2] [("c", VInt 3)]
  = Raise (TypeError "list indices must be integers or slices, not str") ∧
  fn_body abc_forward [("a", VInt 1); ("b", VInt 2); ("c", VInt 3)] = Ok (VInt 6) ∧
  __call__ no_functions abc_node 0 [VInt 1; VInt 2; VInt 3] [] = Ok (VInt 6).
Proof. split_and!; vm_compute; reflexivity. Qed.

(** C5, as amended: on a node that passes the [is_dag] assertion and whose
    [forward] has the inputs [ins], a call whose number of positional and
    named arguments differs from the number of inputs raises the [ValueError]
    of the check when [_type_check_] is true or absent; when [_type_check_]
    is false the call is the binding of the arguments and the call of
    [forward], with no comparison of the two numbers. *)
Theorem call_arity_check (fenv : string → option pyfun) (h : gmap nat object)
    (self : nat) (args : list value) (kwargs : list (string * value)) (ins : list string) :
  is_dag h self = Ok true →
  inputs fenv h self = Ok ins →
  let _type_check_ := truthy (default (VBool true) (odict_get "_type_check_" kwargs)) in
  let named := odict_del "_type_check_" kwargs in
  (_type_check_ = true → length args + length named ≠ length ins →
     __call__ fenv h self args kwargs
     = Raise (ValueError (arity_message ins (length args + length named)))) ∧
  (_type_check_ = false →
     __call__ fenv h self args kwargs = bind_and_forward fenv h self ins args named).
Proof.
  intros Hdag Hin. unfold __call__. rewrite Hdag. simpl. rewrite Hin. simpl. split.
  - intros -> Hne. apply Nat.eqb_neq in Hne. by rewrite Hne.
  - by intros ->.
Qed.

(** Two arguments for the three inputs of [abc_forward], with and without
    the check. *)
Lemma call_arity_check_witness :
  __call__ no_functions abc_node 0 [VInt 1; VInt 2] []
  = Raise (ValueError (arity_message ["a"; "b"; "c"] 2)) ∧
  __call__ no_functions abc_node 0 [VInt 1; VInt 2] [("_type_check_", VBool false)]
  = bind_and_forward no_functions abc_node 0 ["a"; "b"; "c"] [VInt 1; VInt 2] [].
Proof.
  split.
  - apply (call_arity_check no_functions abc_node 0 [VInt 1; VInt 2] [] ["a"; "b"; "c"]);
      [vm_compute; reflexivity..|simpl; lia].
  - apply (call_arity_check no_functions abc_node 0 [VInt 1; VInt 2]
             [("_type_check_", VBool false)] ["a"; "b"; "c"]);
      vm_compute; reflexivity.
Defined.

(** Two arguments for three inputs: refused by the check, and without the
    check passed on to [forward], which misses [c]. *)
Example call_two_of_three :
  __call__ no_functions abc_node 0 [VInt 1; VInt 2] []
  = Raise (ValueError "Number of arguments (3) does not match number of inputs (2)").
Proof. vm_compute. reflexivity. Qed.

Example call_two_of_three_unchecked :
  __call__ no_functions abc_node 0 [VInt 1; VInt 2] [("_type_check_", VBool false)]
  = Raise (TypeError "forward() missing required arguments").
Proof. vm_compute. reflexivity. Qed.

(** C5, the claim as stated fails: the assertion comes before the check, so
    one argument for a [forward] without inputs, on a node with a child
    named ["root"], raises [AssertionError] and not the [ValueError] of the
    check. *)
Lemma call_label_collision :
  __call__ no_functions child_named_root 0 [VInt 1] [] = Raise (AssertionError "").
Proof. vm_compute. reflexivity. Qed.

(** ** Export and import *)

(** C9, as amended: when neither [comms()] nor the caller's overrides set a
    field that the export computes or fixes, and the class text or the
    constructor text is not empty, the export returns a task whose [doc_rst]
    is the class text, a newline and the constructor text, an absent text
    counting as empty. *)
Theorem to_airflow_operator_doc_rst (operator : object) (timeout : option Z)
    (operator_kwargs : gmap string kwvalue) :
  dom (metadata operator operator_kwargs) ## reserved_kwargs →
  default "" (cls_doc (ob_class operator)) ≠ ""
    ∨ default "" (cls_init_doc (ob_class operator)) ≠ "" →
  ∃ task,
    to_airflow_operator operator timeout operator_kwargs = Ok task ∧
    air_kwargs task !! "doc_rst"
    = Some (KStr (default "" (cls_doc (ob_class operator)) ++ newline
                  ++ default "" (cls_init_doc (ob_class operator)))).
Proof.
  intros Hdis _.
  destruct (to_airflow_operator_spec operator timeout operator_kwargs Hdis)
    as (task & Hrun & _ & _ & _ & _ & Hdoc).
  exists task. split; [done|]. by rewrite Hdoc, full_doc_joined.
Qed.

(** The export of a node of the documented class. *)
Lemma to_airflow_operator_doc_rst_witness :
  ∃ task,
    to_airflow_operator (Object documented ∅) None ∅ = Ok task ∧
    air_kwargs task !! "doc_rst"
    = Some (KStr (default "" (cls_doc documented) ++ newline
                  ++ default "" (cls_init_doc documented))).
Proof.
  apply (to_airflow_operator_doc_rst (Object documented ∅) None ∅).
  - apply (bool_decide_unpack _). by vm_compute.
  - left. discriminate.
Defined.

(** C9, the claim as stated fails: the two texts are joined by a newline,
    and with both texts empty the field is that newline, not [None]. *)
Lemma to_airflow_operator_doc_rst_newline :
  match to_airflow_operator (Object documented ∅) None ∅,
        to_airflow_operator (Object plain ∅) None ∅ with
  | Ok documented_task, Ok plain_task =>
      air_kwargs documented_task !! "doc_rst" = Some (KStr ("A" ++ newline ++ "B")) ∧
      "A" ++ newline ++ "B" ≠ "A" ++ "B" ∧
      air_kwargs plain_task !! "doc_rst" = Some (KStr newline) ∧
      KStr newline ≠ KNone
  | _, _ => False
  end.
Proof. vm_compute. split_and!; [reflexivity|discriminate|reflexivity|discriminate]. Qed.

(** The overrides of the caller win over the computed documentation. *)
Example to_airflow_operator_doc_rst_override :
  match to_airflow_operator (Object documented ∅) None {[ "doc_rst" := KStr "mine" ]} with
  | Ok task => air_kwargs task !! "doc_rst" = Some (KStr "mine")
  | Raise _ => False
  end.
Proof. vm_compute. reflexivity. Qed.

(** C8, where the code departs from the claim: the single-task import
    refuses the supported kind with the message that only that kind is
    supported, and imports a task of another kind; the import of a task group
    does refuse the other kind. *)
Theorem from_airflow_operator_guard_inverted :
  from_airflow_operator plain (python_task "A" "fA" []) ∅
  = (Raise (AssertionError "Only PythonOperator is supported at the moment"), ∅) ∧
  (from_airflow_operator plain (branch_task "A" "fA") ∅).1 = Ok 0 ∧
  from_airflow_dag plain (single_dag (branch_task "A" "fA")) ∅
  = (Raise (Exception "Only PythonOperator is supported at the moment"), ∅).
Proof. split_and!; by vm_compute. Qed.

(** C1, as amended: the export of a node returns a task that has the class
    name of the node as [task_id], but is of the base kind and carries no
    callable, so that the import of it as a task group is refused; the import
    of a task of the supported kind with that [task_id], a callable and no
    upstream returns a root whose registry holds one child, named after the
    root and the [task_id], whose [forward] is that callable. *)
Theorem export_then_import (operator : object) (timeout : option Z)
    (operator_kwargs : gmap string kwvalue) (operator_cls : pyclass) (f : string)
    (h : gmap nat object) :
  dom (metadata operator operator_kwargs) ## reserved_kwargs →
  cls_base_init operator_cls = true →
  ∃ task,
    to_airflow_operator operator timeout operator_kwargs = Ok task ∧
    task_id task = cls_name (ob_class operator) ∧
    air_class task = "BaseOperator" ∧
    python_callable task = None ∧
    from_airflow_dag operator_cls (single_dag task) h
    = (Raise (Exception "Only PythonOperator is supported at the moment"), h) ∧
    ∃ root child h',
      from_airflow_dag operator_cls (single_dag (python_task (task_id task) f [])) h
      = (Ok root, h') ∧
      _operators h' root = Ok [(op_name "root" (task_id task), Some child)] ∧
      __dict__ h' child !! "forward" = Some (VFun f).
Proof.
  intros Hdis Hinit.
  destruct (to_airflow_operator_spec operator timeout operator_kwargs Hdis)
    as (task & Hrun & Hcls & Hid & Hcall & _ & _).
  exists task. split_and!; [done..| |].
  { apply from_airflow_dag_unsupported. exists task.
    split; [by apply list_elem_of_singleton|]. by rewrite Hcls. }
  set (dag := single_dag (python_task (task_id task) f [])).
  destruct (from_airflow_dag_ops_returns operator_cls dag h Hinit (importable_single _ _))
    as (root & all_ops & h' & Hops).
  pose proof (from_airflow_dag_ops_spec operator_cls dag h) as Hspec.
  rewrite Hops in Hspec.
  destruct Hspec as (topo & Htopo & _ & _ & Hroot & _ & Hfwd & _ & Hreg).
  injection Htopo as <-.
  destruct (Hroot (task_id task)) as (child & Hchild & _); [by apply list_elem_of_singleton|].
  exists root, child, h'. split_and!.
  - by eapply from_airflow_dag_of_ops.
  - rewrite (Hreg Hinit). unfold root_registry. simpl. by rewrite Hchild.
  - eapply Hfwd; [done|apply lookup_singleton_eq|done].
Qed.

(** The export of a node of the class [Abc], and the import of a task with
    its name. *)
Lemma export_then_import_witness :
  ∃ task,
    to_airflow_operator (Object abc ∅) None ∅ = Ok task ∧
    task_id task = cls_name (ob_class (Object abc ∅)) ∧
    air_class task = "BaseOperator" ∧
    python_callable task = None ∧
    from_airflow_dag plain (single_dag task) ∅
    = (Raise (Exception "Only PythonOperator is supported at the moment"), ∅) ∧
    ∃ root child h',
      from_airflow_dag plain (single_dag (python_task (task_id task) "abc_forward" [])) ∅
      = (Ok root, h') ∧
      _operators h' root = Ok [(op_name "root" (task_id task), Some child)] ∧
      __dict__ h' child !! "forward" = Some (VFun "abc_forward").
Proof.
  apply (export_then_import (Object abc ∅) None ∅ plain "abc_forward" ∅).
  - apply (bool_decide_unpack _). vm_compute. exact I.
  - reflexivity.
Defined.

(** C1, the claim as stated fails: the task exported from a node with a
    [forward] has no callable; the import of it as a task group is refused,
    and the import of it as a single task stops at the missing
    [python_callable].  Neither returns a root with a child. *)
Lemma export_then_import_fails :
  match to_airflow_operator (Object abc ∅) None ∅ with
  | Ok task =>
      task_id task = "Abc" ∧
      python_callable task = None ∧
      (from_airflow_dag plain (single_dag task) ∅).1
      = Raise (Exception "Only PythonOperator is supported at the moment") ∧
      (from_airflow_operator plain task ∅).1 = Raise (AttributeError "python_callable")
  | Raise _ => False
  end.
Proof. vm_compute. split_and!; reflexivity. Qed.

(** C2: every import of a task group that returns leaves a heap in which,
    for every pair (child, parents) of the dependency table, the operator of
    the child is registered in the operator of each parent under
    [op__{parent}__{child}], and the operator of every task without parents
    is registered in the root under [op__root__{task_id}]; and the import
    does return when the tasks are [PythonOperator]s with a callable and the
    operator class runs [Operator.__init__].  On [{A: [], B: [A], C: [A]}]
    the root has the one child [op__root__A], which has the two children
    [op__A__B] and [op__A__C], whose forwards are the callables of [B] and of
    [C], and [is_dag] of the root is true. *)
Theorem from_airflow_dag_attaches (operator_cls : pyclass) (dag : air_dag)
    (h : gmap nat object) :
  (cls_base_init operator_cls = true → importable dag →
   ∃ root all_ops h',
     from_airflow_dag_ops operator_cls dag h = (Ok (root, all_ops), h')) ∧
  (∀ root all_ops h',
     from_airflow_dag_ops operator_cls dag h = (Ok (root, all_ops), h') →
     ∃ topo_tree,
       topo_tree_of (task_group dag) [] = Ok topo_tree ∧
       from_airflow_dag operator_cls dag h = (Ok root, h') ∧
       (∀ child parents p, (child, parents) ∈ topo_tree → p ∈ parents →
          ∃ lp lc, all_ops !! p = Some lp ∧ all_ops !! child = Some lc ∧
                   attached h' lp (op_name p child) lc) ∧
       (∀ child, (child, []) ∈ topo_tree →
          ∃ lc, all_ops !! child = Some lc ∧
                attached h' root (op_name "root" child) lc)) ∧
  (let r := from_airflow_dag plain dag_ABC ∅ in
   r.1 = Ok 0 ∧
   _operators r.2 0 = Ok [("op__root__A", Some 1)] ∧
   _operators r.2 1 = Ok [("op__A__B", Some 2); ("op__A__C", Some 3)] ∧
   _operators r.2 2 = Ok [] ∧
   _operators r.2 3 = Ok [] ∧
   __dict__ r.2 1 !! "forward" = Some (VFun "fA") ∧
   __dict__ r.2 2 !! "forward" = Some (VFun "fB") ∧
   __dict__ r.2 3 !! "forward" = Some (VFun "fC") ∧
   is_dag r.2 0 = Ok true).
Proof.
  split_and!.
  - apply from_airflow_dag_ops_returns.
  - intros root all_ops h' Hops.
    pose proof (from_airflow_dag_ops_spec operator_cls dag h) as Hspec.
    rewrite Hops in Hspec. destruct Hspec as (topo & Htopo & _ & Hatt & Hroot & _).
    exists topo. split_and!; [done|by eapply from_airflow_dag_of_ops| |done].
    intros child parents p Hc Hp. apply Hatt.
    unfold edges_of. apply list_elem_of_bind. exists (child, parents). split; [|done].
    simpl. apply list_elem_of_fmap. by exists p.
  - vm_compute. split_and!; reflexivity.
Qed.

(** The import of the diamond [{A: [], B: [A], C: [A], D: [B, C]}]. *)
Lemma from_airflow_dag_attaches_witness :
  ∃ root all_ops h' topo_tree,
    from_airflow_dag_ops plain dag_diamond ∅ = (Ok (root, all_ops), h') ∧
    topo_tree_of (task_group dag_diamond) [] = Ok topo_tree ∧
    from_airflow_dag plain dag_diamond ∅ = (Ok root, h') ∧
    (∀ child parents p, (child, parents) ∈ topo_tree → p ∈ parents →
       ∃ lp lc, all_ops !! p = Some lp ∧ all_ops !! child = Some lc ∧
                attached h' lp (op_name p child) lc) ∧
    (∀ child, (child, []) ∈ topo_tree →
       ∃ lc, all_ops !! child = Some lc ∧
             attached h' root (op_name "root" child) lc).
Proof.
  destruct (from_airflow_dag_attaches plain dag_diamond ∅) as (Hret & Hatt & _).
  destruct Hret as (root & all_ops & h' & Hops).
  - reflexivity.
  - apply importable_computed. vm_compute. reflexivity.
  - destruct (Hatt root all_ops h' Hops) as (topo & Htopo & Hrun & Hedges & Hroot).
    exists root, all_ops, h', topo. split_and!; assumption.
Defined.

(** The traversal of the imported tree of [{A: [], B: [A], C: [A]}]. *)
Example from_airflow_dag_ABC_paths :
  yielded <$> named_operators 5 (from_airflow_dag plain dag_ABC ∅).2 0 ∅ "" true
  = Some [("", 0); ("op__root__A", 1); ("op__root__A.op__A__B", 2);
          ("op__root__A.op__A__C", 3)].
Proof. vm_compute. reflexivity. Qed.

(** In the diamond the operator of [D] is a child of two parents; the
    traversal yields it once, under the first path. *)
Example from_airflow_dag_diamond_paths :
  yielded <$> named_operators 6 (from_airflow_dag plain dag_diamond ∅).2 0 ∅ "" true
  = Some [("", 0); ("op__root__A", 1); ("op__root__A.op__A__B", 2);
          ("op__root__A.op__A__B.op__B__D", 4); ("op__root__A.op__A__C", 3)].
Proof. vm_compute. reflexivity. Qed.

(** A task that is first met as a parent needs no callable: the import
    returns, and leaves its operator without a forward of its own. *)
Example from_airflow_dag_parent_without_callable :
  let A := {| air_class := "PythonOperator"; task_id := "A"; python_callable := None;
              upstream := []; air_kwargs := ∅ |} in
  let B := python_task "B" "fB" ["A"] in
  let r := from_airflow_dag plain
             {| task_group := [B; A]; task_dict := list_to_map [("A", A); ("B", B)] |} ∅ in
  r.1 = Ok 0 ∧ __dict__ r.2 2 !! "forward" = None ∧
  _operators r.2 2 = Ok [("op__A__B", Some 1)].
Proof. vm_compute. split_and!; reflexivity. Qed.

(** * Further properties *)

(** ** Traversal *)



(** X2: the prefix changes the names and nothing else.  For every prefix the
    traversal yields the instances, leaves the memo and stops on the
    exception of the traversal with the empty prefix, and needs more fuel
    exactly when that one does; and every name it yields starts with the
    prefix. *)
Theorem named_operators_prefix (fuel : nat) (h : gmap nat object) (self : nat)
    (memo : gset nat) (prefix : string) (rd : bool) :
  unnamed <$> named_operators fuel h self memo prefix rd
  = unnamed <$> named_operators fuel h self memo "" rd ∧
  ∀ w, named_operators fuel h self memo prefix rd = Some w →
       ∀ name, name ∈ (yielded w).*1 → ∃ s, name = prefix ++ s.
Proof.
  split; [apply named_operators_unnamed|].
  intros w Hw. apply named_operators_walks in Hw.
  by apply (proj1 (walks_names_prefixed h rd) _ _ _ _ Hw).
Qed.

(** The heap in which one instance has two names, under the prefix [net]. *)
Lemma named_operators_prefix_witness :
  unnamed <$> named_operators 4 shared_child 0 ∅ "net" true
  = unnamed <$> named_operators 4 shared_child 0 ∅ "" true ∧
  ∀ w, named_operators 4 shared_child 0 ∅ "net" true = Some w →
       ∀ name, name ∈ (yielded w).*1 → ∃ s, name = "net" ++ s.
Proof. apply (named_operators_prefix 4 shared_child 0 ∅ "net" true). Defined.

(** X3: [remove_duplicate] matters only where an instance is met twice: a
    traversal without it that returns, having yielded no instance twice,
    yields what the traversal with it yields, names included, and stops on
    the same exception. *)
Theorem remove_duplicate_only_matters_for_repeats (fuel : nat) (h : gmap nat object)
    (self : nat) (prefix : string) (w : walk) :
  named_operators fuel h self ∅ prefix false = Some w →
  NoDup (yielded w).*2 →
  ∃ w', (∀ fuel', size (dom h) < fuel' →
           named_operators fuel' h self ∅ prefix true = Some w') ∧
        yielded w' = yielded w ∧ raised w' = raised w.
Proof.
  intros Hw Hnd.
  pose proof (named_operators_dedup_same h fuel self prefix w Hw Hnd ∅) as Hsame.
  destruct (named_operators_dedup_run h self ∅ prefix) as [w' Hw'].
  rewrite difference_empty_L in Hw'.
  exists w'. split; [done|].
  assert (named_operators (fuel + S (size (dom h))) h self ∅ prefix true = Some w') as H1.
  { apply Hw'. lia. }
  rewrite (named_operators_fuel_le fuel _ _ _ _ _ _ _ (Nat.le_add_r _ _) (Hsame ltac:(set_solver)))
    in H1.
  by injection H1 as <-.
Qed.

(** The root with one child, traversed without [remove_duplicate]. *)
Lemma remove_duplicate_only_matters_for_repeats_witness :
  ∃ w', (∀ fuel', size (dom one_child) < fuel' →
           named_operators fuel' one_child 0 ∅ "" true = Some w') ∧
        yielded w' = [("", 0); ("a", 1)] ∧ raised w' = None.
Proof.
  apply (remove_duplicate_only_matters_for_repeats 3 one_child 0 ""
           (Walk [("", 0); ("a", 1)] ∅ None)).
  - vm_compute. reflexivity.
  - apply (bool_decide_unpack _). vm_compute. exact I.
Defined.





(** ** Registration of children *)

(** X6: assigning an operator under a name other than [_operators] that is no
    attribute of the owner yet, or names one of its children already, is
    done: the registry of the owner maps the name to the operator and so
    does [__dict__]; every other name keeps its entry; a name that was
    registered keeps its place in the registration order and a new one goes
    last; the other objects are untouched. *)
Theorem setattr_registers (h : gmap nat object) (owner child : nat) (key : string)
    (items : list (string * option nat)) :
  __dict__ h owner !! "_operators" = Some (VODict items) →
  key ≠ "_operators" →
  (key ∈ dom (__dict__ h owner) → odict_mem key items = true) →
  ∃ h' items',
    __setattr__ owner key (VOp child) h = (Ok (), h') ∧
    _operators h' owner = Ok items' ∧
    odict_get key items' = Some (Some child) ∧
    (∀ k, k ≠ key → odict_get k items' = odict_get k items) ∧
    items'.*1 = (if odict_mem key items then items.*1 else (items.*1 ++ [key])%list) ∧
    __dict__ h' owner !! key = Some (VOp child) ∧
    (∀ l, l ≠ owner → h' !! l = h !! l).
Proof.
  intros Hreg Hkey Hfree. unfold __setattr__. rewrite Hreg.
  assert (bool_decide (key ∈ dom (__dict__ h owner)) && negb (odict_mem key items) = false)
    as ->.
  { destruct (bool_decide (key ∈ dom (__dict__ h owner))) eqn:Hin; [|done].
    apply bool_decide_eq_true_1 in Hin. by rewrite (Hfree Hin). }
  pose proof (registry_dom _ _ _ Hreg) as Hdom.
  eexists. exists (odict_set key (Some child) items). split; [reflexivity|]. split_and!.
  - unfold _operators. rewrite dict_alter_eq by done.
    by rewrite lookup_insert_ne, lookup_insert_eq by done.
  - rewrite odict_get_set. by rewrite decide_True.
  - intros k Hk. rewrite odict_get_set. by rewrite decide_False.
  - apply odict_set_keys.
  - rewrite dict_alter_eq by done. apply lookup_insert_eq.
  - intros l Hl. by rewrite lookup_alter_ne.
Qed.

(** The child of [one_child] replaced under its name, by the root itself. *)
Lemma setattr_registers_witness :
  ∃ h' items',
    __setattr__ 0 "a" (VOp 0) one_child = (Ok (), h') ∧
    _operators h' 0 = Ok items' ∧
    odict_get "a" items' = Some (Some 0) ∧
    (∀ k, k ≠ "a" → odict_get k items' = odict_get k [("a", Some 1)]) ∧
    items'.*1 = (if odict_mem "a" [("a", Some 1)] then [("a", Some 1)].*1
                 else ([("a", Some 1)].*1 ++ ["a"])%list) ∧
    __dict__ h' 0 !! "a" = Some (VOp 0) ∧
    (∀ l, l ≠ 0 → h' !! l = one_child !! l).
Proof.
  apply (setattr_registers one_child 0 0 "a" [("a", Some 1)]).
  - vm_compute. reflexivity.
  - discriminate.
  - intros _. vm_compute. reflexivity.
Defined.

(** X7: assigning a value that is no operator to an attribute other than
    [_operators] is always done and changes no registry, also when the
    attribute is the name of a child: [__dict__] then holds the value and
    the registry still holds the child.  When the attribute is not
    [named_operators] either, whose value would stand in the place of the
    method, every traversal is what it was, so it still yields the child. *)
Theorem setattr_value_keeps_registry (h : gmap nat object) (owner : nat) (key : string)
    (v : value) :
  (∀ c, v ≠ VOp c) →
  key ≠ "_operators" →
  ∃ h',
    __setattr__ owner key v h = (Ok (), h') ∧
    (owner ∈ dom h → __dict__ h' owner !! key = Some v) ∧
    (∀ l, _operators h' l = _operators h l) ∧
    (key ≠ "named_operators" →
     ∀ fuel self memo prefix rd,
       named_operators fuel h' self memo prefix rd
       = named_operators fuel h self memo prefix rd).
Proof.
  intros Hv Hkey.
  assert (__setattr__ owner key v h
          = (Ok (), alter (set_dict (<[key := v]> (__dict__ h owner))) owner h)) as Hrun.
  { unfold __setattr__. destruct v; try done. by destruct (Hv l). }
  eexists. split; [exact Hrun|].
  assert (∀ l, _operators (alter (set_dict (<[key := v]> (__dict__ h owner))) owner h) l
               = _operators h l) as Hreg.
  { intros l. unfold _operators. destruct (decide (l = owner)) as [->|Hne].
    - destruct (decide (owner ∈ dom h)) as [Hdom|Hdom].
      + by rewrite dict_alter_eq, lookup_insert_ne by done.
      + unfold __dict__. rewrite lookup_alter_eq.
        apply not_elem_of_dom in Hdom. by rewrite Hdom.
    - by rewrite dict_alter_ne. }
  split_and!; [|done|intros _; by apply named_operators_ext].
  intros Hdom. rewrite dict_alter_eq by done. apply lookup_insert_eq.
Qed.

(** [root.a = 5] over the child [a] of [one_child]. *)
Lemma setattr_value_keeps_registry_witness :
  ∃ h',
    __setattr__ 0 "a" (VInt 5) one_child = (Ok (), h') ∧
    __dict__ h' 0 !! "a" = Some (VInt 5) ∧
    _operators h' 0 = Ok [("a", Some 1)] ∧
    (∀ fuel self memo prefix rd,
       named_operators fuel h' self memo prefix rd
       = named_operators fuel one_child self memo prefix rd).
Proof.
  destruct (setattr_value_keeps_registry one_child 0 "a" (VInt 5))
    as (h' & Hrun & Hattr & Hreg & Hwalk); [discriminate..|].
  exists h'. split_and!.
  - exact Hrun.
  - apply Hattr. apply (bool_decide_unpack _). vm_compute. exact I.
  - rewrite Hreg. vm_compute. reflexivity.
  - apply Hwalk. discriminate.
Defined.

(** ** The printed form *)

(** X8: [_addindent] keeps the first line and puts [numSpaces] spaces before
    every other line, empty ones included; with no spaces, and on a string
    of one line, it changes nothing. *)
Theorem addindent_lines (s : string) (numSpaces : nat) :
  (∃ first rest,
     split_lines s = first :: rest ∧
     split_lines (_addindent s numSpaces) = first :: indented numSpaces rest) ∧
  _addindent s 0 = s ∧
  (one_line s → _addindent s numSpaces = s).
Proof.
  split_and!.
  - destruct (split_lines_cons s) as (first & rest & Hs). exists first, rest.
    split; [done|]. by rewrite split_lines_addindent, Hs.
  - unfold _addindent. pose proof (concat_split_lines s) as Hs.
    destruct (split_lines s) as [|first [|second rest]]; [done..|].
    cbv zeta. rewrite <- Hs.
    replace ((λ line, spaces 0 ++ line) <$> second :: rest) with (second :: rest); [done|].
    symmetry. apply list_fmap_id.
  - intros Hs. unfold _addindent. by rewrite split_lines_one_line.
Qed.

(** X9: the lines of the printed form of an operator whose class name and
    registration names hold no newline.  Without children it is the class
    name and [()].  With children it is the class name and an opening
    bracket, then for every entry of the registry, in registration order,
    the lines of the printed form of the child (of [None] for an entry
    without operator), the first after the label [(name): ] and all of them
    two columns to the right, then the closing bracket. *)
Theorem repr_lines (fuel : nat) (h : gmap nat object) (self : nat) (o : object)
    (items : list (string * option nat)) (s : string) :
  h !! self = Some o →
  _operators h self = Ok items →
  one_line (cls_name (ob_class o)) →
  Forall (λ kv, one_line kv.1) items →
  __repr__ (S fuel) h self = Some (Ok s) →
  ∃ strs,
    Forall2 (λ kv str, match kv.2 with
                       | Some c => __repr__ fuel h c = Some (Ok str)
                       | None => str = "None"
                       end) items strs ∧
    split_lines s
    = match items with
      | [] => [cls_name (ob_class o) ++ "()"]
      | _ => ([(cls_name (ob_class o) ++ "(")%string]
              ++ indented 2 (mjoin (zip_with (λ kv str, labelled kv.1 (split_lines str))
                                      items strs))
              ++ [")"])%list
      end.
Proof.
  intros Ho Hitems Hname Hkeys. simpl. rewrite Hitems, Ho.
  destruct (child_lines (__repr__ fuel h) items) as [[lines|e]|] eqn:Hrun; try done.
  intros [= <-]. destruct (child_lines_inv _ _ _ Hrun) as (strs & Hall & ->).
  exists strs. split; [done|].
  destruct Hall as [|[key module] str items strs Hhead Hall].
  - simpl. unfold main_str. rewrite <- string_app_assoc.
    apply split_lines_one_line, one_line_app; [done|by repeat split].
  - cbn [zip_with]. rewrite split_lines_main_str by done. f_equal. f_equal.
    clear Hhead Hitems Hrun. apply Forall_cons in Hkeys as [Hkey Hkeys]. simpl in Hkey.
    rewrite fmap_cons. cbn [mjoin list_join]. unfold indented at 1.
    rewrite fmap_app. f_equal; [by apply split_lines_block|].
    revert strs Hall. induction items as [|[key' module'] items IH]; intros strs Hall.
    + by inversion Hall.
    + inversion Hall as [|? str' ? strs' _ Hall']; subst.
      apply Forall_cons in Hkeys as [Hkey' Hkeys]. simpl in Hkey'.
      cbn [zip_with]. rewrite !fmap_cons. cbn [mjoin list_join]. rewrite fmap_app.
      f_equal; [by apply split_lines_block|]. by apply IH.
Qed.

(** The root with one child. *)
Lemma repr_lines_witness :
  ∃ strs,
    Forall2 (λ kv str, match kv.2 with
                       | Some c => __repr__ 1 one_child c = Some (Ok str)
                       | None => str = "None"
                       end) [("a", Some 1)] strs ∧
    split_lines ("Plain(" ++ newline ++ "  (a): Plain()" ++ newline ++ ")")
    = (["Plain("] ++ indented 2 (mjoin (zip_with (λ kv str, labelled kv.1 (split_lines str))
                                         [("a", Some 1)] strs))
       ++ [")"])%list.
Proof.
  apply (repr_lines 1 one_child 0
           {| ob_class := plain;
              ob_dict := <["a" := VOp 1]> (<["_operators" := VODict [("a", Some 1)]]>
                                             Operator__init__) |}
           [("a", Some 1)]).
  - vm_compute. reflexivity.
  - vm_compute. reflexivity.
  - simpl. repeat split; discriminate.
  - repeat constructor; discriminate.
  - vm_compute. reflexivity.
Defined.

(** X10: on a heap where every operator that can be reached from [self] has its
    registry, [__repr__] raises nothing, and it returns at some depth of
    recursion exactly when no operator that can be reached from [self] is on
    a cycle of registrations: on such a cycle no depth is enough. *)
Theorem repr_returns_iff_acyclic (h : gmap nat object) (self : nat) :
  registries_from h self →
  ((∃ fuel s, __repr__ fuel h self = Some (Ok s))
   ↔ ∀ x, reachable h self x → ¬ on_cycle h x) ∧
  (∀ fuel e, __repr__ fuel h self ≠ Some (Raise e)).
Proof.
  intros Hreg. split; [split|].
  - intros (fuel & s & Hrun) x Hx Hcyc.
    rewrite (repr_cycle h fuel self Hreg) in Hrun; [done|by exists x].
  - intros Hacyc. exists (S (size (dom h))).
    apply (repr_acyclic h _ self ∅); [done|done|set_solver|].
    rewrite difference_empty_L. lia.
  - intros fuel e. by apply repr_no_raise.
Qed.

(** The heap in which one instance has two names has no cycle. *)
Lemma repr_returns_iff_acyclic_witness :
  ((∃ fuel s, __repr__ fuel shared_child 0 = Some (Ok s))
   ↔ ∀ x, reachable shared_child 0 x → ¬ on_cycle shared_child x) ∧
  (∀ fuel e, __repr__ fuel shared_child 0 ≠ Some (Raise e)).
Proof.
  apply (repr_returns_iff_acyclic shared_child 0).
  unfold registries_from. apply initialized_reachable.
  - vm_compute. reflexivity.
  - apply (bool_decide_unpack _). vm_compute. exact I.
Defined.

(** ** Invocation *)



(** X12: the errors of the binding, on an operator that passes [is_dag], in a
    call that the check of the number of arguments lets through (the numbers
    agree, or [_type_check_] is false): more positional arguments than
    inputs raise [IndexError]; otherwise a named argument raises
    [TypeError], so no named argument reaches [forward]. *)
Theorem call_binding_errors (fenv : string → option pyfun) (h : gmap nat object)
    (self : nat) (ins : list string) (args : list value) (kwargs : list (string * value)) :
  is_dag h self = Ok true →
  inputs fenv h self = Ok ins →
  truthy (default (VBool true) (odict_get "_type_check_" kwargs)) = false
    ∨ length args + length (odict_del "_type_check_" kwargs) = length ins →
  (length ins < length args →
     __call__ fenv h self args kwargs = Raise (IndexError "list index out of range")) ∧
  (length args ≤ length ins → odict_del "_type_check_" kwargs ≠ [] →
     __call__ fenv h self args kwargs
     = Raise (TypeError "list indices must be integers or slices, not str")).
Proof.
  intros Hdag Hin Hpass. unfold __call__. rewrite Hdag. simpl. rewrite Hin. simpl.
  assert (truthy (default (VBool true) (odict_get "_type_check_" kwargs))
          && negb (length args + length (odict_del "_type_check_" kwargs) =? length ins)
          = false) as ->.
  { destruct Hpass as [-> | ->]; [done|]. by rewrite Nat.eqb_refl, andb_false_r. }
  unfold bind_and_forward. split.
  - intros Hlt. by rewrite bind_positional_overflow by (simpl; lia).
  - intros Hle Hne.
    destruct (bind_positional_ok ins args 0 []) as [input_dict ->]; [simpl; lia|]. simpl.
    destruct (odict_del "_type_check_" kwargs) as [|[key v] rest]; [done|].
    by rewrite bind_named_raises.
Qed.

(** Four positional arguments without the check, and one named argument. *)
Lemma call_binding_errors_witness :
  __call__ no_functions abc_node 0 [VInt 1; VInt 2; VInt 3; VInt 4]
    [("_type_check_", VBool false)]
  = Raise (IndexError "list index out of range") ∧
  __call__ no_functions abc_node 0 [VInt 1; VInt 2] [("c", VInt 3)]
  = Raise (TypeError "list indices must be integers or slices, not str").
Proof.
  split.
  - apply (call_binding_errors no_functions abc_node 0 ["a"; "b"; "c"]
             [VInt 1; VInt 2; VInt 3; VInt 4] [("_type_check_", VBool false)]).
    + vm_compute. reflexivity.
    + vm_compute. reflexivity.
    + left. reflexivity.
    + simpl. lia.
  - apply (call_binding_errors no_functions abc_node 0 ["a"; "b"; "c"]
             [VInt 1; VInt 2] [("c", VInt 3)]).
    + vm_compute. reflexivity.
    + vm_compute. reflexivity.
    + right. reflexivity.
    + simpl. lia.
    + discriminate.
Defined.

(** X13: an operator whose class defines no [forward], and that has none as an
    attribute, can not be called: every call raises, and the call without
    arguments of an operator that passes [is_dag] raises the
    [NotImplementedError] of [Operator.forward]. *)
Theorem call_without_forward (fenv : string → option pyfun) (h : gmap nat object)
    (self : nat) (o : object) (args : list value) (kwargs : list (string * value)) :
  h !! self = Some o →
  cls_forward (ob_class o) = None →
  ob_dict o !! "forward" = None →
  ∃ e, __call__ fenv h self args kwargs = Raise e ∧
       (is_dag h self = Ok true → args = [] → odict_del "_type_check_" kwargs = [] →
        e = NotImplementedError "User must implement forward()").
Proof.
  intros Ho Hcls Hattr.
  assert (forward fenv h self = Some Operator_forward) as Hfw.
  { unfold forward, __dict__. by rewrite Ho, Hattr, Hcls. }
  assert (inputs fenv h self = Ok []) as Hin.
  { unfold inputs. by rewrite Hfw. }
  unfold __call__. destruct (is_dag h self) as [[|]|e]; simpl; [|by eexists..].
  rewrite Hin. simpl. unfold bind_and_forward.
  destruct args as [|arg args], (odict_del "_type_check_" kwargs) as [|[key v] rest];
    simpl; rewrite ?andb_false_r, ?Hfw; simpl.
  - by eexists.
  - destruct (truthy _); simpl; by eexists.
  - destruct (truthy _); simpl; by eexists.
  - destruct (truthy _); simpl; by eexists.
Qed.

(** The child of [one_child], an instance of a class without [forward]. *)
Lemma call_without_forward_witness :
  ∃ e, __call__ no_functions one_child 1 [] [] = Raise e ∧
       (is_dag one_child 1 = Ok true → [] = ([] : list value) →
        odict_del "_type_check_" ([] : list (string * value)) = [] →
        e = NotImplementedError "User must implement forward()").
Proof.
  apply (call_without_forward no_functions one_child 1
           {| ob_class := plain; ob_dict := Operator__init__ |}).
  - vm_compute. reflexivity.
  - reflexivity.
  - vm_compute. reflexivity.
Defined.

(** X14: when the attribute [forward] of an operator is a function with no
    parameter named [self], as the callable of an imported task is,
    [inputs] raises the [ValueError] of [list.remove], no call returns, and
    every call of an operator that passes [is_dag] raises that error. *)
Theorem call_forward_without_self (fenv : string → option pyfun) (h : gmap nat object)
    (self : nat) (f : string) (fn : pyfun) (args : list value)
    (kwargs : list (string * value)) :
  __dict__ h self !! "forward" = Some (VFun f) →
  fenv f = Some fn →
  "self" ∉ fn_args fn →
  inputs fenv h self = Raise (ValueError "list.remove(x): x not in list") ∧
  ∃ e, __call__ fenv h self args kwargs = Raise e ∧
       (is_dag h self = Ok true → e = ValueError "list.remove(x): x not in list").
Proof.
  intros Hattr Hf Hself.
  assert (inputs fenv h self = Raise (ValueError "list.remove(x): x not in list")) as Hin.
  { unfold inputs, forward. rewrite Hattr, Hf. by apply list_remove_missing. }
  split; [done|].
  unfold __call__. destruct (is_dag h self) as [[|]|e]; simpl.
  - rewrite Hin. simpl. by eexists.
  - by eexists.
  - by eexists.
Qed.

(** An operator whose [forward] is the function [f(x)]. *)
Lemma call_forward_without_self_witness :
  inputs one_function with_function 0 = Raise (ValueError "list.remove(x): x not in list") ∧
  ∃ e, __call__ one_function with_function 0 [VInt 1] [] = Raise e ∧
       (is_dag with_function 0 = Ok true → e = ValueError "list.remove(x): x not in list").
Proof.
  apply (call_forward_without_self one_function with_function 0 "f"
           {| fn_args := ["x"]; fn_body := λ _, Ok VNone |}).
  - vm_compute. reflexivity.
  - reflexivity.
  - apply (bool_decide_unpack _). vm_compute. exact I.
Defined.

(** ** Export *)

(** X15: when the caller's [operator_kwargs] or the result of [comms()] set one
    of the eleven fields that the export fixes in its call of
    [BaseOperator], the export raises [TypeError]: the keyword is given
    twice. *)
Theorem to_airflow_operator_fixed_field (operator : object) (timeout : option Z)
    (operator_kwargs : gmap string kwvalue) (k : string) :
  k ∈ dom disabled_kwargs →
  k ∈ dom operator_kwargs ∨ k ∈ dom (default ∅ (cls_comms (ob_class operator))) →
  to_airflow_operator operator timeout operator_kwargs
  = Raise (TypeError "got multiple values for keyword argument").
Proof.
  intros Hk Hin. rewrite to_airflow_operator_unfold, decide_False; [done|].
  unfold no_common_key, metadata. rewrite dom_union_L. intros Hdis.
  apply (Hdis k); [|done]. apply elem_of_union. tauto.
Qed.

(** [email] among the arguments of the caller. *)
Lemma to_airflow_operator_fixed_field_witness :
  to_airflow_operator (Object documented ∅) None {[ "email" := KStr "a@b" ]}
  = Raise (TypeError "got multiple values for keyword argument").
Proof.
  apply (to_airflow_operator_fixed_field _ _ _ "email").
  - apply (bool_decide_unpack _). vm_compute. exact I.
  - left. apply (bool_decide_unpack _). vm_compute. exact I.
Defined.

(** X16: the keyword arguments of an exported task, by precedence: what the
    caller gives in [operator_kwargs]; else what [comms()] returns; else
    [sla] and [execution_timeout] are both the timeout, [task_id] is the
    class name and [doc_rst] the documentation.  The fixed fields have their
    fixed values, and a [task_id] string of the caller or of [comms()] is
    the [task_id] of the task. *)
Theorem to_airflow_operator_precedence (operator : object) (timeout : option Z)
    (operator_kwargs : gmap string kwvalue) (task : air_task) :
  to_airflow_operator operator timeout operator_kwargs = Ok task →
  (∀ k v, operator_kwargs !! k = Some v → air_kwargs task !! k = Some v) ∧
  (∀ k v, operator_kwargs !! k = None →
          default ∅ (cls_comms (ob_class operator)) !! k = Some v →
          air_kwargs task !! k = Some v) ∧
  (∀ k v, disabled_kwargs !! k = Some v → air_kwargs task !! k = Some v) ∧
  (∀ k, k = "sla" ∨ k = "execution_timeout" →
        metadata operator operator_kwargs !! k = None →
        air_kwargs task !! k = Some (timedelta timeout)) ∧
  (metadata operator operator_kwargs !! "task_id" = None →
   task_id task = cls_name (ob_class operator)) ∧
  (∀ s, metadata operator operator_kwargs !! "task_id" = Some (KStr s) →
        task_id task = s) ∧
  (metadata operator operator_kwargs !! "doc_rst" = None →
   air_kwargs task !! "doc_rst" = Some (full_doc (ob_class operator))).
Proof.
  intros Hrun. apply to_airflow_operator_inv in Hrun as (Hdis & Hkw & Hid & _).
  rewrite Hkw in Hid. rewrite Hkw. split_and!.
  - intros k v Hk. apply lookup_union_Some_l, lookup_union_Some_l.
    unfold metadata. by apply lookup_union_Some_l.
  - intros k v Hk Hc. apply lookup_union_Some_l, lookup_union_Some_l.
    unfold metadata. by rewrite lookup_union_r.
  - intros k v Hk. rewrite lookup_union_r; [done|].
    apply lookup_union_None. split.
    + apply not_elem_of_dom. intros Hin. apply (Hdis k Hin). by apply elem_of_dom.
    + destruct (computed_kwargs operator timeout !! k) eqn:Hc; [|done].
      exfalso. unfold computed_kwargs in Hc.
      repeat (apply lookup_insert_Some in Hc as [[<- _]|[_ Hc]]; [by vm_compute in Hk|]).
      by rewrite lookup_empty in Hc.
  - intros k Hk Hm. apply lookup_union_Some_l. rewrite lookup_union_r by done.
    destruct Hk as [-> | ->]; by vm_compute.
  - intros Hm. rewrite <- (assoc_L (∪)), lookup_union_r in Hid by done.
    rewrite (lookup_union_Some_l _ _ _ (KStr (cls_name (ob_class operator)))) in Hid.
    + by injection Hid.
    + unfold computed_kwargs. rewrite lookup_insert_ne by done. apply lookup_insert_eq.
  - intros s Hm.
    rewrite (lookup_union_Some_l _ _ _ (KStr s)) in Hid; [by injection Hid|].
    by apply lookup_union_Some_l.
  - intros Hm. apply lookup_union_Some_l. rewrite lookup_union_r by done.
    apply lookup_insert_eq.
Qed.

(** A caller who sets [task_id] and [retries], with a timeout of a minute. *)
Lemma to_airflow_operator_precedence_witness :
  ∃ task,
    to_airflow_operator (Object documented ∅) (Some 60%Z)
      {[ "task_id" := KStr "mine"; "retries" := KStr "3" ]} = Ok task ∧
    air_kwargs task !! "retries" = Some (KStr "3") ∧
    task_id task = "mine" ∧
    air_kwargs task !! "sla" = Some (KTimedelta 60) ∧
    air_kwargs task !! "execution_timeout" = Some (KTimedelta 60) ∧
    air_kwargs task !! "email_on_retry" = Some (KBool false).
Proof.
  destruct (to_airflow_operator (Object documented ∅) (Some 60%Z)
              {[ "task_id" := KStr "mine"; "retries" := KStr "3" ]}) as [task|e] eqn:Hrun;
    [|by vm_compute in Hrun].
  destruct (to_airflow_operator_precedence _ _ _ task Hrun)
    as (Hcaller & _ & Hfixed & Htime & _ & Hid & _).
  exists task. split_and!; [done| | | | |].
  - apply Hcaller. vm_compute. reflexivity.
  - apply Hid. vm_compute. reflexivity.
  - apply (Htime "sla"); [by left|]. vm_compute. reflexivity.
  - apply (Htime "execution_timeout"); [by right|]. vm_compute. reflexivity.
  - apply Hfixed. vm_compute. reflexivity.
Defined.

(** X17: no task that the export returns can be imported:
    [from_airflow_operator] stops at its missing [python_callable], and
    [from_airflow_dag] refuses every DAG whose task group holds it, and
    leaves the heap as it was. *)
Theorem exported_task_is_not_imported (operator : object) (timeout : option Z)
    (operator_kwargs : gmap string kwvalue) (task : air_task) (operator_cls : pyclass)
    (h : gmap nat object) :
  to_airflow_operator operator timeout operator_kwargs = Ok task →
  (from_airflow_operator operator_cls task h).1 = Raise (AttributeError "python_callable") ∧
  ∀ dag, task ∈ task_group dag →
    from_airflow_dag operator_cls dag h
    = (Raise (Exception "Only PythonOperator is supported at the moment"), h).
Proof.
  intros Hrun. apply to_airflow_operator_inv in Hrun as (_ & _ & _ & Hcls & Hcall & _).
  split.
  - unfold from_airflow_operator. rewrite Hcls, decide_True by done.
    unfold get_python_callable. rewrite Hcall. done.
  - intros dag Hin. apply from_airflow_dag_unsupported. exists task. by rewrite Hcls.
Qed.

(** The export of a node of the class [Abc]. *)
Lemma exported_task_is_not_imported_witness :
  ∃ task,
    to_airflow_operator (Object abc ∅) None ∅ = Ok task ∧
    (from_airflow_operator plain task ∅).1 = Raise (AttributeError "python_callable") ∧
    from_airflow_dag plain (single_dag task) ∅
    = (Raise (Exception "Only PythonOperator is supported at the moment"), ∅).
Proof.
  destruct (to_airflow_operator (Object abc ∅) None ∅) as [task|e] eqn:Hrun;
    [|by vm_compute in Hrun].
  destruct (exported_task_is_not_imported _ _ _ task plain ∅ Hrun) as [Hone Hgroup].
  exists task. split_and!; [done|done|].
  apply Hgroup. apply list_elem_of_singleton. reflexivity.
Defined.

(** ** Import *)

(** X18: what [from_airflow_operator] does, task by task.  A [PythonOperator]
    is refused with [AssertionError], the heap as it was.  A task of another
    class without [python_callable] stops the import with
    [AttributeError].  A task of another class with a callable gives a new
    instance of the operator class whose [forward] is that callable.  In
    each case the objects that the heap held are as they were. *)
Theorem from_airflow_operator_cases (operator_cls : pyclass) (air_operator : air_task)
    (h : gmap nat object) :
  (air_class air_operator = "PythonOperator" →
   from_airflow_operator operator_cls air_operator h
   = (Raise (AssertionError "Only PythonOperator is supported at the moment"), h)) ∧
  (air_class air_operator ≠ "PythonOperator" → python_callable air_operator = None →
   (from_airflow_operator operator_cls air_operator h).1
   = Raise (AttributeError "python_callable")) ∧
  (∀ f, air_class air_operator ≠ "PythonOperator" → python_callable air_operator = Some f →
     ∃ h', from_airflow_operator operator_cls air_operator h = (Ok (fresh (dom h)), h') ∧
           (fresh (dom h) ∉ dom h) ∧
           kept h h' ∧
           ob_class <$> h' !! fresh (dom h) = Some operator_cls ∧
           __dict__ h' (fresh (dom h)) !! "forward" = Some (VFun f)) ∧
  kept h (from_airflow_operator operator_cls air_operator h).2.
Proof.
  assert (∀ o, kept h (<[fresh (dom h) := o]> h)) as Hkept.
  { intros o l o' Hl. rewrite lookup_insert_ne; [done|].
    intros <-. apply (is_fresh (dom h)), elem_of_dom. by exists o'. }
  assert (∀ o f, kept h (alter f (fresh (dom h)) (<[fresh (dom h) := o]> h))) as Hkept'.
  { intros o f l o' Hl. rewrite lookup_alter_ne; [by apply Hkept|].
    intros <-. apply (is_fresh (dom h)), elem_of_dom. by exists o'. }
  unfold from_airflow_operator. split_and!.
  - intros Hc. by rewrite decide_False by (by intros []).
  - intros Hc Hf. rewrite decide_True by done.
    unfold new, get_python_callable, mbind, M_bind. by rewrite Hf.
  - intros f Hc Hf. rewrite decide_True by done.
    unfold new, get_python_callable, _register_forward, __setattr__, mbind, M_bind, mret,
      M_ret.
    rewrite Hf. simpl. eexists. split; [reflexivity|]. split_and!.
    + apply is_fresh.
    + apply Hkept'.
    + by rewrite lookup_alter_eq, lookup_insert_eq.
    + unfold __dict__. rewrite lookup_alter_eq, !lookup_insert_eq. simpl.
      by rewrite lookup_insert_eq.
  - case_decide as Hc; [|by intros l o].
    unfold new, get_python_callable, _register_forward, __setattr__, mbind, M_bind, mret,
      M_ret.
    destruct (python_callable air_operator); simpl; [apply Hkept'|apply Hkept].
Qed.

(** A [PythonOperator] and a [BranchPythonOperator] with the same callable. *)
Lemma from_airflow_operator_cases_witness :
  from_airflow_operator plain (python_task "A" "fA" []) ∅
  = (Raise (AssertionError "Only PythonOperator is supported at the moment"), ∅) ∧
  ∃ h', from_airflow_operator plain (branch_task "A" "fA") ∅ = (Ok (fresh (dom (∅ : gmap nat object))), h') ∧
        __dict__ h' (fresh (dom (∅ : gmap nat object))) !! "forward" = Some (VFun "fA").
Proof.
  destruct (from_airflow_operator_cases plain (python_task "A" "fA" []) ∅) as (Hpy & _).
  destruct (from_airflow_operator_cases plain (branch_task "A" "fA") ∅)
    as (_ & _ & Hother & _).
  split; [by apply Hpy|].
  destruct (Hother "fA") as (h' & Hrun & _ & _ & _ & Hfw); [discriminate|reflexivity|].
  exists h'. split; assumption.
Defined.

(** X19: [from_airflow_dag] raises the [Exception] of its guard exactly when a
    task of the group is of another class than [PythonOperator]; it has
    then made no object; and every other exception of the import is an
    [AttributeError], a [KeyError] or a [TypeError]. *)
Theorem from_airflow_dag_guard (operator_cls : pyclass) (dag : air_dag)
    (h : gmap nat object) :
  ((from_airflow_dag operator_cls dag h).1
   = Raise (Exception "Only PythonOperator is supported at the moment")
   ↔ ∃ t, t ∈ task_group dag ∧ air_class t ≠ "PythonOperator") ∧
  ((∃ t, t ∈ task_group dag ∧ air_class t ≠ "PythonOperator") →
   (from_airflow_dag operator_cls dag h).2 = h) ∧
  (∀ e, (from_airflow_dag operator_cls dag h).1 = Raise e →
        e = Exception "Only PythonOperator is supported at the moment" ∨ lookup_error e).
Proof.
  destruct (from_airflow_dag_run operator_cls dag h) as [_ Hres].
  destruct (topo_tree_of_result (task_group dag) []) as [[topo Htopo]|Hraise].
  - assert (¬ ∃ t, t ∈ task_group dag ∧ air_class t ≠ "PythonOperator") as Hnone.
    { intros Hbad. apply (topo_tree_of_unsupported _ []) in Hbad. congruence. }
    rewrite (from_airflow_dag_ops_tail _ _ _ _ Htopo) in Hres.
    destruct (triple_import_tail ∅ (λ _, True) (λ _ _, empty_subseteq _)
                (λ _ _ _ _ _, I) (λ _ _ _ _ _, I) operator_cls dag topo h I) as [_ Hpost].
    destruct (_ ≫= _) as [[r|e] h']; simpl in *.
    + rewrite Hres. split_and!; [split; [done|by intros ?%Hnone]|by intros ?%Hnone|done].
    + rewrite Hres. split_and!.
      * split; [|by intros ?%Hnone]. intros [= ->]. done.
      * by intros ?%Hnone.
      * intros e' [= <-]. by right.
  - pose proof (proj2 (topo_tree_of_unsupported _ _) Hraise) as Hbad.
    rewrite (from_airflow_dag_unsupported _ _ _ Hbad). simpl.
    split_and!; [done|done|]. intros e [= <-]. by left.
Qed.

(** The DAG of one [BranchPythonOperator]. *)
Lemma from_airflow_dag_guard_witness :
  (from_airflow_dag plain (single_dag (branch_task "A" "fA")) ∅).1
  = Raise (Exception "Only PythonOperator is supported at the moment") ∧
  (from_airflow_dag plain (single_dag (branch_task "A" "fA")) ∅).2 = ∅.
Proof.
  destruct (from_airflow_dag_guard plain (single_dag (branch_task "A" "fA")) ∅)
    as (Hiff & Hheap & _).
  assert (∃ t, t ∈ task_group (single_dag (branch_task "A" "fA")) ∧
               air_class t ≠ "PythonOperator") as Hbad.
  { exists (branch_task "A" "fA"). split; [apply list_elem_of_singleton; reflexivity|discriminate]. }
  split; [by apply Hiff|by apply Hheap].
Defined.

(** X20: the import leaves every object that the heap held as it was, whether
    it returns or raises.  When it returns, the root and the operators of
    the tasks are new objects, different task ids have different operators,
    and none of them is the root. *)
Theorem from_airflow_dag_frame (operator_cls : pyclass) (dag : air_dag)
    (h : gmap nat object) :
  kept h (from_airflow_dag operator_cls dag h).2 ∧
  ∀ root all_ops h',
    from_airflow_dag_ops operator_cls dag h = (Ok (root, all_ops), h') →
    (root ∉ dom h) ∧
    (∀ k l, all_ops !! k = Some l → (l ∉ dom h) ∧ l ≠ root) ∧
    (∀ k1 k2 l, all_ops !! k1 = Some l → all_ops !! k2 = Some l → k1 = k2).
Proof.
  assert (kept h (from_airflow_dag_ops operator_cls dag h).2 ∧
          match (from_airflow_dag_ops operator_cls dag h).1 with
          | Ok r => (r.1 ∉ dom h) ∧ outside (dom h) r.2
          | Raise _ => True
          end) as [Hkept Hfresh].
  { destruct (topo_tree_of (task_group dag) []) as [topo|e] eqn:Htopo.
    - rewrite (from_airflow_dag_ops_tail _ _ _ _ Htopo).
      destruct (triple_import_tail (dom h) (kept h)) with (operator_cls := operator_cls)
        (dag := dag) (topo_tree := topo) (h := h) as [Hk Hpost].
      + intros h' Hh' l Hl. apply elem_of_dom in Hl as [o Ho].
        apply elem_of_dom. exists o. by apply Hh'.
      + intros h' l o Hl Hh' l' o' Ho'. rewrite lookup_insert_ne; [by apply Hh'|].
        intros ->. apply Hl, elem_of_dom. by exists o'.
      + intros h' l f Hl Hh' l' o' Ho'. rewrite lookup_alter_ne; [by apply Hh'|].
        intros ->. apply Hl, elem_of_dom. by exists o'.
      + by intros l o.
      + split; [done|]. by destruct (_ ≫= _) as [[r|e] h'].
    - rewrite (from_airflow_dag_ops_guard _ _ _ _ Htopo). simpl. split; [|done].
      by intros l o. }
  split.
  - by rewrite (proj1 (from_airflow_dag_run operator_cls dag h)).
  - intros root all_ops h' Hrun.
    destruct (from_airflow_dag_ops_distinct _ _ _ _ _ _ Hrun) as [Hroot Hinj].
    rewrite Hrun in Hfresh. destruct Hfresh as [Hr Hout]. split_and!; [done| |done].
    intros k l Hk. split; [by eapply Hout|by eapply Hroot].
Qed.

(** The diamond, imported into a heap that holds two operators. *)
Lemma from_airflow_dag_frame_witness :
  ∃ root all_ops h',
    from_airflow_dag_ops plain dag_diamond one_child = (Ok (root, all_ops), h') ∧
    kept one_child h' ∧
    (root ∉ dom one_child) ∧
    (∀ k l, all_ops !! k = Some l → (l ∉ dom one_child) ∧ l ≠ root) ∧
    (∀ k1 k2 l, all_ops !! k1 = Some l → all_ops !! k2 = Some l → k1 = k2).
Proof.
  destruct (from_airflow_dag_ops_returns plain dag_diamond one_child eq_refl)
    as (root & all_ops & h' & Hrun).
  { apply importable_computed. vm_compute. reflexivity. }
  destruct (from_airflow_dag_frame plain dag_diamond one_child) as [Hkept Hnew].
  destruct (Hnew root all_ops h' Hrun) as (Hroot & Hops & Hinj).
  exists root, all_ops, h'. split_and!; [assumption| |assumption..].
  rewrite (proj1 (from_airflow_dag_run plain dag_diamond one_child)), Hrun in Hkept.
  exact Hkept.
Defined.

(** X21: when the operator class runs [Operator.__init__] and the import
    returns, the registry of the root holds the operators of the tasks
    without upstream, each once, in the order of the dependency table, under
    [op__root__{task_id}], and nothing else. *)
Theorem from_airflow_dag_root_children (operator_cls : pyclass) (dag : air_dag)
    (h h' : gmap nat object) (root : nat) (all_ops : gmap string nat) :
  cls_base_init operator_cls = true →
  from_airflow_dag_ops operator_cls dag h = (Ok (root, all_ops), h') →
  ∃ topo_tree,
    topo_tree_of (task_group dag) [] = Ok topo_tree ∧
    _operators h' root
    = Ok ((λ p, (op_name "root" p, all_ops !! p)) <$> parent_less_of topo_tree) ∧
    NoDup (parent_less_of topo_tree) ∧
    (∀ p, p ∈ parent_less_of topo_tree ↔ (p, []) ∈ topo_tree) ∧
    (∀ p, p ∈ parent_less_of topo_tree → is_Some (all_ops !! p)).
Proof.
  intros Hinit Hrun.
  pose proof (from_airflow_dag_ops_spec operator_cls dag h) as Hspec.
  rewrite Hrun in Hspec.
  destruct Hspec as (topo & Htopo & _ & _ & _ & Hdom & _ & _ & Hreg).
  destruct (topo_tree_of_keys _ _ _ Htopo (NoDup_nil_2 : NoDup ([] : list (string * list string)).*1))
    as (Hnd & _ & _).
  destruct (parent_less_of_NoDup topo Hnd) as [Hpl _].
  assert (∀ p, p ∈ parent_less_of topo ↔ (p, []) ∈ topo) as Hin.
  { intros p. unfold parent_less_of. rewrite list_elem_of_omap. split.
    - intros ([c ps] & Hc & Hsome). simpl in Hsome. destruct ps; [|done].
      by injection Hsome as <-.
    - intros Hp. by exists (p, []). }
  exists topo. split_and!; [done| |done|done|].
  - rewrite (Hreg Hinit), root_registry_fresh; [done|done|].
    intros p _ Hp. by apply elem_of_nil in Hp.
  - intros p Hp. apply elem_of_dom. apply Hin in Hp. by eapply Hdom.
Qed.

(** The diamond has the one task [A] without upstream. *)
Lemma from_airflow_dag_root_children_witness :
  ∃ root all_ops h' topo_tree,
    from_airflow_dag_ops plain dag_diamond ∅ = (Ok (root, all_ops), h') ∧
    topo_tree_of (task_group dag_diamond) [] = Ok topo_tree ∧
    _operators h' root
    = Ok ((λ p, (op_name "root" p, all_ops !! p)) <$> parent_less_of topo_tree) ∧
    parent_less_of topo_tree = ["A"].
Proof.
  destruct (from_airflow_dag_ops_returns plain dag_diamond ∅ eq_refl)
    as (root & all_ops & h' & Hrun).
  { apply importable_computed. vm_compute. reflexivity. }
  destruct (from_airflow_dag_root_children plain dag_diamond ∅ h' root all_ops eq_refl Hrun)
    as (topo & Htopo & Hreg & _).
  exists root, all_ops, h', topo. split_and!; [assumption..|].
  revert Htopo. vm_compute. intros [= <-]. reflexivity.
Defined.

(** X22: when the import returns, every task of the group has an operator in
    [all_ops] under its [task_id], and the attribute [forward] of that
    operator is the [python_callable] of the task that [task_dict] holds
    under this id. *)
Theorem from_airflow_dag_forwards (operator_cls : pyclass) (dag : air_dag)
    (h h' : gmap nat object) (root : nat) (all_ops : gmap string nat) :
  from_airflow_dag_ops operator_cls dag h = (Ok (root, all_ops), h') →
  ∀ t, t ∈ task_group dag →
    ∃ l, all_ops !! task_id t = Some l ∧
         ∀ t' f, task_dict dag !! task_id t = Some t' → python_callable t' = Some f →
                 __dict__ h' l !! "forward" = Some (VFun f).
Proof.
  intros Hrun t Ht.
  pose proof (from_airflow_dag_ops_spec operator_cls dag h) as Hspec.
  rewrite Hrun in Hspec.
  destruct Hspec as (topo & Htopo & _ & _ & _ & Hdom & Hfwd & _).
  destruct (topo_tree_of_keys _ _ _ Htopo (NoDup_nil_2 : NoDup ([] : list (string * list string)).*1))
    as (_ & _ & Hkeys).
  pose proof (Hkeys t Ht) as Hk.
  apply list_elem_of_fmap in Hk as ([c ps] & Hc & Hin). simpl in Hc. subst c.
  apply Hdom, elem_of_dom in Hin as [l Hl].
  exists l. split; [done|]. intros t' f Ht' Hf. by eapply Hfwd.
Qed.

(** The task [D] of the diamond, which has two parents. *)
Lemma from_airflow_dag_forwards_witness :
  ∃ root all_ops h' l,
    from_airflow_dag_ops plain dag_diamond ∅ = (Ok (root, all_ops), h') ∧
    all_ops !! "D" = Some l ∧
    __dict__ h' l !! "forward" = Some (VFun "fD").
Proof.
  destruct (from_airflow_dag_ops_returns plain dag_diamond ∅ eq_refl)
    as (root & all_ops & h' & Hrun).
  { apply importable_computed. vm_compute. reflexivity. }
  destruct (from_airflow_dag_forwards plain dag_diamond ∅ h' root all_ops Hrun
              (python_task "D" "fD" ["B"; "C"])) as (l & Hl & Hfw).
  { simpl. do 3 (apply elem_of_cons; right). apply elem_of_cons. by left. }
  exists root, all_ops, h', l. split_and!; [assumption..|].
  apply (Hfw (python_task "D" "fD" ["B"; "C"])); vm_compute; reflexivity.
Defined.

(** X23: the root that the import returns can not be called.  Its [forward] is
    a [partial] object with [ops] bound by keyword, in which [inputs] finds
    no parameter [self] to remove: every call raises, and on a root that
    passes [is_dag] the error is the [ValueError] of [list.remove] (a
    [TypeError] when the function is not known). *)
Theorem imported_root_is_not_callable (operator_cls : pyclass) (dag : air_dag)
    (h h' : gmap nat object) (root : nat) (fenv : string → option pyfun)
    (args : list value) (kwargs : list (string * value)) :
  from_airflow_dag operator_cls dag h = (Ok root, h') →
  ∃ e, __call__ fenv h' root args kwargs = Raise e ∧
       (is_dag h' root = Ok true →
        e = (if fenv "sequential_forward" is Some _
             then ValueError "list.remove(x): x not in list"
             else TypeError "unsupported callable")).
Proof.
  intros Hrun. apply from_airflow_dag_inv in Hrun as [all_ops Hrun].
  pose proof (from_airflow_dag_ops_spec operator_cls dag h) as Hspec.
  rewrite Hrun in Hspec.
  destruct Hspec as (topo & _ & _ & _ & _ & _ & _ & Hfw & _).
  assert (inputs fenv h' root
          = Raise (if fenv "sequential_forward" is Some _
                   then ValueError "list.remove(x): x not in list"
                   else TypeError "unsupported callable")) as Hin.
  { unfold inputs, forward. rewrite Hfw. by destruct (fenv "sequential_forward"). }
  unfold __call__. destruct (is_dag h' root) as [[|]|e]; simpl.
  - rewrite Hin. simpl. by eexists.
  - by eexists.
  - by eexists.
Qed.

(** The root of the import of [{A: [], B: [A], C: [A]}]. *)
Lemma imported_root_is_not_callable_witness :
  ∃ root h' e,
    from_airflow_dag plain dag_ABC ∅ = (Ok root, h') ∧
    __call__ no_functions h' root [] [] = Raise e.
Proof.
  destruct (from_airflow_dag_ops_returns plain dag_ABC ∅ eq_refl)
    as (root & all_ops & h' & Hrun).
  { apply importable_computed. vm_compute. reflexivity. }
  apply from_airflow_dag_of_ops in Hrun.
  destruct (imported_root_is_not_callable plain dag_ABC ∅ h' root no_functions [] [] Hrun)
    as (e & He & _).
  exists root, h', e. split; assumption.
Defined.

(** X24: in a group of [PythonOperator]s, a first task that [task_dict] does
    not hold stops the import with [KeyError] of its [task_id], and a first
    task that [task_dict] holds without [python_callable] stops it with
    [AttributeError]. *)
Theorem from_airflow_dag_missing_task (operator_cls : pyclass) (dag : air_dag)
    (h : gmap nat object) (t : air_task) (rest : list air_task) :
  task_group dag = t :: rest →
  (∀ x, x ∈ task_group dag → air_class x = "PythonOperator") →
  (task_dict dag !! task_id t = None →
   (from_airflow_dag operator_cls dag h).1 = Raise (KeyError (task_id t))) ∧
  (∀ t', task_dict dag !! task_id t = Some t' → python_callable t' = None →
   (from_airflow_dag operator_cls dag h).1 = Raise (AttributeError "python_callable")).
Proof.
  intros Hgroup Hkind.
  destruct (topo_tree_of_result (task_group dag) []) as [[topo Htopo]|Hraise].
  2:{ destruct (proj2 (topo_tree_of_unsupported _ _) Hraise) as (x & Hx & Hc).
      destruct Hc. by apply Hkind. }
  assert (∃ ps topo', topo = (task_id t, ps) :: topo') as (ps & topo' & Heq).
  { rewrite Hgroup in Htopo. simpl in Htopo.
    rewrite decide_False in Htopo.
    - by eapply topo_tree_of_head.
    - intros Hne. apply Hne, Hkind. rewrite Hgroup. apply elem_of_cons. by left. }
  subst topo. destruct (from_airflow_dag_run operator_cls dag h) as [_ Hres].
  rewrite (from_airflow_dag_ops_tail _ _ _ _ Htopo) in Hres.
  revert Hres. unfold mbind, M_bind, new. cbn [for_topo_tree].
  unfold operator_of_task at 1. rewrite decide_True by (by rewrite dom_empty_L).
  unfold mbind, M_bind, new, task_callable, getitem. unfold mbind, M_bind.
  split.
  - intros Hnone. revert Hres. rewrite Hnone. simpl. done.
  - intros t' Ht' Hcall. revert Hres. rewrite Ht'. unfold mret, M_ret, get_python_callable.
    rewrite Hcall. simpl. done.
Qed.

(** A DAG with an empty [task_dict]. *)
Lemma from_airflow_dag_missing_task_witness :
  (from_airflow_dag plain dag_without_dict ∅).1 = Raise (KeyError "A").
Proof.
  refine (proj1 (from_airflow_dag_missing_task plain dag_without_dict ∅
                   (python_task "A" "fA" []) [] eq_refl _) _).
  - intros x Hx. apply list_elem_of_singleton in Hx. by subst x.
  - reflexivity.
Defined.
